(** * logd: the wire scanner, the event queue, the topic multiplexer and the client

    A shallow embedding of the Go sources and the properties proved of them.

    - [protocol]: [Scanner.ReadMessage] with the checksum it verifies;
    - [events]: [EventQ], its handlers and its loop;
    - [logd]: the older package-level [eventQ.doRead];
    - [mux]: [Handlers.PushRequest];
    - [client]: [Client.ReadOffset].

    Unsigned 64-bit counters are integers in [Z], reduced modulo [2^64] where
    the Go code can wrap around.  Byte slices are [list byte]. *)

From Stdlib Require Import ZArith Lia.
From Stdlib Require Import Strings.Byte Strings.String Strings.Ascii.
From Stdlib Require Import DecimalString.
From stdpp Require Import base numbers list strings gmap.

Open Scope Z_scope.

(** ** Bytes and integers *)

Definition bytes (s : string) : list byte := list_byte_of_string s.

Definition byteZ (b : byte) : Z := Z.of_N (Byte.to_N b).

Definition len {A} (l : list A) : Z := Z.of_nat (length l).

(** [uint64(x)]: the value a Go [uint64] holds after an operation whose
    mathematical result is [x]. *)
Definition u64 (x : Z) : Z := x mod 2 ^ 64.

(** [%d]: the decimal form of an integer, with a leading minus sign when
    negative. *)
Definition itoa (z : Z) : list byte := bytes (NilZero.string_of_int (Z.to_int z)).

#[global] Instance byte_eq_dec : EqDecision byte.
Proof.
  intros x y. destruct (Byte.eqb x y) eqn:E; [left | right].
  - apply Byte.byte_dec_bl, E.
  - apply Byte.eqb_false, E.
Defined.

Definition SP : byte := " "%byte.
Definition CR : byte := x0d.
Definition LF : byte := x0a.

(** ** Errors *)

Inductive NumErr := ErrSyntax | ErrRange.

Inductive error :=
| errInvalidProtocolLine
| errInvalidBodyLength
| errCrcChecksumMismatch
| errInvalidFirstByte
| errInvalidFormat
| ErrInternal
| ErrNotFound
| io_EOF
| NumError (fn : string) (e : NumErr)
| Wrap (e : error) (msg : string)
| errorString (msg : string).

#[global] Instance NumErr_eq_dec : EqDecision NumErr.
Proof. solve_decision. Defined.

(** [err == io.EOF] and the like: whether two errors are the same. *)
#[global] Instance error_eq_dec : EqDecision error.
Proof. solve_decision. Defined.

(** [int64(x)]: the value a Go [int64] holds after an operation whose
    mathematical result is [x]. *)
Definition i64 (x : Z) : Z := (x + 2 ^ 63) mod 2 ^ 64 - 2 ^ 63.

(** ** Handlers as state transformers

    A handler runs on a state [W] and either returns, is left parked on a
    channel operation, or panics. *)

Inductive Outcome (W A : Type) :=
| Returned (a : A) (w : W)
| Blocked (w : W)
| Panicked (e : error) (w : W).
Arguments Returned {W A}.
Arguments Blocked {W A}.
Arguments Panicked {W A}.

Definition M (W A : Type) : Type := W -> Outcome W A.

#[global] Instance M_ret {W} : MRet (M W) := fun A a w => Returned a w.

#[global] Instance M_bind {W} : MBind (M W) := fun A B f m w =>
  match m w with
  | Returned a w' => f a w'
  | Blocked w' => Blocked w'
  | Panicked e w' => Panicked e w'
  end.

Definition gets {W A} (f : W -> A) : M W A := fun w => Returned (f w) w.

Definition modify {W} (f : W -> W) : M W unit := fun w => Returned tt (f w).

Definition panic {W A} (e : error) : M W A := fun w => Panicked e w.

Fixpoint forM_ {W A} (l : list A) (f : A -> M W unit) : M W unit :=
  match l with
  | [] => mret tt
  | x :: l' => f x;; forM_ l' f
  end.

(** [P] holds of the state a handler is left in, however it ended. *)
Definition post {W A} (P : W -> Prop) (o : Outcome W A) : Prop :=
  match o with
  | Returned _ w | Blocked w | Panicked _ w => P w
  end.

(** The state a handler is left in. *)
Definition final {W A} (o : Outcome W A) : W :=
  match o with
  | Returned _ w | Blocked w | Panicked _ w => w
  end.

(** The handler is parked, in a state where [P] holds. *)
Definition parked {W A} (P : W -> Prop) (o : Outcome W A) : Prop :=
  match o with
  | Blocked w => P w
  | _ => False
  end.

(** The handler has not panicked, and [P] holds of the state it is in. *)
Definition alive {W A} (P : W -> Prop) (o : Outcome W A) : Prop :=
  match o with
  | Returned _ w | Blocked w => P w
  | Panicked _ _ => False
  end.

(** A Go channel: its capacity, the values buffered in it, the number of
    goroutines parked receiving from it, and the values handed straight to
    such receivers. *)
Record Chan (A : Type) := {
  capacity : nat;
  buf : list A;
  recvq : nat;
  recvd : list A;
}.
Arguments capacity {A}.
Arguments buf {A}.
Arguments recvq {A}.
Arguments recvd {A}.

Definition makeChan {A} (n : nat) : Chan A :=
  {| capacity := n; buf := []; recvq := 0; recvd := [] |}.

(** [c <- x] can proceed when a receiver is parked or the buffer has room;
    [None] when the sender has to wait. *)
Definition chanSend {A} (x : A) (c : Chan A) : option (Chan A) :=
  if decide (0 < recvq c)%nat then
    Some {| capacity := capacity c; buf := buf c;
            recvq := pred (recvq c); recvd := recvd c ++ [x] |}
  else if decide (length (buf c) < capacity c)%nat then
    Some {| capacity := capacity c; buf := buf c ++ [x];
            recvq := recvq c; recvd := recvd c |}
  else None.

(** The channel with [xs] added at the end of its buffer. *)
Definition chanAppend {A} (c : Chan A) (xs : list A) : Chan A :=
  {| capacity := capacity c; buf := buf c ++ xs; recvq := recvq c; recvd := recvd c |}.

(** No receiver is parked on the channel and its buffer has no room. *)
Definition chanFull {A} (c : Chan A) : Prop :=
  recvq c = 0%nat /\ (capacity c <= length (buf c))%nat.

(** ** hash/crc32

    The byte-at-a-time reference implementation of Go's [hash/crc32]
    ([simplePopulateTable], [simpleUpdate]); [uint32] values are integers
    below [2^32]. *)

Module crc32.

Definition IEEE : Z := 0xedb88320.

(** One round of the inner loop of [simplePopulateTable]. *)
Definition crcBit (poly crc : Z) : Z :=
  if Z.land crc 1 =? 1 then Z.lxor (Z.shiftr crc 1) poly else Z.shiftr crc 1.

Definition simplePopulateEntry (poly i : Z) : Z := Nat.iter 8 (crcBit poly) i.

Definition simpleMakeTable (poly : Z) : list Z :=
  map (fun i => simplePopulateEntry poly (Z.of_nat i)) (seq 0 256).

(** [^crc] on a [uint32]. *)
Definition not32 (c : Z) : Z := Z.lxor c 0xffffffff.

Definition tabAt (tab : list Z) (i : Z) : Z := nth (Z.to_nat i) tab 0.

(** [crc = tab[byte(crc)^v] ^ (crc >> 8)] *)
Definition updByte (tab : list Z) (crc : Z) (v : byte) : Z :=
  Z.lxor (tabAt tab (Z.lxor (Z.land crc 255) (byteZ v))) (Z.shiftr crc 8).

Definition simpleUpdate (crc : Z) (tab : list Z) (p : list byte) : Z :=
  not32 (fold_left (updByte tab) p (not32 crc)).

Definition Checksum (data : list byte) (tab : list Z) : Z := simpleUpdate 0 tab data.

(** The values of a [uint32], and the most significant byte of one. *)
Definition word32 (c : Z) : Prop := 0 <= c < 2 ^ 32.

Definition topByte (t : Z) : Z := Z.shiftr t 24.

End crc32.

(** ** strconv *)

Module strconv.

Definition digit (b : byte) : option Z :=
  let c := byteZ b in
  if (48 <=? c) && (c <=? 57) then Some (c - 48) else None.

(** The loop of [ParseUint] over the bytes of [s], in base 10: the value
    read, or the error it stops with at the first byte that is not a digit
    ([ErrSyntax]) or whose digit takes the value above [maxVal] ([ErrRange]).
    For [maxVal] below [2^64] the value goes above [maxVal] exactly when one
    of the tests of the source, [n >= cutoff], [n1 < n] and [n1 > maxVal],
    holds on the 64-bit numbers. *)
Fixpoint digits (maxVal acc : Z) (s : list byte) : Z + NumErr :=
  match s with
  | [] => inl acc
  | b :: s' =>
      match digit b with
      | None => inr ErrSyntax
      | Some d =>
          if maxVal <? acc * 10 + d then inr ErrRange
          else digits maxVal (acc * 10 + d) s'
      end
  end.

(** [strconv.ParseUint(s, 10, bitSize)]: no sign, at least one digit, and
    the value must fit in [bitSize] bits. *)
Definition ParseUint (s : list byte) (bitSize : Z) : Z + error :=
  match s with
  | [] => inr (NumError "ParseUint" ErrSyntax)
  | _ =>
      match digits (2 ^ bitSize - 1) 0 s with
      | inl v => inl v
      | inr e => inr (NumError "ParseUint" e)
      end
  end.

(** [strconv.ParseInt(s, 10, bitSize)]: an optional sign, then [ParseUint]
    on the rest; a range error of [ParseUint] comes with the largest
    unsigned value, which is out of the signed range as well. *)
Definition ParseInt (s : list byte) (bitSize : Z) : Z + error :=
  match s with
  | [] => inr (NumError "ParseInt" ErrSyntax)
  | c :: s' =>
      let '(neg, ds) :=
        if decide (c = "+"%byte) then (false, s')
        else if decide (c = "-"%byte) then (true, s')
        else (false, s) in
      match ParseUint ds bitSize with
      | inr (NumError _ ErrRange) => inr (NumError "ParseInt" ErrRange)
      | inr _ => inr (NumError "ParseInt" ErrSyntax)
      | inl un =>
          let cutoff := 2 ^ (bitSize - 1) in
          if negb neg && (cutoff <=? un) then inr (NumError "ParseInt" ErrRange)
          else if neg && (cutoff <? un) then inr (NumError "ParseInt" ErrRange)
          else inl (if neg then - un else un)
      end
  end.

End strconv.

(** ** package protocol: the scanner *)

Module protocol.

Record Message := NewMessage { ID : Z; Body : list byte }.

(** The checksum table of the package: the IEEE polynomial. *)
Definition crcTable : list Z := crc32.simpleMakeTable crc32.IEEE.

(** [s] cut at its first [sep]: the bytes before it and the bytes after. *)
Fixpoint cut (sep : byte) (s : list byte) : option (list byte * list byte) :=
  match s with
  | [] => None
  | b :: s' =>
      if decide (b = sep) then Some ([], s')
      else match cut sep s' with
           | Some (a, r) => Some (b :: a, r)
           | None => None
           end
  end.

(** [bytes.SplitN(s, sep, n)] for a one-byte separator and [n >= 0]: at most
    [n] pieces, the last one holding the unsplit remainder. *)
Fixpoint SplitN (s : list byte) (sep : byte) (n : nat) : list (list byte) :=
  match n with
  | O => []
  | S O => [s]
  | S m =>
      match cut sep s with
      | Some (a, r) => a :: SplitN r sep m
      | None => [s]
      end
  end.

(** [bytes.TrimRight(s, cutset)] *)
Definition TrimRight (s cutset : list byte) : list byte :=
  fold_right
    (fun b acc =>
       match acc with
       | [] => if bool_decide (b ∈ cutset) then [] else [b]
       | _ => b :: acc
       end) [] s.

Section Scanner.

(** The buffered reader and [ReadLine], which takes one line off it and
    returns the line without its terminator. *)
Context {BR : Type}.
Variable ReadLine : BR -> (list byte * option error) * BR.

Record Scanner := {
  br : BR;
  LastChunkPos : Z;
  ChunkPos : Z;
  chunkEnd : Z;
  msg : option Message;
  err : option error;
}.

Definition set_br (b : BR) (ps : Scanner) : Scanner :=
  {| br := b; LastChunkPos := LastChunkPos ps; ChunkPos := ChunkPos ps;
     chunkEnd := chunkEnd ps; msg := msg ps; err := err ps |}.

Definition set_err (e : option error) (ps : Scanner) : Scanner :=
  {| br := br ps; LastChunkPos := LastChunkPos ps; ChunkPos := ChunkPos ps;
     chunkEnd := chunkEnd ps; msg := msg ps; err := e |}.

(** What [ReadMessage] returns: bytes read, the message, the error. *)
Definition Read : Type := Z * option Message * option error.

(** The part of [ReadMessage] after the line has been read.  [int] is 64
    bits wide, so that [int(bodylen)] is [bodylen]. *)
Definition parseLine (read : Z) (line : list byte) : Read :=
  if decide (line = bytes "+EOF") then (read, None, Some io_EOF)
  else
    match SplitN line SP 4 with
    | [p0; p1; p2; p3] =>
        match strconv.ParseUint p0 64 with
        | inr e => (read, None, Some (Wrap e "scanning id failed"))
        | inl id =>
            match strconv.ParseInt p1 64 with
            | inr e => (read, None, Some (Wrap e "scanning body length failed"))
            | inl bodylen =>
                match strconv.ParseUint p2 32 with
                | inr e => (read, None, Some (Wrap e "failed to scan crc"))
                | inl checksum =>
                    let body := p3 in
                    if negb (bodylen =? len body) then
                      (read, None, Some errInvalidBodyLength)
                    else if negb (crc32.Checksum body crcTable =? checksum) then
                      (read, None, Some errCrcChecksumMismatch)
                    else
                      (read, Some (NewMessage id (TrimRight body [CR; LF])), None)
                end
            end
        end
    | _ => (read, None, Some errInvalidProtocolLine)
    end.

Definition ReadMessage (ps : Scanner) : Read * Scanner :=
  let '((line, e), br') := ReadLine (br ps) in
  let ps := set_br br' ps in
  let read := len line + 2 in
  match e with
  | Some e => ((read, None, Some e), set_err (Some e) ps)
  | None => (parseLine read line, ps)
  end.

End Scanner.

Arguments Scanner : clear implicits.

Section Scan.

(** The buffered reader again, now also with [br.Peek(1)], which gives the
    next byte without advancing the reader, or the error met, and
    [br.ReadByte()], whose result the scanner drops. *)
Context {BR : Type}.
Variable ReadLine : BR -> (list byte * option error) * BR.
Variable Peek : BR -> byte + error.
Variable ReadByte : BR -> BR.

Definition set_chunkEnd (n : Z) (ps : Scanner BR) : Scanner BR :=
  {| br := br ps; LastChunkPos := LastChunkPos ps; ChunkPos := ChunkPos ps;
     chunkEnd := n; msg := msg ps; err := err ps |}.

(** [Reset]: the scanner as new, reading from [r]. *)
Definition Reset (r : BR) (ps : Scanner BR) : Scanner BR :=
  {| br := r; LastChunkPos := 0; ChunkPos := 0; chunkEnd := 0; msg := None; err := None |}.

Definition scanEnvelope (ps : Scanner BR) : option error * Scanner BR :=
  match Peek (br ps) with
  | inr e =>
      if decide (e = io_EOF) then (Some e, ps)
      else (Some (Wrap e "failed reading first byte"), ps)
  | inl b =>
      if decide (b ≠ "+"%byte) then (Some errInvalidFirstByte, ps)
      else
        let ps := set_br (ReadByte (br ps)) ps in
        let '((line, e), br') := ReadLine (br ps) in
        let ps := set_br br' ps in
        match e with
        | Some e => (Some e, ps)
        | None =>
            if decide (line = bytes "EOF") then (Some io_EOF, ps)
            else
              match strconv.ParseInt line 64 with
              | inr e => (Some (Wrap e "failed to parse chunk length"), ps)
              | inl n => (None, set_chunkEnd n ps)
              end
        end
  end.

(** The part of [Scan] from the call of [ReadMessage] on. *)
Definition scanMessage (ps : Scanner BR) : bool * Scanner BR :=
  let '((n, m, e), ps) := ReadMessage ReadLine ps in
  let pos := i64 (ChunkPos ps + n) in
  let done := (0 <? chunkEnd ps) && (chunkEnd ps <=? pos) in
  (bool_decide (e = None),
   {| br := br ps; LastChunkPos := n;
      ChunkPos := if done then 0 else pos;
      chunkEnd := if done then 0 else chunkEnd ps;
      msg := m; err := e |}).

Definition Scan (ps : Scanner BR) : bool * Scanner BR :=
  if chunkEnd ps <=? 0 then
    match scanEnvelope ps with
    | (Some e, ps) =>
        if decide (e ≠ errInvalidFirstByte) then (false, set_err (Some e) ps)
        else scanMessage ps
    | (None, ps) => scanMessage ps
    end
  else scanMessage ps.

End Scan.

(** The message line [<id> <length> <crc> <body>]. *)
Definition logLine (p0 p1 p2 body : list byte) : list byte :=
  p0 ++ SP :: p1 ++ SP :: p2 ++ SP :: body.

(** Bit [k] of a byte inverted. *)
Definition flipBit (k : nat) (b : byte) : byte :=
  match Byte.of_N (N.lxor (Byte.to_N b) (N.shiftl 1 (N.of_nat k))) with
  | Some b' => b'
  | None => b
  end.

(** Bit [k] of byte [i] of [body] inverted. *)
Definition flipBodyBit (i k : nat) (body : list byte) : list byte :=
  alter (flipBit k) i body.

End protocol.

(** ** package events: the event queue *)

Module events.

(** *** The protocol values the queue handles *)

(** [protocol.CmdType]: the named commands, and any other value of the
    underlying integer type. *)
Inductive CmdType :=
| CmdMessage | CmdReplicate | CmdRawMessage | CmdRead | CmdTail | CmdHead
| CmdStats | CmdPing | CmdClose | CmdSleep | CmdShutdown | CmdBatch
| CmdOther (code : Z).

#[global] Instance CmdType_eq_dec : EqDecision CmdType.
Proof. solve_decision. Defined.

Inductive RespType := RespOK | RespErr | RespErrClient | RespEOF.

#[global] Instance RespType_eq_dec : EqDecision RespType.
Proof. solve_decision. Defined.

(** The canned client-error bodies. *)
Inductive ErrResp := ErrRespInvalid | ErrRespNoArguments | ErrRespEmptyMessage.

(** What travels on a reader channel: [bytes.NewReader(b)] or
    [io.LimitReader(f, n)] over the file named [file]. *)
Inductive Reader :=
| BytesReader (b : list byte)
| LimitReader (file : string) (n : Z).

Record Response := {
  Status : RespType;
  ID : Z;
  Body : list byte;
  Err : option ErrResp;
  ReaderC : option nat;
}.

Definition NewResponse (status : RespType) : Response :=
  {| Status := status; ID := 0; Body := []; Err := None; ReaderC := None |}.

Definition NewClientErrResponse (body : ErrResp) : Response :=
  {| Status := RespErrClient; ID := 0; Body := []; Err := Some body; ReaderC := None |}.

Definition withID (id : Z) (r : Response) : Response :=
  {| Status := Status r; ID := id; Body := Body r; Err := Err r; ReaderC := ReaderC r |}.

Definition withBody (b : list byte) (r : Response) : Response :=
  {| Status := Status r; ID := ID r; Body := b; Err := Err r; ReaderC := ReaderC r |}.

Definition withReaderC (c : nat) (r : Response) : Response :=
  {| Status := Status r; ID := ID r; Body := Body r; Err := Err r; ReaderC := Some c |}.

(** [Done] is the command's done channel. *)
Record Command := {
  Name : CmdType;
  Args : list (list byte);
  ConnID : string;
  Done : nat;
}.

(** Calls the queue makes on a command or on a response, and the [select]
    of [handleSleep] on [time.After] of [msecs] milliseconds and on
    [cmd.Wake]: the handler goes on when the timer fires or the command is
    woken, whichever comes first, and both arms are empty. *)
Inductive Action :=
| Respond (cmd : Command) (resp : Response)
| WaitForReady (cmd : Command)
| Finish (cmd : Command)
| SendEOF (resp : Response)
| TimerOrWake (cmd : Command) (msecs : Z).

(** The responses given, in order, among the calls made. *)
Definition responded (t : list Action) : list (Command * Response) :=
  omap (fun a => match a with Respond c r => Some (c, r) | _ => None end) t.

(** *** The logger *)

Record LogReadableFile := { lfName : string; lfSize : Z; lfLimit : Z }.

Definition SizeLimit (lf : LogReadableFile) : Z * Z := (lfSize lf, lfLimit lf).

Record LogManager (L : Type) := {
  Setup : L -> option error * L;
  Shutdown : L -> option error * L;
}.
Arguments Setup {L}.
Arguments Shutdown {L}.

(** [logger.Logger].  A range iterator is the list of its steps, each with
    the file it stands on and the error it reports there.  [asLogManager]
    is the type assertion [q.log.(logger.LogManager)]. *)
Class Logger (L : Type) := {
  SetID : Z -> L -> L;
  Write : list byte -> L -> (Z * option error) * L;
  Head : L -> (Z * option error) * L;
  Range : Z -> Z -> L -> (list (LogReadableFile * option error) + error) * L;
  asLogManager : option (LogManager L);
}.

(** [internal.Stats] *)
Class StatsOps (ST : Type) := {
  Incr : string -> ST -> ST;
  Bytes : ST -> list byte;
}.

Record Subscription := newSubscription { readerC : nat; done : nat }.

Section Queue.

Context {L ST : Type} `{!Logger L} `{!StatsOps ST}.

(** [WriteLogLine] of the protocol writer, [protocol.ParseNumber] and
    [fmt.Sscanf(s, "%d", &n)]. *)
Variable WriteLogLine : protocol.Message -> list byte.
Variable ParseNumber : list byte -> Z + error.
Variable Sscan : list byte -> Z + error.

(** The order in which [range] visits the entries of a map. *)
Variable mapOrder : list (string * Subscription) -> list (string * Subscription).

Record EventQ := {
  currID : Z;
  subscriptions : gmap string Subscription;
  log : L;
  Stats : ST;
}.

(** The queue together with the channels it holds references to and the
    calls it has made so far. *)
Record World := {
  q : EventQ;
  readers : list (Chan Reader);
  dones : list (Chan unit);
  trace : list Action;
}.

Definition set_q (f : EventQ -> EventQ) (w : World) : World :=
  {| q := f (q w); readers := readers w; dones := dones w; trace := trace w |}.

Definition set_currID (id : Z) (e : EventQ) : EventQ :=
  {| currID := id; subscriptions := subscriptions e; log := log e; Stats := Stats e |}.

Definition set_subscriptions (s : gmap string Subscription) (e : EventQ) : EventQ :=
  {| currID := currID e; subscriptions := s; log := log e; Stats := Stats e |}.

Definition set_log (l : L) (e : EventQ) : EventQ :=
  {| currID := currID e; subscriptions := subscriptions e; log := l; Stats := Stats e |}.

Definition set_Stats (s : ST) (e : EventQ) : EventQ :=
  {| currID := currID e; subscriptions := subscriptions e; log := log e; Stats := s |}.

Definition act (a : Action) : M World unit :=
  modify (fun w => {| q := q w; readers := readers w; dones := dones w;
                      trace := trace w ++ [a] |}).

(** A call of a logger method: run it on [q.log] and store the logger back. *)
Definition onLog {A} (f : L -> A * L) : M World A := fun w =>
  let '(a, l') := f (log (q w)) in Returned a (set_q (set_log l') w).

(** [make(chan io.Reader, n)] *)
Definition makeReaderC (n : nat) : M World nat := fun w =>
  Returned (length (readers w))
    {| q := q w; readers := readers w ++ [makeChan n]; dones := dones w;
       trace := trace w |}.

(** [readerC <- r] *)
Definition sendReader (c : nat) (r : Reader) : M World unit := fun w =>
  match readers w !! c with
  | Some ch =>
      match chanSend r ch with
      | Some ch' =>
          Returned tt {| q := q w; readers := <[c := ch']> (readers w);
                         dones := dones w; trace := trace w |}
      | None => Blocked w
      end
  | None => Blocked w
  end.

(** [select { case done <- struct{}{}: default: }] *)
Definition trySendDone (c : nat) : M World bool := fun w =>
  match dones w !! c with
  | Some ch =>
      match chanSend tt ch with
      | Some ch' =>
          Returned true {| q := q w; readers := readers w;
                           dones := <[c := ch']> (dones w); trace := trace w |}
      | None => Returned false w
      end
  | None => Returned false w
  end.

(** [w'] differs from [w] in its reader channels at most. *)
Definition sameButReaders (w w' : World) : Prop :=
  q w' = q w /\ dones w' = dones w /\ trace w' = trace w.

(** *** Subscriptions *)

Definition send (subs : Subscription) (msg : list byte) : M World unit :=
  sendReader (readerC subs) (BytesReader msg).

Definition finish (subs : Subscription) : M World unit :=
  _ ← trySendDone (done subs); mret tt.

(** *** Handlers *)

Definition publishMessages (cmd : Command) (msgs : list (list byte)) : M World unit :=
  subs ← gets (fun w => subscriptions (q w));
  forM_ (mapOrder (map_to_list subs))
    (fun '(_, sub) => forM_ msgs (fun m => send sub m)).

(** The loop of [handleMsg] over [cmd.Args].  [None] when the handler has
    responded and returned from inside the loop, otherwise the last id and
    the lines written. *)
Fixpoint writeArgs (cmd : Command) (args : list (list byte)) (id : Z)
    (msgs : list (list byte)) : M World (option (Z * list (list byte))) :=
  match args with
  | [] => mret (Some (id, msgs))
  | msg :: args' =>
      if decide (len msg = 0) then
        act (Respond cmd (NewClientErrResponse ErrRespEmptyMessage));;
        mret None
      else
        let id := u64 (id + 1) in
        let msgb := WriteLogLine (protocol.NewMessage id msg) in
        let msgs := msgs ++ [msgb] in
        onLog (fun l => (tt, SetID id l));;
        r ← onLog (Write msgb);
        match snd r with
        | Some _ => act (Respond cmd (NewResponse RespErr));; mret None
        | None => writeArgs cmd args' id msgs
        end
  end.

Definition handleMsg (cmd : Command) : M World unit :=
  curr ← gets (fun w => currID (q w));
  let id := u64 (curr - 1) in
  if decide (len (Args cmd) = 0) then
    act (Respond cmd (NewClientErrResponse ErrRespNoArguments))
  else
    r ← writeArgs cmd (Args cmd) id [];
    match r with
    | None => mret tt
    | Some (id, msgs) =>
        modify (set_q (set_currID (u64 (id + 1))));;
        modify (set_q (fun e => set_Stats (Incr "total_writes" (Stats e)) e));;
        act (Respond cmd (withID id (NewResponse RespOK)));;
        publishMessages cmd msgs
    end.

Definition sendChunk (lf : LogReadableFile) (readerC : nat) : M World unit :=
  let '(size, limit) := SizeLimit lf in
  let buflen := if 0 <? limit then limit else size in
  sendReader readerC (BytesReader (bytes "+" ++ itoa buflen ++ [CR; LF]));;
  sendReader readerC (LimitReader (lfName lf) buflen).

(** Modelled from the spec: [Response.SendEOF] is not part of these
    sources.  A reader stream is terminated by [+EOF] CR LF, and what a
    connection is sent is what its listener takes off the reader channel of
    the response: the call puts a reader of these bytes on [resp.ReaderC],
    with a plain channel send (a send on a nil channel never proceeds). *)
Definition eofReader : Reader := BytesReader (bytes "+EOF" ++ [CR; LF]).

Definition sendEOF (resp : Response) : M World unit :=
  act (SendEOF resp);;
  match ReaderC resp with
  | Some c => sendReader c eofReader
  | None => fun w => Blocked w
  end.

(** The part of [doRead] after the range has been asked for: on an error
    the stream is ended at once, otherwise every file of the iterator is sent
    and the stream is ended unless the read is a tailing one. *)
Definition streamRange (cmd : Command) (resp : Response) (rc : nat) (limit : Z)
    (r : list (LogReadableFile * option error) + error) : M World unit :=
  match r with
  | inr _ => sendEOF resp;; act (Finish cmd)
  | inl iterator =>
      forM_ iterator (fun '(lf, e) =>
        match e with
        | Some _ => sendEOF resp;; act (Finish cmd)
        | None => mret tt
        end;;
        sendChunk lf rc);;
      if decide (limit ≠ 0) then sendEOF resp;; act (Finish cmd)
      else mret tt
  end.

Definition doRead (cmd : Command) (startID limit : Z) : M World unit :=
  rc ← makeReaderC 1000;
  let resp := withReaderC rc (NewResponse RespOK) in
  act (Respond cmd resp);;
  act (WaitForReady cmd);;
  end_ ← (if decide (limit = 0) then
            r ← onLog Head;
            match snd r with
            | Some e => panic e
            | None => mret (fst r)
            end
          else mret (u64 (startID + limit)));
  modify (set_q (fun e =>
    set_subscriptions (<[ConnID cmd := newSubscription rc (Done cmd)]> (subscriptions e)) e));;
  r ← onLog (Range startID end_);
  streamRange cmd resp rc limit r.

Definition parseReplicate (cmd : Command) : Z + error :=
  match Args cmd with
  | [a] => ParseNumber a
  | _ => inr errInvalidFormat
  end.

Definition handleReplicate (cmd : Command) : M World unit :=
  match parseReplicate cmd with
  | inr _ => act (Respond cmd (NewResponse RespErr))
  | inl startID => doRead cmd startID 0
  end.

Definition handleRawMsg (cmd : Command) : M World unit :=
  act (Respond cmd (NewResponse RespOK)).

Definition parseRead (cmd : Command) : Z * Z + error :=
  match Args cmd with
  | [a0; a1] =>
      match ParseNumber a0 with
      | inr e => inr e
      | inl startID =>
          match ParseNumber a1 with
          | inr e => inr e
          | inl limit => inl (startID, limit)
          end
      end
  | _ => inr errInvalidFormat
  end.

Definition handleRead (cmd : Command) : M World unit :=
  match parseRead cmd with
  | inr _ => act (Respond cmd (NewClientErrResponse ErrRespInvalid))
  | inl (startID, limit) =>
      modify (set_q (fun e => set_Stats (Incr "total_reads" (Stats e)) e));;
      doRead cmd startID limit
  end.

Definition handleHead (cmd : Command) : M World unit :=
  if decide (len (Args cmd) ≠ 0) then
    act (Respond cmd (NewClientErrResponse ErrRespInvalid))
  else
    r ← onLog Head;
    match snd r with
    | Some _ => act (Respond cmd (NewResponse RespErr))
    | None => act (Respond cmd (withID (fst r) (NewResponse RespOK)))
    end.

Definition handleStats (cmd : Command) : M World unit :=
  if decide (len (Args cmd) ≠ 0) then
    act (Respond cmd (NewClientErrResponse ErrRespInvalid))
  else
    st ← gets (fun w => Stats (q w));
    act (Respond cmd (withBody (Bytes st) (NewResponse RespOK))).

Definition handlePing (cmd : Command) : M World unit :=
  if decide (len (Args cmd) ≠ 0) then
    act (Respond cmd (NewClientErrResponse ErrRespInvalid))
  else
    act (Respond cmd (NewResponse RespOK)).

Definition removeSubscription (cmd : Command) : M World unit :=
  subs ← gets (fun w => subscriptions (q w));
  match subs !! ConnID cmd with
  | Some sub => finish sub
  | None => mret tt
  end;;
  modify (set_q (fun e => set_subscriptions (delete (ConnID cmd) (subscriptions e)) e)).

Definition handleClose (cmd : Command) : M World unit :=
  if decide (len (Args cmd) ≠ 0) then
    act (Respond cmd (NewClientErrResponse ErrRespInvalid))
  else
    removeSubscription cmd;;
    act (Respond cmd (NewResponse RespOK)).

Definition handleSleep (cmd : Command) : M World unit :=
  match Args cmd with
  | [a] =>
      match Sscan a with
      | inr _ => act (Respond cmd (NewClientErrResponse ErrRespInvalid))
      | inl msecs =>
          act (TimerOrWake cmd msecs);; act (Respond cmd (NewResponse RespOK))
      end
  | _ => act (Respond cmd (NewClientErrResponse ErrRespInvalid))
  end.

Definition HandleShutdown (cmd : Command) : M World (option error) :=
  match asLogManager with
  | Some manager => onLog (Shutdown manager)
  | None => mret None
  end.

(** The [switch cmd.Name] of [loop]: one command taken off [q.in]. *)
Definition dispatch (cmd : Command) : M World unit :=
  match Name cmd with
  | CmdMessage => handleMsg cmd
  | CmdReplicate => handleReplicate cmd
  | CmdRawMessage => handleRawMsg cmd
  | CmdRead => handleRead cmd
  | CmdHead => handleHead cmd
  | CmdStats => handleStats cmd
  | CmdPing => handlePing cmd
  | CmdClose => handleClose cmd
  | CmdSleep => handleSleep cmd
  | CmdShutdown =>
      e ← HandleShutdown cmd;
      match e with
      | Some _ => act (Respond cmd (NewResponse RespErr))
      | None => act (Respond cmd (NewResponse RespOK))
      end
  | _ => act (Respond cmd (NewResponse RespErr))
  end.

(** [Start], up to the point where it spawns [loop]: the error it returns. *)
Definition Start : M World (option error) :=
  match asLogManager with
  | Some manager =>
      e ← onLog (Setup manager);
      match e with
      | Some err => panic err
      | None => mret tt
      end
  | None => mret tt
  end;;
  r ← onLog Head;
  match snd r with
  | Some err => mret (Some err)
  | None => modify (set_q (set_currID (u64 (fst r + 1))));; mret None
  end.

(** The log after [SetID] and [Write] have been called, in this order, for
    each of [args], with the ids that follow [id]. *)
Fixpoint logAfter (id : Z) (args : list (list byte)) (l : L) : L :=
  match args with
  | [] => l
  | msg :: args' =>
      let id := u64 (id + 1) in
      logAfter id args' (snd (Write (WriteLogLine (protocol.NewMessage id msg)) (SetID id l)))
  end.

(** The lines [WriteLogLine] makes of [args] with the ids that follow [id]. *)
Fixpoint linesAfter (id : Z) (args : list (list byte)) : list (list byte) :=
  match args with
  | [] => []
  | msg :: args' =>
      let id := u64 (id + 1) in
      WriteLogLine (protocol.NewMessage id msg) :: linesAfter id args'
  end.

(** The two readers [sendChunk] sends for a file: the envelope, then the
    file's bytes. *)
Definition chunk (lf : LogReadableFile) : list Reader :=
  let '(size, limit) := SizeLimit lf in
  let buflen := if 0 <? limit then limit else size in
  [BytesReader (bytes "+" ++ itoa buflen ++ [CR; LF]); LimitReader (lfName lf) buflen].

(** The calls [doRead] makes while it walks the iterator: the stream is
    ended at each step that reports an error. *)
Definition stepCalls (cmd : Command) (resp : Response)
    (iterator : list (LogReadableFile * option error)) : list Action :=
  flat_map (fun x => match snd x with
                     | Some _ => [SendEOF resp; Finish cmd]
                     | None => []
                     end) iterator.

(** The readers [doRead] sends while it walks the iterator: the chunk of
    every step, after the end of the stream for a step that reports an
    error. *)
Definition stepReaders (iterator : list (LogReadableFile * option error)) : list Reader :=
  flat_map (fun x => match snd x with
                     | Some _ => [eofReader]
                     | None => []
                     end ++ chunk (fst x)) iterator.

(** What a turn of the [select] in [loop] receives. *)
Inductive Event := OnIn (cmd : Command) | OnClose.

(** [loop] run against the sequence of events its [select] receives; it
    returns at [OnClose] and is left waiting when the sequence ends. *)
Fixpoint loop (evs : list Event) : M World unit :=
  match evs with
  | [] => mret tt
  | OnClose :: _ => mret tt
  | OnIn cmd :: evs' => dispatch cmd;; loop evs'
  end.

End Queue.

End events.

(** ** package logd: the older queue's read handler *)

Module logd.

Record Response := {
  Status : events.RespType;
  ID : Z;
  msgC : option nat;
}.

Definition newResponse (status : events.RespType) : Response :=
  {| Status := status; ID := 0; msgC := None |}.

(** [respC] is the command's response channel, [done] its done channel. *)
Record Command := {
  name : events.CmdType;
  args : list (list byte);
  respC : nat;
  done : nat;
}.

(** [cmd.respond(resp)] and [cmd.finish()]. *)
Inductive Action :=
| respond (cmd : Command) (resp : Response)
| finish (cmd : Command).

Record Subscription := newSubscription { sub_msgC : nat; sub_done : nat }.

(** The logger as [doRead] uses it.  The log scanner is not part of these
    sources: it is taken as the list of its scans that return true, each with
    the message it yields and the value [scanner.Error()] has after it, and
    the value [scanner.Error()] has once [Scan] has returned false. *)
Class Logger (L : Type) := {
  SeekToID : Z -> L -> option error * L;
  newLogScanner : L -> list (protocol.Message * option error) * option error;
}.

Section Queue.

Context {L : Type} `{!Logger L}.

(** [Message.bytes] *)
Variable msgBytes : protocol.Message -> list byte.

Record eventQ := {
  currID : Z;
  subscriptions : gmap nat Subscription;
  log : L;
}.

Record World := {
  q : eventQ;
  msgChans : list (Chan (list byte));
  trace : list Action;
}.

Definition act (a : Action) : M World unit :=
  modify (fun w => {| q := q w; msgChans := msgChans w; trace := trace w ++ [a] |}).

Definition onLog {A} (f : L -> A * L) : M World A := fun w =>
  let '(a, l') := f (log (q w)) in
  Returned a {| q := {| currID := currID (q w); subscriptions := subscriptions (q w);
                        log := l' |};
                msgChans := msgChans w; trace := trace w |}.

(** [make(chan []byte)] *)
Definition makeMsgC : M World nat := fun w =>
  Returned (length (msgChans w))
    {| q := q w; msgChans := msgChans w ++ [makeChan 0]; trace := trace w |}.

(** [msgC <- b] *)
Definition sendMsg (c : nat) (b : list byte) : M World unit := fun w =>
  match msgChans w !! c with
  | Some ch =>
      match chanSend b ch with
      | Some ch' =>
          Returned tt {| q := q w; msgChans := <[c := ch']> (msgChans w);
                         trace := trace w |}
      | None => Blocked w
      end
  | None => Blocked w
  end.

Definition subscribe (k : nat) (s : Subscription) : M World unit :=
  modify (fun w =>
    {| q := {| currID := currID (q w);
               subscriptions := <[k := s]> (subscriptions (q w));
               log := log (q w) |};
       msgChans := msgChans w; trace := trace w |}).

(** The [for scanner.Scan()] loop of [doRead]: the bytes collected and
    what [scanner.Error()] returns after the loop, which is called whether
    the loop was left at the limit or because [Scan] returned false. *)
Fixpoint scanLoop (scans : list (protocol.Message * option error)) (final : option error)
    (limit numMsg : Z) (b : list byte) : list byte * option error :=
  match scans with
  | [] => (b, final)
  | (msg, e) :: rest =>
      let b := b ++ msgBytes msg in
      let numMsg := numMsg + 1 in
      if (0 <? limit) && (limit <=? numMsg) then (b, e)
      else scanLoop rest final limit numMsg b
  end.

Definition doRead (cmd : Command) (startID limit : Z) : M World unit :=
  mc ← makeMsgC;
  let resp := {| Status := events.RespOK; ID := 0; msgC := Some mc |} in
  act (respond cmd resp);;
  e ← onLog (SeekToID startID);
  match e with
  | Some err => panic err
  | None =>
      sc ← gets (fun w => newLogScanner (log (q w)));
      let '(b, serr) := scanLoop (fst sc) (snd sc) limit 0 [] in
      match serr with
      | Some err => panic err
      | None =>
          (if decide (0 < len b) then sendMsg mc b else mret tt);;
          if decide (limit = 0) then
            subscribe (respC cmd) (newSubscription mc (done cmd))
          else act (finish cmd)
      end
  end.

End Queue.

End logd.

(** ** package events: the per-topic multiplexer *)

Module mux.

Record Request := { Name : events.CmdType; Topic : string }.

Definition blockingReqs (c : events.CmdType) : bool :=
  match c with
  | events.CmdBatch | events.CmdRead | events.CmdTail => true
  | _ => false
  end.

(** The queue type [eventQ] of this package, the topic registry and what
    [Handlers] calls on them.  [R] is the response a queue returns. *)
Class QueueOps (Q T TS R : Type) := {
  newEventQ : Q;
  setTopic : T -> Q -> Q;
  GoStart : Q -> option error * Q;
  qPushRequest : Request -> Q -> (option R * option error) * Q;
  topics_add : string -> TS -> (T + error) * TS;
}.

Section Handlers.

Context {Q T TS R : Type} `{!QueueOps Q T TS R}.

Record Handlers := {
  h : gmap string Q;
  asyncQ : Q;
  topics : TS;
}.

Definition set_h (m : gmap string Q) (hs : Handlers) : Handlers :=
  {| h := m; asyncQ := asyncQ hs; topics := topics hs |}.

Definition set_asyncQ (a : Q) (hs : Handlers) : Handlers :=
  {| h := h hs; asyncQ := a; topics := topics hs |}.

Definition set_topics (ts : TS) (hs : Handlers) : Handlers :=
  {| h := h hs; asyncQ := asyncQ hs; topics := ts |}.

(** [h.asyncQ.PushRequest(ctx, req)] *)
Definition pushAsync (req : Request) (hs : Handlers)
    : (option R * option error) * Handlers :=
  let '(r, a') := qPushRequest req (asyncQ hs) in (r, set_asyncQ a' hs).

(** [q.PushRequest(ctx, req)] for the queue [q] held under [name]. *)
Definition pushTopic (name : string) (qu : Q) (req : Request) (hs : Handlers)
    : (option R * option error) * Handlers :=
  let '(r, q') := qPushRequest req qu in (r, set_h (<[name := q']> (h hs)) hs).

Definition pushBlockingRequest (req : Request) (hs : Handlers)
    : (option R * option error) * Handlers :=
  let name := Topic req in
  if decide (name = "") then pushAsync req hs
  else
    match h hs !! name with
    | Some qu => pushTopic name qu req hs
    | None =>
        if decide (Name req = events.CmdBatch) then
          let qu := newEventQ in
          match topics_add name (topics hs) with
          | (inr e, ts) => ((None, Some e), set_topics ts hs)
          | (inl topic, ts) =>
              let hs := set_topics ts hs in
              let qu := setTopic topic qu in
              match GoStart qu with
              | (Some e, _) => ((None, Some e), hs)
              | (None, qu) => pushTopic name qu req (set_h (<[name := qu]> (h hs)) hs)
              end
          end
        else pushAsync req hs
    end.

Definition PushRequest (req : Request) (hs : Handlers)
    : (option R * option error) * Handlers :=
  if blockingReqs (Name req) then pushBlockingRequest req hs
  else pushAsync req hs.

End Handlers.

Arguments Handlers : clear implicits.

End mux.

(** ** package client *)

Module client.

(** [protocol.Read] *)
Record Read := { Offset : Z; Messages : Z }.

(** [protocol.ClientResponse] as its accessors [Offset()], [Batches()] and
    [Error()] show it. *)
Record ClientResponse := {
  cr_Offset : Z;
  cr_Batches : Z;
  cr_Error : option error;
}.

Definition cr_Reset (cr : ClientResponse) : ClientResponse :=
  {| cr_Offset := 0; cr_Batches := 0; cr_Error := None |}.

(** The connection with its buffered writer [bw] and reader [br]:
    [req.WriteTo(c.bw)], [c.bw.Buffered()], [c.bw.Flush()] and
    [c.cr.ReadFrom(c.br)], which yields the response it has parsed. *)
Class Conn (C : Type) := {
  WriteTo : Read -> C -> (Z * option error) * C;
  Buffered : C -> Z;
  Flush : C -> option error * C;
  ReadFrom : C -> (Z * ClientResponse * option error) * C;
}.

(** [protocol.BatchScanner]; [over] is the reader it was last reset to. *)
Record BatchScanner (C : Type) := { over : option C }.
Arguments over {C}.

Section Client.

Context {C : Type} `{!Conn C}.

Record Client := {
  conn : C;
  cr : ClientResponse;
  readreq : Read;
  bs : BatchScanner C;
}.

Definition set_conn (x : C) (c : Client) : Client :=
  {| conn := x; cr := cr c; readreq := readreq c; bs := bs c |}.

Definition set_cr (x : ClientResponse) (c : Client) : Client :=
  {| conn := conn c; cr := x; readreq := readreq c; bs := bs c |}.

Definition set_readreq (x : Read) (c : Client) : Client :=
  {| conn := conn c; cr := cr c; readreq := x; bs := bs c |}.

Definition set_bs (x : BatchScanner C) (c : Client) : Client :=
  {| conn := conn c; cr := cr c; readreq := readreq c; bs := x |}.

Definition flush (c : Client) : option error * Client :=
  if 0 <? Buffered (conn c) then
    let '(e, x) := Flush (conn c) in (e, set_conn x c)
  else (None, c).

Definition send (wt : Read) (c : Client) : (Z * option error) * Client :=
  let '((n, e), x) := WriteTo wt (conn c) in
  let c := set_conn x c in
  match e with
  | Some _ => ((0, e), c)
  | None =>
      let '(e, c) := flush c in
      ((n, e), c)
  end.

Definition readBatchResponse (c : Client) : (Z * Z * option error) * Client :=
  let c := set_cr (cr_Reset (cr c)) c in
  let '((n, r, e), x) := ReadFrom (conn c) in
  let c := set_cr r (set_conn x c) in
  match e with
  | Some _ => ((0, 0, e), c)
  | None => ((cr_Offset (cr c), cr_Batches (cr c), cr_Error (cr c)), c)
  end.

(** [ReadOffset] returns the batch count, the scanner and the error. *)
Definition ReadOffset (offset limit : Z) (c : Client)
    : (Z * option (BatchScanner C) * option error) * Client :=
  let req := {| Offset := offset; Messages := limit |} in
  let c := set_readreq req c in
  let '((_, e), c) := send req c in
  match e with
  | Some _ => ((0, None, e), c)
  | None =>
      let '((respOff, nbatches, e), c) := readBatchResponse c in
      match e with
      | Some _ => ((0, None, e), c)
      | None =>
          if decide (respOff ≠ offset) then ((0, None, Some ErrInternal), c)
          else
            let c := set_bs {| over := Some (conn c) |} c in
            ((nbatches, Some (bs c), None), c)
      end
  end.

End Client.

Arguments Client : clear implicits.

End client.

(** ** Stand-ins for the collaborators outside these sources

    The handlers above are stated over interfaces; the instances below give
    them something to run on. *)

Module model.

(** Modelled from the spec: the protocol writer's [WriteLogLine] is not part
    of these sources.  The line is the one [Scanner.ReadMessage] parses:
    [<id> <length> <crc32> <body>] in decimal, closed by CR LF. *)
Definition WriteLogLine (m : protocol.Message) : list byte :=
  protocol.logLine (itoa (protocol.ID m)) (itoa (len (protocol.Body m)))
    (itoa (crc32.Checksum (protocol.Body m) protocol.crcTable)) (protocol.Body m)
  ++ [CR; LF].

(** Modelled from the spec: [protocol.ReadLine] is not part of these
    sources.  The protocol is line-oriented and CR LF terminated: a line is
    the bytes before the first CR LF, and a stream without one ends in
    [io.EOF]. *)
Fixpoint ReadLine (s : list byte) : (list byte * option error) * list byte :=
  match s with
  | [] => (([], Some io_EOF), [])
  | b :: s' =>
      match s' with
      | b' :: s'' =>
          if decide (b = CR /\ b' = LF) then (([], None), s'')
          else let '((l, e), r) := ReadLine s' in ((b :: l, e), r)
      | [] => (([], Some io_EOF), [])
      end
  end.

(** Modelled from the spec: [protocol.ParseNumber] is not part of these
    sources; integers are unsigned decimal ASCII. *)
Definition ParseNumber (s : list byte) : Z + error := strconv.ParseUint s 64.

(** [fmt.Sscanf(s, "%d", &n)] for an [int]: leading space is skipped, up
    to a newline, which is an error; then an optional sign and the longest
    run of decimal digits are scanned, which must hold a digit and fit 64
    bits; what follows the digits is left unread. *)
Fixpoint skipSpace (s : list byte) : option (list byte) :=
  match s with
  | b :: s1 =>
      if decide (b = LF) then None
      else if bool_decide (b ∈ [x09; x0b; x0c; CR; SP]) then skipSpace s1
      else
        match s1 with
        | b1 :: s2 =>
            if bool_decide ((b, b1) ∈ [(xc2, x85); (xc2, xa0)]) then skipSpace s2
            else
              match s2 with
              | b2 :: s3 =>
                  if bool_decide ((b, b1, b2) ∈
                       [(xe1, x9a, x80); (xe2, x80, x80); (xe2, x80, x81); (xe2, x80, x82);
                        (xe2, x80, x83); (xe2, x80, x84); (xe2, x80, x85); (xe2, x80, x86);
                        (xe2, x80, x87); (xe2, x80, x88); (xe2, x80, x89); (xe2, x80, x8a);
                        (xe2, x80, xa8); (xe2, x80, xa9); (xe2, x80, xaf); (xe2, x81, x9f);
                        (xe3, x80, x80)])
                  then skipSpace s3
                  else Some s
              | [] => Some s
              end
        | [] => Some s
        end
  | [] => Some s
  end.

Fixpoint digitRun (s : list byte) : list byte :=
  match s with
  | b :: s' =>
      match strconv.digit b with
      | Some _ => b :: digitRun s'
      | None => []
      end
  | [] => []
  end.

Definition Sscan (s : list byte) : Z + error :=
  match skipSpace s with
  | None => inr (errorString "unexpected newline")
  | Some [] => inr (errorString "unexpected EOF")
  | Some ((c :: s') as s1) =>
      let '(sign, ds) :=
        if bool_decide (c ∈ ["+"%byte; "-"%byte]) then ([c], digitRun s')
        else ([], digitRun s1) in
      match ds with
      | [] => inr (errorString "expected integer")
      | _ => strconv.ParseInt (sign ++ ds) 64
      end
  end.

(** Modelled from the spec: no [logger.Logger] implementation is part of
    these sources.  An in-memory store: the lines written, the id last set,
    and the bytes of room left; a write that does not fit fails, and a range
    starts at an id the log holds or fails with [ErrNotFound]. *)
Record MemLog := {
  lines : list (list byte);
  lastID : Z;
  room : Z;
}.

(** Modelled from the spec: [MemLog] as a [logger.Logger]; it is no
    [logger.LogManager]. *)
#[global] Instance MemLog_Logger : events.Logger MemLog := {|
  events.SetID id l := {| lines := lines l; lastID := id; room := room l |};
  events.Write b l :=
    if len b <=? room l then
      ((len b, None), {| lines := lines l ++ [b]; lastID := lastID l; room := room l - len b |})
    else ((0, Some (errorString "log is full")), l);
  events.Head l := ((lastID l, None), l);
  events.Range start end_ l :=
    if (1 <=? start) && (start <=? lastID l) then
      (inl [({| events.lfName := "log.0"; events.lfSize := len (concat (lines l));
                events.lfLimit := 0 |}, None)], l)
    else (inr ErrNotFound, l);
  events.asLogManager := None;
|}.

(** Modelled from the spec: a log that has been closed, as a
    [logger.Logger]: every call on it fails. *)
Inductive ClosedLog := closedLog.

#[global] Instance ClosedLog_Logger : events.Logger ClosedLog := {|
  events.SetID id l := l;
  events.Write b l := ((0, Some (errorString "log is closed")), l);
  events.Head l := ((0, Some (errorString "log is closed")), l);
  events.Range start end_ l := (inr (errorString "log is closed"), l);
  events.asLogManager := None;
|}.

(** Modelled from the spec: [internal.Stats] is not part of these sources;
    the statistics are named integer counters. *)
#[global] Instance Counters : events.StatsOps (gmap string Z) := {|
  events.Incr k m := <[k := default 0 (m !! k) + 1]> m;
  events.Bytes m :=
    concat (map (fun kv => bytes (fst kv) ++ bytes ": " ++ itoa (snd kv) ++ [CR; LF])
                (map_to_list m));
|}.

(** [range] visiting a map in the order its entries are stored. *)
Definition mapOrder (l : list (string * events.Subscription)) := l.

(** Modelled from the spec: the [eventQ] and [topics] types of the
    multiplexer's package are not part of these sources.  A queue records
    its topic, whether it was started and the requests pushed to it; a
    topic name may hold at most 255 bytes. *)
Record Queue := {
  topic : option string;
  running : bool;
  inbox : list mux.Request;
}.

(** Modelled from the spec: what [Handlers] calls on [Queue] and on the
    list of topics. *)
#[global] Instance Queue_ops : mux.QueueOps Queue string (list string) mux.Request := {|
  mux.newEventQ := {| topic := None; running := false; inbox := [] |};
  mux.setTopic t qu := {| topic := Some t; running := running qu; inbox := inbox qu |};
  mux.GoStart qu := (None, {| topic := topic qu; running := true; inbox := inbox qu |});
  mux.qPushRequest req qu :=
    ((Some req, None), {| topic := topic qu; running := running qu; inbox := inbox qu ++ [req] |});
  mux.topics_add name ts :=
    if (255 <? Z.of_nat (String.length name)) then (inr errInvalidFormat, ts)
    else (inl name, ts ++ [name]);
|}.

(** Modelled from the spec: the connection and the response parser are not
    part of these sources.  A connection that records what was written to
    it and replays a script of replies. *)
Record Wire := {
  written : list client.Read;
  replies : list (client.ClientResponse + error);
}.

(** Modelled from the spec: [Wire] as the client's connection.  Nothing
    stays buffered after a write, and each read takes the next reply. *)
#[global] Instance Wire_Conn : client.Conn Wire := {|
  client.WriteTo req c := ((16, None), {| written := written c ++ [req]; replies := replies c |});
  client.Buffered c := 0;
  client.Flush c := (None, c);
  client.ReadFrom c :=
    match replies c with
    | [] => ((0, {| client.cr_Offset := 0; client.cr_Batches := 0; client.cr_Error := None |},
              Some io_EOF), c)
    | inl r :: rest => ((16, r, None), {| written := written c; replies := rest |})
    | inr e :: rest =>
        ((0, {| client.cr_Offset := 0; client.cr_Batches := 0; client.cr_Error := None |},
          Some e), {| written := written c; replies := rest |})
    end;
|}.

(** A buffered reader over the bytes still to be read: [Peek] and
    [ReadByte] of [bufio.Reader]. *)
Definition Peek (s : list byte) : byte + error :=
  match s with
  | [] => inr io_EOF
  | b :: _ => inl b
  end.

Definition ReadByte (s : list byte) : list byte := tail s.

(** The multiplexer with one started queue, for the topic orders. *)
Definition oneTopic : mux.Handlers Queue (list string) :=
  {| mux.h := {["orders" := {| topic := Some "orders"; running := true; inbox := [] |}]};
     mux.asyncQ := {| topic := None; running := true; inbox := [] |};
     mux.topics := ["orders"] |}.

(** A client whose server answers the next request with [OK 7 1]. *)
Definition dialed : client.Client Wire :=
  {| client.conn :=
       {| written := [];
          replies := [inl {| client.cr_Offset := 7; client.cr_Batches := 1;
                             client.cr_Error := None |}] |};
     client.cr := {| client.cr_Offset := 0; client.cr_Batches := 0; client.cr_Error := None |};
     client.readreq := {| client.Offset := 0; client.Messages := 0 |};
     client.bs := {| client.over := None |} |}.

(** A queue at the start of an empty log, with nobody subscribed. *)
Definition freshQ (room : Z) : events.EventQ (L := MemLog) (ST := gmap string Z) :=
  {| events.currID := 1; events.subscriptions := ∅;
     events.log := {| lines := []; lastID := 0; room := room |};
     events.Stats := ∅ |}.

(** That queue with no reader channel yet and one done channel. *)
Definition freshWorld (room : Z) : events.World :=
  {| events.q := freshQ room; events.readers := []; events.dones := [makeChan 1];
     events.trace := [] |}.

(** A queue over a closed log. *)
Definition closedWorld : events.World (L := ClosedLog) (ST := gmap string Z) :=
  {| events.q := {| events.currID := 1; events.subscriptions := ∅;
                    events.log := closedLog; events.Stats := ∅ |};
     events.readers := []; events.dones := [makeChan 1]; events.trace := [] |}.

(** The command [name] with its arguments, from connection [conn]; the
    done channel of every command is channel 0. *)
Definition CMD (name : events.CmdType) (conn : string) (args : list string) : events.Command :=
  {| events.Name := name; events.Args := map bytes args;
     events.ConnID := conn; events.Done := 0 |}.

(** The handlers of the queue over [MemLog]. *)
Definition handleMsg := events.handleMsg (L := MemLog) (ST := gmap string Z) WriteLogLine mapOrder.
Definition publishMessages :=
  events.publishMessages (L := MemLog) (ST := gmap string Z) mapOrder.
Definition dispatch :=
  events.dispatch (L := MemLog) (ST := gmap string Z) WriteLogLine ParseNumber Sscan mapOrder.
Definition loop :=
  events.loop (L := MemLog) (ST := gmap string Z) WriteLogLine ParseNumber Sscan mapOrder.

(** The queue after connection c2 has written one message and connection
    c1 has started tailing the log from it. *)
Definition tailing : events.World (L := MemLog) (ST := gmap string Z) :=
  final (loop [events.OnIn (CMD events.CmdMessage "c2" ["hello"]);
               events.OnIn (CMD events.CmdRead "c1" ["1"; "0"])]
           (freshWorld 1000000)).

(** A new scanner over the bytes [s]. *)
Definition scanning (s : list byte) : protocol.Scanner (list byte) :=
  {| protocol.br := s; protocol.LastChunkPos := 0; protocol.ChunkPos := 0;
     protocol.chunkEnd := 0; protocol.msg := None; protocol.err := None |}.

(** What a queue receives when connection c1 tails the log from its first
    message and never drains its reader channel, while connection c2 keeps
    writing: one message, the tailing READ, and 998 more messages. *)
Definition backlog : list events.Event :=
  events.OnIn (CMD events.CmdMessage "c2" ["hello"])
  :: events.OnIn (CMD events.CmdRead "c1" ["1"; "0"])
  :: replicate 998 (events.OnIn (CMD events.CmdMessage "c2" ["hello"])).

(** The queue one message before [backlog] has been handled: the reader
    channel of connection c1 has room for one more reader. *)
Definition filling : events.World (L := MemLog) (ST := gmap string Z) :=
  final (loop (removelast backlog) (freshWorld 1000000)).

(** The queue after [backlog]. *)
Definition stalled : events.World (L := MemLog) (ST := gmap string Z) :=
  final (loop backlog (freshWorld 1000000)).

End model.


(** * Properties *)

(** ** The checksum tells bodies apart that differ in one byte *)

Section Checksum.

Import crc32.

Lemma testbit_above n a k : 0 <= n -> 0 <= a < 2 ^ n -> n <= k -> Z.testbit a k = false.
Proof.
  intros Hn Ha Hk. rewrite <- (Z.mod_small a (2 ^ n)) by lia.
  apply Z.mod_pow2_bits_high. lia.
Qed.

Lemma lxor_below n a b :
  0 <= n -> 0 <= a < 2 ^ n -> 0 <= b < 2 ^ n -> 0 <= Z.lxor a b < 2 ^ n.
Proof.
  intros Hn Ha Hb. split; [apply Z.lxor_nonneg; lia|].
  assert (E : Z.lxor a b = Z.lxor a b mod 2 ^ n).
  { apply Z.bits_inj'. intros k Hk. destruct (Z.ltb_spec k n).
    - rewrite Z.mod_pow2_bits_low by lia. reflexivity.
    - rewrite Z.mod_pow2_bits_high by lia.
      rewrite Z.lxor_spec, (testbit_above n a k), (testbit_above n b k) by lia.
      reflexivity. }
  rewrite E. apply Z.mod_pos_bound. lia.
Qed.

Lemma lxor_cancel_l a b c : Z.lxor a b = Z.lxor a c -> b = c.
Proof.
  intros H. apply Z.lxor_eq.
  rewrite <- (Z.lxor_0_l b), <- (Z.lxor_nilpotent a), (Z.lxor_assoc a a b), H.
  rewrite <- Z.lxor_assoc, Z.lxor_nilpotent, Z.lxor_0_l. apply Z.lxor_nilpotent.
Qed.

Lemma lxor_cancel_r a b c : Z.lxor b a = Z.lxor c a -> b = c.
Proof. rewrite !(Z.lxor_comm _ a). apply lxor_cancel_l. Qed.

Lemma byteZ_range v : 0 <= byteZ v < 256.
Proof. unfold byteZ. pose proof (Byte.to_N_bounded v). lia. Qed.

Lemma byteZ_inj v w : byteZ v = byteZ w -> v = w.
Proof.
  unfold byteZ. intros H. apply N2Z.inj in H.
  pose proof (Byte.of_to_N v) as Hv. rewrite H, Byte.of_to_N in Hv. congruence.
Qed.

Lemma crcTable_length : length protocol.crcTable = 256%nat.
Proof. reflexivity. Qed.

Lemma crcTable_word32 : Forall word32 protocol.crcTable.
Proof. apply (bool_decide_unpack _). vm_compute. reflexivity. Qed.

(** The 256 entries of the table have 256 different top bytes. *)
Lemma crcTable_topBytes_NoDup : NoDup (map topByte protocol.crcTable).
Proof. apply (bool_decide_unpack _). vm_compute. reflexivity. Qed.

Lemma tabAt_word32 i : 0 <= i < 256 -> word32 (tabAt protocol.crcTable i).
Proof.
  intros Hi. unfold tabAt.
  pose proof crcTable_word32 as H. rewrite Forall_forall in H.
  apply H, list_elem_of_In, nth_In. rewrite crcTable_length. lia.
Qed.

Lemma tabAt_topByte_inj i j :
  0 <= i < 256 -> 0 <= j < 256 ->
  topByte (tabAt protocol.crcTable i) = topByte (tabAt protocol.crcTable j) -> i = j.
Proof.
  intros Hi Hj H. unfold tabAt in H.
  pose proof crcTable_topBytes_NoDup as ND.
  apply NoDup_ListNoDup in ND. rewrite (List.NoDup_nth _ 0) in ND.
  assert (Z.to_nat i = Z.to_nat j); [|lia].
  apply ND; rewrite ?length_map, ?crcTable_length; try lia.
  change 0 with (topByte 0) at 1 2. rewrite !map_nth. exact H.
Qed.

Lemma index_range c v : 0 <= Z.lxor (Z.land c 255) (byteZ v) < 256.
Proof.
  apply (lxor_below 8); [lia| |apply byteZ_range].
  change 255 with (Z.ones 8). rewrite Z.land_ones by lia.
  apply Z.mod_pos_bound. lia.
Qed.

Lemma updByte_word32 c v : word32 c -> word32 (updByte protocol.crcTable c v).
Proof.
  intros Hc. unfold updByte. apply (lxor_below 32); [lia| |].
  - apply tabAt_word32, index_range.
  - unfold word32 in Hc. rewrite Z.shiftr_div_pow2 by lia.
    split; [apply Z.div_pos; lia|]. apply Z.div_lt_upper_bound; lia.
Qed.

Lemma updByte_topByte c v :
  word32 c ->
  topByte (updByte protocol.crcTable c v) = topByte (tabAt protocol.crcTable (Z.lxor (Z.land c 255) (byteZ v))).
Proof.
  intros Hc. unfold updByte, topByte. rewrite Z.shiftr_lxor, Z.shiftr_shiftr by lia.
  replace (Z.shiftr c (8 + 24)) with 0; [apply Z.lxor_0_r|].
  unfold word32 in Hc. rewrite Z.shiftr_div_pow2 by lia.
  symmetry. apply Z.div_small. lia.
Qed.

(** A step of [simpleUpdate] is one-to-one in the running checksum... *)
Lemma updByte_inj_crc c1 c2 v :
  word32 c1 -> word32 c2 -> updByte protocol.crcTable c1 v = updByte protocol.crcTable c2 v -> c1 = c2.
Proof.
  intros H1 H2 E.
  assert (Ei : Z.lxor (Z.land c1 255) (byteZ v) = Z.lxor (Z.land c2 255) (byteZ v)).
  { apply tabAt_topByte_inj; try apply index_range.
    rewrite <- !updByte_topByte by assumption. now rewrite E. }
  unfold updByte in E. rewrite Ei in E. apply lxor_cancel_l in E.
  apply lxor_cancel_r in Ei.
  change 255 with (Z.ones 8) in Ei. rewrite !Z.land_ones in Ei by lia.
  rewrite !Z.shiftr_div_pow2 in E by lia.
  rewrite (Z.div_mod c1 (2 ^ 8)), (Z.div_mod c2 (2 ^ 8)) by lia. congruence.
Qed.

(** ... and in the byte it consumes. *)
Lemma updByte_inj_byte c v w : updByte protocol.crcTable c v = updByte protocol.crcTable c w -> v = w.
Proof.
  intros E. unfold updByte in E. apply lxor_cancel_r in E.
  apply byteZ_inj, (lxor_cancel_l (Z.land c 255)).
  apply tabAt_topByte_inj; try apply index_range. now rewrite E.
Qed.

Lemma fold_updByte_word32 p c : word32 c -> word32 (fold_left (updByte protocol.crcTable) p c).
Proof.
  revert c. induction p as [|v p IH]; simpl; intros c Hc; [assumption|].
  apply IH, updByte_word32, Hc.
Qed.

Lemma fold_updByte_inj p c1 c2 :
  word32 c1 -> word32 c2 ->
  fold_left (updByte protocol.crcTable) p c1 = fold_left (updByte protocol.crcTable) p c2 -> c1 = c2.
Proof.
  revert c1 c2. induction p as [|v p IH]; simpl; intros c1 c2 H1 H2 E; [assumption|].
  apply IH in E; try (apply updByte_word32; assumption).
  eapply updByte_inj_crc; eassumption.
Qed.

Lemma Checksum_one_byte pre v w post :
  v <> w ->
  Checksum (pre ++ v :: post) protocol.crcTable
  <> Checksum (pre ++ w :: post) protocol.crcTable.
Proof.
  intros Hvw E. unfold Checksum, simpleUpdate in E.
  apply lxor_cancel_r in E. rewrite !fold_left_app in E. simpl in E.
  assert (W : word32 (fold_left (updByte protocol.crcTable) pre (not32 0))).
  { apply fold_updByte_word32. unfold word32. vm_compute.
    split; [discriminate | reflexivity]. }
  apply fold_updByte_inj in E; try (apply updByte_word32; assumption).
  apply updByte_inj_byte in E. contradiction.
Qed.

End Checksum.

(** ** [Scanner.ReadMessage] *)

Section ReadMessage.

Import protocol.

Lemma flipBit_neq k b : (k < 8)%nat -> flipBit k b <> b.
Proof.
  intros Hk.
  do 8 (destruct k as [|k]; [destruct b; vm_compute; discriminate|]). lia.
Qed.

Lemma alter_split {A} (f : A -> A) i (l : list A) :
  (i < length l)%nat ->
  exists pre v post, l = pre ++ v :: post /\ alter f i l = pre ++ f v :: post.
Proof.
  revert i. induction l as [|x l IH]; intros i Hi; simpl in Hi; [lia|].
  destruct i as [|i].
  - exists [], x, l. split; reflexivity.
  - destruct (IH i) as (pre & v & post & E1 & E2); [lia|].
    exists (x :: pre), v, post. split; [now rewrite E1|].
    change (x :: alter f i l = x :: pre ++ f v :: post). now rewrite E2.
Qed.

Lemma Checksum_flipBodyBit i k body :
  (i < length body)%nat -> (k < 8)%nat ->
  crc32.Checksum (flipBodyBit i k body) crcTable <> crc32.Checksum body crcTable.
Proof.
  intros Hi Hk. unfold flipBodyBit.
  destruct (alter_split (flipBit k) i body Hi) as (pre & v & post & E1 & E2).
  rewrite E2, E1. apply Checksum_one_byte, flipBit_neq, Hk.
Qed.

Lemma cut_app p r : SP ∉ p -> cut SP (p ++ SP :: r) = Some (p, r).
Proof.
  induction p as [|b p IH]; intros Hp.
  - reflexivity.
  - rewrite not_elem_of_cons in Hp. destruct Hp as [Hb Hp].
    change (cut SP ((b :: p) ++ SP :: r))
      with (if decide (b = SP) then Some ([], p ++ SP :: r)
            else match cut SP (p ++ SP :: r) with
                 | Some (a, r') => Some (b :: a, r')
                 | None => None
                 end).
    rewrite decide_False by congruence. now rewrite IH.
Qed.

Lemma SplitN_logLine p0 p1 p2 body :
  SP ∉ p0 -> SP ∉ p1 -> SP ∉ p2 ->
  SplitN (logLine p0 p1 p2 body) SP 4 = [p0; p1; p2; body].
Proof.
  intros H0 H1 H2. unfold logLine. simpl.
  rewrite cut_app by assumption. rewrite cut_app by assumption.
  rewrite cut_app by assumption. reflexivity.
Qed.

Lemma logLine_not_EOF p0 p1 p2 body : logLine p0 p1 p2 body <> bytes "+EOF".
Proof.
  intros E. assert (H : SP ∈ bytes "+EOF").
  { rewrite <- E. unfold logLine. rewrite elem_of_app. right. left. }
  vm_compute in H. repeat (apply elem_of_cons in H as [H|H]; [discriminate H|]).
  inversion H.
Qed.

Lemma parseLine_logLine read p0 p1 p2 body :
  SP ∉ p0 -> SP ∉ p1 -> SP ∉ p2 ->
  parseLine read (logLine p0 p1 p2 body) =
    match strconv.ParseUint p0 64 with
    | inr e => (read, None, Some (Wrap e "scanning id failed"))
    | inl id =>
        match strconv.ParseInt p1 64 with
        | inr e => (read, None, Some (Wrap e "scanning body length failed"))
        | inl bodylen =>
            match strconv.ParseUint p2 32 with
            | inr e => (read, None, Some (Wrap e "failed to scan crc"))
            | inl checksum =>
                if negb (bodylen =? len body) then (read, None, Some errInvalidBodyLength)
                else if negb (crc32.Checksum body crcTable =? checksum) then
                  (read, None, Some errCrcChecksumMismatch)
                else (read, Some (NewMessage id (TrimRight body [CR; LF])), None)
            end
        end
    end.
Proof.
  intros H0 H1 H2. unfold parseLine.
  rewrite decide_False by apply logLine_not_EOF.
  rewrite SplitN_logLine by assumption. reflexivity.
Qed.

Context {BR : Type} (ReadLine : BR -> (list byte * option error) * BR).

(** C6.  Take a message line [<id> <length> <crc> <body>] that
    [ReadMessage] accepts.  Then the declared checksum is the IEEE CRC-32
    of the body, written as an unsigned decimal integer, and when any
    single bit of the body is inverted while the three leading fields are
    kept, [ReadMessage] on the resulting line fails with
    [errCrcChecksumMismatch]. *)
Theorem ReadMessage_body_bit_flip (ps ps' : Scanner BR) p0 p1 p2 body rest rest' i k :
  SP ∉ p0 -> SP ∉ p1 -> SP ∉ p2 ->
  ReadLine (br ps) = ((logLine p0 p1 p2 body, None), rest) ->
  snd (fst (ReadMessage ReadLine ps)) = None ->
  (i < length body)%nat -> (k < 8)%nat ->
  ReadLine (br ps') = ((logLine p0 p1 p2 (flipBodyBit i k body), None), rest') ->
  strconv.ParseUint p2 32 = inl (crc32.Checksum body crcTable)
  /\ fst (ReadMessage ReadLine ps')
     = (len (logLine p0 p1 p2 (flipBodyBit i k body)) + 2, None,
        Some errCrcChecksumMismatch).
Proof.
  intros H0 H1 H2 HL Hok Hi Hk HL'.
  unfold ReadMessage in *. rewrite HL in Hok. rewrite HL'. simpl in *.
  rewrite parseLine_logLine in * by assumption.
  destruct (strconv.ParseUint p0 64) as [id|]; [|discriminate Hok].
  destruct (strconv.ParseInt p1 64) as [bodylen|]; [|discriminate Hok].
  destruct (strconv.ParseUint p2 32) as [checksum|]; [|discriminate Hok].
  destruct (bodylen =? len body) eqn:El; [|discriminate Hok].
  destruct (crc32.Checksum body crcTable =? checksum) eqn:Ec; [|discriminate Hok].
  apply Z.eqb_eq in Ec. subst checksum. split; [reflexivity|].
  assert (El' : (bodylen =? len (flipBodyBit i k body)) = true).
  { unfold flipBodyBit, len. rewrite length_alter. exact El. }
  rewrite El'. simpl.
  pose proof (Checksum_flipBodyBit i k body Hi Hk) as Hne.
  apply Z.eqb_neq in Hne. rewrite Hne. reflexivity.
Qed.

End ReadMessage.

Lemma ReadMessage_body_bit_flip_witness :
  let ps := {| protocol.br := bytes "1 5 907060870 hello" ++ [CR; LF];
               protocol.LastChunkPos := 0; protocol.ChunkPos := 0; protocol.chunkEnd := 0;
               protocol.msg := None; protocol.err := None |} in
  let ps' := {| protocol.br := bytes "1 5 907060870 helln" ++ [CR; LF];
                protocol.LastChunkPos := 0; protocol.ChunkPos := 0; protocol.chunkEnd := 0;
                protocol.msg := None; protocol.err := None |} in
  fst (protocol.ReadMessage model.ReadLine ps)
    = (21, Some (protocol.NewMessage 1 (bytes "hello")), None)
  /\ protocol.flipBodyBit 4 0 (bytes "hello") = bytes "helln"
  /\ fst (protocol.ReadMessage model.ReadLine ps') = (21, None, Some errCrcChecksumMismatch).
Proof.
  intros ps ps'. split; [reflexivity|]. split; [reflexivity|].
  refine (proj2 (ReadMessage_body_bit_flip model.ReadLine ps ps'
            (bytes "1") (bytes "5") (bytes "907060870") (bytes "hello") [] [] 4 0
            _ _ _ _ _ _ _ _)).
  - apply (bool_decide_unpack _). reflexivity.
  - apply (bool_decide_unpack _). reflexivity.
  - apply (bool_decide_unpack _). reflexivity.
  - reflexivity.
  - reflexivity.
  - simpl. lia.
  - lia.
  - reflexivity.
Defined.

(** ** The event queue *)

Section EventQ.

Import events.

Context {L ST : Type} `{!Logger L} `{!StatsOps ST}.
Variable WriteLogLine : protocol.Message -> list byte.
Variable ParseNumber : list byte -> Z + error.
Variable Sscan : list byte -> Z + error.
Variable mapOrder : list (string * Subscription) -> list (string * Subscription).

Local Abbreviation World := (World (L := L) (ST := ST)).
Local Abbreviation dispatch := (dispatch WriteLogLine ParseNumber Sscan mapOrder).
Local Abbreviation loop := (loop WriteLogLine ParseNumber Sscan mapOrder).

Lemma bind_cases {W A B} (m : M W A) (f : A -> M W B) w :
  (m ≫= f) w =
    match m w with
    | Returned a w' => f a w'
    | Blocked w' => Blocked w'
    | Panicked e w' => Panicked e w'
    end.
Proof. reflexivity. Qed.

(** The world after one more call has been recorded. *)
Lemma act_eq (a : Action) (w : World) :
  act a w = Returned tt {| q := q w; readers := readers w; dones := dones w;
                           trace := trace w ++ [a] |}.
Proof. reflexivity. Qed.

Lemma len_nonzero {A} (l : list A) : l <> [] -> len l <> 0.
Proof. destruct l; [congruence|]. unfold len. simpl. lia. Qed.

(** A command with arguments where none are taken is answered with
    CLIENT_ERR and the handler returns at once. *)
Lemma dispatch_arity (cmd : Command) (w : World) :
  Name cmd ∈ [CmdHead; CmdStats; CmdPing; CmdClose] ->
  Args cmd <> [] ->
  dispatch cmd w =
    Returned tt {| q := q w; readers := readers w; dones := dones w;
                   trace := trace w ++ [Respond cmd (NewClientErrResponse ErrRespInvalid)] |}.
Proof.
  intros Hn Ha. apply len_nonzero in Ha. unfold events.dispatch.
  repeat (apply elem_of_cons in Hn as [-> | Hn]);
    [ unfold handleHead | unfold handleStats | unfold handlePing
    | unfold handleClose | inversion Hn ];
    rewrite decide_True by assumption; apply act_eq.
Qed.

(** The default branch of the switch. *)
Lemma dispatch_default (cmd : Command) (w : World) :
  Name cmd ∉ [CmdMessage; CmdReplicate; CmdRawMessage; CmdRead; CmdHead;
              CmdStats; CmdPing; CmdClose; CmdSleep; CmdShutdown] ->
  dispatch cmd w =
    Returned tt {| q := q w; readers := readers w; dones := dones w;
                   trace := trace w ++ [Respond cmd (NewResponse RespErr)] |}.
Proof.
  intros Hn. unfold events.dispatch.
  destruct (Name cmd) eqn:E;
    first [ exfalso; apply Hn; apply (bool_decide_unpack _); reflexivity
          | apply act_eq ].
Qed.

(** C10.  When the loop takes a HEAD, STATS, PING or CLOSE command that
    carries one or more arguments off its channel, the command is answered
    with CLIENT_ERR and the loop goes on with everything else as it was: the
    queue (its log, its subscriptions, its current id and its counters) and
    every channel. *)
Theorem loop_rejects_arguments (cmd : Command) evs (w : World) :
  Name cmd ∈ [CmdHead; CmdStats; CmdPing; CmdClose] ->
  Args cmd <> [] ->
  exists w',
    loop (OnIn cmd :: evs) w = loop evs w'
    /\ trace w' = trace w ++ [Respond cmd (NewClientErrResponse ErrRespInvalid)]
    /\ Status (NewClientErrResponse ErrRespInvalid) = RespErrClient
    /\ q w' = q w
    /\ log (q w') = log (q w)
    /\ subscriptions (q w') = subscriptions (q w)
    /\ readers w' = readers w
    /\ dones w' = dones w.
Proof.
  intros Hn Ha. eexists. split.
  - cbn [events.loop]. rewrite bind_cases, (dispatch_arity cmd w Hn Ha). reflexivity.
  - simpl. repeat split.
Qed.

(** C8, as the queue has it.  When the loop takes a command off its channel
    whose name is none of those its switch lists, the command is answered with
    ERR and the loop goes on with the queue and the channels as they were. *)
Theorem loop_unknown_command (cmd : Command) evs (w : World) :
  Name cmd ∉ [CmdMessage; CmdReplicate; CmdRawMessage; CmdRead; CmdHead;
              CmdStats; CmdPing; CmdClose; CmdSleep; CmdShutdown] ->
  exists w',
    loop (OnIn cmd :: evs) w = loop evs w'
    /\ trace w' = trace w ++ [Respond cmd (NewResponse RespErr)]
    /\ Status (NewResponse RespErr) = RespErr
    /\ q w' = q w /\ readers w' = readers w /\ dones w' = dones w.
Proof.
  intros Hn. eexists. split.
  - cbn [events.loop]. rewrite bind_cases, (dispatch_default cmd w Hn). reflexivity.
  - simpl. repeat split.
Qed.

(** *** Running handlers *)

Lemma post_bind {W A B} (P : W -> Prop) (m : M W A) (f : A -> M W B) w :
  post P (m w) -> (forall a w', P w' -> post P (f a w')) -> post P ((m ≫= f) w).
Proof. intros Hm Hf. rewrite bind_cases. destruct (m w); simpl in *; auto. Qed.

Lemma post_forM_ {W A} (P : W -> Prop) (f : A -> M W unit) l w :
  (forall x w', P w' -> post P (f x w')) -> P w -> post P (forM_ l f w).
Proof.
  intros Hf. revert w. induction l as [|x l IH]; intros w Hw; simpl; [exact Hw|].
  apply post_bind; [apply Hf, Hw | intros _ w' Hw'; apply IH, Hw'].
Qed.

Lemma alive_bind {W A B} (P : W -> Prop) (m : M W A) (f : A -> M W B) w :
  alive P (m w) -> (forall a w', P w' -> alive P (f a w')) -> alive P ((m ≫= f) w).
Proof. intros Hm Hf. rewrite bind_cases. destruct (m w); simpl in *; auto. Qed.

Lemma alive_forM_ {W A} (P : W -> Prop) (f : A -> M W unit) l w :
  (forall x w', P w' -> alive P (f x w')) -> P w -> alive P (forM_ l f w).
Proof.
  intros Hf. revert w. induction l as [|x l IH]; intros w Hw; simpl; [exact Hw|].
  apply alive_bind; [apply Hf, Hw | intros _ w' Hw'; apply IH, Hw'].
Qed.

(** A send on a reader channel either goes through, changing that channel
    only, or leaves the handler parked where it was. *)
Lemma sendReader_cases c r (w : World) :
  (exists ch ch',
      readers w !! c = Some ch /\ chanSend r ch = Some ch'
      /\ sendReader c r w =
           Returned tt {| q := q w; readers := <[c := ch']> (readers w);
                          dones := dones w; trace := trace w |})
  \/ ((readers w !! c = None \/ exists ch, readers w !! c = Some ch /\ chanSend r ch = None)
      /\ sendReader c r w = Blocked w).
Proof.
  unfold sendReader. destruct (readers w !! c) as [ch|] eqn:E.
  - destruct (chanSend r ch) as [ch'|] eqn:E'.
    + left. exists ch, ch'. auto.
    + right. split; [right; exists ch; auto | reflexivity].
  - right. split; [left|]; reflexivity.
Qed.

Lemma sameButReaders_refl (w : World) : sameButReaders w w.
Proof. repeat split. Qed.

Lemma sameButReaders_trans (w1 w2 w3 : World) :
  sameButReaders w1 w2 -> sameButReaders w2 w3 -> sameButReaders w1 w3.
Proof. unfold sameButReaders. intros (?&?&?) (?&?&?). repeat split; congruence. Qed.

Lemma sendReader_same c r (w0 w : World) :
  sameButReaders w0 w -> alive (sameButReaders w0) (sendReader c r w).
Proof.
  intros Hw. destruct (sendReader_cases c r w) as [(ch & ch' & _ & _ & ->) | [_ ->]];
    simpl; [|exact Hw].
  eapply sameButReaders_trans; [exact Hw|]. repeat split.
Qed.

Lemma chanSend_full {A} (x : A) (c : Chan A) : chanFull c -> chanSend x c = None.
Proof.
  intros [Hr Hc]. unfold chanSend.
  rewrite decide_False by lia. rewrite decide_False by lia. reflexivity.
Qed.

(** *** Publishing *)

(** Publishing sends on reader channels and does nothing else; it cannot
    panic. *)
Lemma publishMessages_same (cmd : Command) msgs (w : World) :
  alive (sameButReaders w) (publishMessages mapOrder cmd msgs w).
Proof.
  unfold publishMessages. rewrite bind_cases. unfold gets.
  apply alive_forM_; [|apply sameButReaders_refl].
  intros [k sub] w1 H1. apply alive_forM_; [|exact H1].
  intros m w2 H2. apply sendReader_same, H2.
Qed.

(** What stays true while the channel [rc] is full: the world differs from
    [w0] in its reader channels at most, and channel [rc] is as it was. *)
Lemma send_keeps_full (w0 : World) rc ch sub m (w : World) :
  chanFull ch ->
  sameButReaders w0 w /\ readers w !! rc = Some ch ->
  alive (fun w' => sameButReaders w0 w' /\ readers w' !! rc = Some ch) (send sub m w).
Proof.
  intros Hfull [Hs Hrc]. unfold send.
  destruct (sendReader_cases (readerC sub) (BytesReader m) w)
    as [(c & c' & Hc & Hsend & ->) | [_ ->]]; simpl; [|auto].
  split; [eapply sameButReaders_trans; [exact Hs|]; repeat split|].
  destruct (decide (readerC sub = rc)) as [E|E].
  - rewrite E in Hc. rewrite Hc in Hrc. injection Hrc as ->.
    rewrite chanSend_full in Hsend by exact Hfull. discriminate Hsend.
  - rewrite list_lookup_insert_ne by exact E. exact Hrc.
Qed.

Lemma send_full_parks (w0 : World) rc ch sub m (w : World) :
  chanFull ch -> readerC sub = rc ->
  sameButReaders w0 w /\ readers w !! rc = Some ch ->
  parked (fun w' => sameButReaders w0 w' /\ readers w' !! rc = Some ch) (send sub m w).
Proof.
  intros Hfull Hsub [Hs Hrc]. unfold send, sendReader. rewrite Hsub, Hrc.
  rewrite chanSend_full by exact Hfull. simpl. auto.
Qed.

Lemma parked_bind {W A B} (P : W -> Prop) (m : M W A) (f : A -> M W B) w :
  parked P (m w) -> parked P ((m ≫= f) w).
Proof. intros Hm. rewrite bind_cases. destruct (m w); simpl in *; auto; contradiction. Qed.

Lemma alive_then_parked {W A B} (P : W -> Prop) (m : M W A) (f : A -> M W B) w :
  alive P (m w) -> (forall a w', P w' -> parked P (f a w')) -> parked P ((m ≫= f) w).
Proof. intros Hm Hf. rewrite bind_cases. destruct (m w); simpl in *; auto. Qed.

Lemma publish_loop_parks (w0 : World) rc ch msgs (l : list (string * Subscription)) id sub
    (w : World) :
  chanFull ch -> msgs <> [] ->
  (id, sub) ∈ l -> readerC sub = rc ->
  sameButReaders w0 w /\ readers w !! rc = Some ch ->
  parked (fun w' => sameButReaders w0 w' /\ readers w' !! rc = Some ch)
    (forM_ l (fun '(_, sub) => forM_ msgs (fun m => send sub m)) w).
Proof.
  intros Hfull Hmsgs Hin Hsub. revert w.
  induction l as [|[k s] l IH]; intros w HI; [inversion Hin|].
  simpl. apply elem_of_cons in Hin as [Hin|Hin].
  - injection Hin as <- <-. apply parked_bind.
    destruct msgs as [|m msgs]; [congruence|]. simpl.
    apply parked_bind. apply (send_full_parks w0); auto.
  - eapply alive_then_parked.
    + apply alive_forM_; [|exact HI]. intros m w2 H2.
      apply (send_keeps_full w0); assumption.
    + intros _ w2 H2. apply IH; assumption.
Qed.

(** C5, as the queue has it.  Publishing sends to every subscriber with a
    plain channel send.  Whatever the order in which the subscriptions are
    visited, if one of them has a full reader channel and there is a message
    to publish, the handler is left parked on a send: it does not complete,
    every subscription is still registered, no done channel has been
    signalled, and the full channel is as it was. *)
Theorem publishMessages_full_channel (cmd : Command) msgs (w : World) id sub ch :
  (forall l, mapOrder l ≡ₚ l) ->
  subscriptions (q w) !! id = Some sub ->
  readers w !! readerC sub = Some ch ->
  chanFull ch ->
  msgs <> [] ->
  exists w',
    publishMessages mapOrder cmd msgs w = Blocked w'
    /\ subscriptions (q w') = subscriptions (q w)
    /\ dones w' = dones w
    /\ trace w' = trace w
    /\ readers w' !! readerC sub = Some ch.
Proof.
  intros Hperm Hsub Hch Hfull Hmsgs.
  assert (Hin : (id, sub) ∈ mapOrder (map_to_list (subscriptions (q w)))).
  { rewrite Hperm. apply elem_of_map_to_list, Hsub. }
  pose proof (publish_loop_parks w (readerC sub) ch msgs _ id sub w Hfull Hmsgs Hin eq_refl
                (conj (sameButReaders_refl w) Hch)) as Hpark.
  change (forM_ _ _ w) with (publishMessages mapOrder cmd msgs w) in Hpark.
  destruct (publishMessages mapOrder cmd msgs w) as [? w'|w'|? w']; simpl in Hpark;
    try contradiction.
  destruct Hpark as [(Hq & Hd & Ht) Hr].
  exists w'. rewrite Hq. auto.
Qed.

(** *** Writes *)

Lemma u64_add_l a b : u64 (u64 a + b) = u64 (a + b).
Proof. unfold u64. apply Zplus_mod_idemp_l. Qed.

Lemma u64_sub_l a b : u64 (u64 a - b) = u64 (a - b).
Proof. unfold u64. apply Zminus_mod_idemp_l. Qed.

(** The loop over the arguments touches the log and nothing else of the
    queue.  When it runs to its end it has answered nothing and the id has
    advanced by the number of arguments; when it leaves early it has given
    one answer, which is not OK. *)
Lemma writeArgs_spec (cmd : Command) args id msgs (w : World) :
  exists r w',
    writeArgs WriteLogLine cmd args id msgs w = Returned r w'
    /\ currID (q w') = currID (q w)
    /\ subscriptions (q w') = subscriptions (q w)
    /\ Stats (q w') = Stats (q w)
    /\ readers w' = readers w
    /\ dones w' = dones w
    /\ match r with
       | Some (id', msgs') =>
           trace w' = trace w
           /\ (args = [] /\ id' = id \/ args <> [] /\ id' = u64 (id + len args))
           /\ length msgs' = (length msgs + length args)%nat
       | None =>
           exists resp, trace w' = trace w ++ [Respond cmd resp] /\ Status resp <> RespOK
       end.
Proof.
  revert id msgs w. induction args as [|msg args IH]; intros id msgs w.
  - exists (Some (id, msgs)), w. simpl. repeat split; auto.
  - cbn [writeArgs]. destruct (decide (len msg = 0)) as [E|E].
    + eexists None, _. split; [reflexivity|]. simpl. repeat split.
      eexists. split; [reflexivity|]. discriminate.
    + rewrite bind_cases. unfold onLog at 1. rewrite bind_cases. unfold onLog at 1.
      cbn [set_q q log set_log].
      destruct (Write _ _) as [[n [e|]] l'] eqn:EW; cbn [snd].
      * eexists None, _. split; [reflexivity|]. simpl. repeat split.
        eexists. split; [reflexivity|]. discriminate.
      * match goal with
        | |- context [writeArgs _ _ _ ?i ?m ?w1] => destruct (IH i m w1)
            as (r & w' & Hrun & Hc & Hs & Hst & Hr & Hd & Hres)
        end.
        exists r, w'. split; [exact Hrun|].
        cbn [set_q q log set_log currID subscriptions Stats readers dones trace] in *.
        repeat (split; [assumption|]).
        destruct r as [[id' msgs']|]; [|exact Hres].
        destruct Hres as (Ht & Hid & Hlen). split; [exact Ht|]. split.
        -- right. split; [discriminate|].
           destruct Hid as [[-> ->] | [_ ->]].
           ++ reflexivity.
           ++ rewrite u64_add_l. f_equal. unfold len. simpl length. lia.
        -- rewrite Hlen, length_app. simpl. lia.
Qed.

(** What [handleMsg] does: either it answers once, not with OK, and leaves
    the current id, the subscriptions and every channel alone; or all the
    arguments were written, it answers OK with the id of the last one, and
    goes on to publish the lines it wrote. *)
Lemma handleMsg_spec (cmd : Command) (w : World) :
  (exists w' resp,
      handleMsg WriteLogLine mapOrder cmd w = Returned tt w'
      /\ trace w' = trace w ++ [Respond cmd resp]
      /\ Status resp <> RespOK
      /\ currID (q w') = currID (q w)
      /\ subscriptions (q w') = subscriptions (q w)
      /\ readers w' = readers w
      /\ dones w' = dones w)
  \/ (exists w1 msgs,
      let id := u64 (currID (q w) - 1 + len (Args cmd)) in
      handleMsg WriteLogLine mapOrder cmd w = publishMessages mapOrder cmd msgs w1
      /\ Args cmd <> []
      /\ length msgs = length (Args cmd)
      /\ trace w1 = trace w ++ [Respond cmd (withID id (NewResponse RespOK))]
      /\ currID (q w1) = u64 (id + 1)
      /\ subscriptions (q w1) = subscriptions (q w)
      /\ readers w1 = readers w
      /\ dones w1 = dones w).
Proof.
  set (run := handleMsg WriteLogLine mapOrder cmd w).
  assert (Hrun0 : run =
    if decide (len (Args cmd) = 0) then
      act (Respond cmd (NewClientErrResponse ErrRespNoArguments)) w
    else
      match writeArgs WriteLogLine cmd (Args cmd) (u64 (currID (q w) - 1)) [] w with
      | Returned (Some (id, msgs)) w' =>
          publishMessages mapOrder cmd msgs
            {| q := set_Stats (Incr "total_writes" (Stats (q w')))
                      (set_currID (u64 (id + 1)) (q w'));
               readers := readers w'; dones := dones w';
               trace := trace w' ++ [Respond cmd (withID id (NewResponse RespOK))] |}
      | Returned None w' => Returned tt w'
      | Blocked w' => Blocked w'
      | Panicked e w' => Panicked e w'
      end).
  { unfold run, handleMsg. rewrite bind_cases. unfold gets at 1. cbv beta iota.
    destruct (decide (len (Args cmd) = 0)); [reflexivity|].
    rewrite bind_cases. destruct (writeArgs _ _ _ _ _ _) as [[[id msgs]|] w'|w'|e w'];
      reflexivity. }
  clearbody run. subst run.
  destruct (decide (len (Args cmd) = 0)) as [E|E].
  - left. eexists _, _. split; [apply act_eq|]. simpl. repeat split. discriminate.
  - destruct (writeArgs_spec cmd (Args cmd) (u64 (currID (q w) - 1)) [] w)
      as (r & w' & Hrun & Hc & Hs & Hst & Hr & Hd & Hres).
    rewrite Hrun. destruct r as [[id' msgs']|].
    + right. destruct Hres as (Ht & Hid & Hlen).
      destruct Hid as [[Hnil _] | [Hne ->]]; [rewrite Hnil in E; contradiction|].
      eexists _, msgs'. cbv zeta. split; [reflexivity|].
      cbn [set_q q currID subscriptions readers dones trace set_currID set_Stats].
      rewrite u64_add_l, Ht. repeat split; assumption.
    + left. destruct Hres as (resp & Ht & Hst').
      exists w', resp. repeat split; assumption.
Qed.

(** A message command that has been answered OK, however its handler
    ended: the answer carries the id of its last message, and the queue is
    left with the id after it as its current id. *)
Lemma handleMsg_answered (cmd : Command) (w : World) r :
  trace (final (handleMsg WriteLogLine mapOrder cmd w)) = trace w ++ [Respond cmd r] ->
  Status r = RespOK ->
  ID r = u64 (currID (q w) - 1 + len (Args cmd))
  /\ currID (q (final (handleMsg WriteLogLine mapOrder cmd w))) = u64 (ID r + 1).
Proof.
  intros Ht Hok.
  destruct (handleMsg_spec cmd w) as
    [(w' & resp & Hrun & Ht' & Hst & _) | (wa & msgs & Hrun & _ & _ & Ht' & Hc & _)].
  { rewrite Hrun in Ht. cbn [final] in Ht. rewrite Ht in Ht'.
    apply app_inj_tail in Ht' as [_ Ht']. injection Ht' as Hresp. subst resp.
    contradiction. }
  pose proof (publishMessages_same cmd msgs wa) as Hp.
  rewrite Hrun in *.
  destruct (publishMessages mapOrder cmd msgs wa) as [[] w2|w2|e w2]; simpl in Hp;
    try contradiction; destruct Hp as (Hq & _ & Htr); cbn [final] in *;
    rewrite Htr, Ht' in Ht; apply app_inj_tail in Ht as [_ Ht]; injection Ht as Hr;
    subst r; cbn [ID withID NewResponse]; rewrite Hq; auto.
Qed.

(** C2, as the queue has it.  When two successive message commands are both
    answered OK, the id in the second answer is the id in the first plus the
    number of messages of the second command (modulo [2^64]).  An answer is
    given before the lines are published, so that a handler may be left
    parked on a subscriber's channel after it has answered: the statement
    holds however the two handlers end.  The second command is handled on
    the queue as the first handler left it, whatever has become of the
    channels in between. *)
Theorem successive_ids (cmd1 cmd2 : Command) (w0 w1 : World) r1 r2 :
  trace (final (handleMsg WriteLogLine mapOrder cmd1 w0)) = trace w0 ++ [Respond cmd1 r1] ->
  Status r1 = RespOK ->
  q w1 = q (final (handleMsg WriteLogLine mapOrder cmd1 w0)) ->
  trace (final (handleMsg WriteLogLine mapOrder cmd2 w1)) = trace w1 ++ [Respond cmd2 r2] ->
  Status r2 = RespOK ->
  ID r2 = u64 (ID r1 + len (Args cmd2)).
Proof.
  intros T1 S1 Hq T2 S2.
  destruct (handleMsg_answered cmd1 w0 r1 T1 S1) as [_ Hc].
  destruct (handleMsg_answered cmd2 w1 r2 T2 S2) as [-> _].
  rewrite Hq, Hc.
  rewrite <- (u64_add_l (u64 _ - 1)), u64_sub_l, u64_add_l.
  f_equal. lia.
Qed.

(** *** Reads *)

(** [doRead] up to the point where the range has been asked for: the range
    ends at [startID + limit], or at the head of the log when [limit] is 0. *)
Lemma doRead_to_Range (cmd : Command) startID limit (w : World) end_ l1 r l2 :
  (if decide (limit = 0) then Head (log (q w)) = ((end_, None), l1)
   else end_ = u64 (startID + limit) /\ l1 = log (q w)) ->
  Range startID end_ l1 = (r, l2) ->
  doRead cmd startID limit w =
    streamRange cmd (withReaderC (length (readers w)) (NewResponse RespOK))
      (length (readers w)) limit r
      {| q := set_log l2 (set_subscriptions
                (<[ConnID cmd := newSubscription (length (readers w)) (Done cmd)]>
                   (subscriptions (q w))) (q w));
         readers := readers w ++ [makeChan 1000];
         dones := dones w;
         trace := trace w ++ [Respond cmd (withReaderC (length (readers w)) (NewResponse RespOK));
                              WaitForReady cmd] |}.
Proof.
  intros H Hr.
  cbv beta iota delta [doRead mbind M_bind makeReaderC act modify gets mret M_ret onLog panic].
  cbn [q readers dones trace].
  destruct (decide (limit = 0)) as [E|E].
  - cbn [q readers dones trace log]. rewrite H.
    cbn [snd fst set_q set_log set_subscriptions q readers dones trace log subscriptions].
    rewrite Hr. rewrite <- app_assoc. reflexivity.
  - destruct H as [-> ->].
    cbn [snd fst set_q set_log set_subscriptions q readers dones trace log subscriptions].
    rewrite Hr. rewrite <- app_assoc. reflexivity.
Qed.

Lemma insert_last {A} (R : list A) (x y : A) : <[length R := y]> (R ++ [x]) = R ++ [y].
Proof. induction R as [|z R IH]; [reflexivity|]. simpl. f_equal. exact IH. Qed.

(** A send on the last reader channel, when nobody waits on it and its
    buffer has room, adds the reader at the end of the buffer. *)
Lemma sendReader_last r (w : World) R ch :
  readers w = R ++ [ch] ->
  recvq ch = 0%nat -> (length (buf ch) < capacity ch)%nat ->
  sendReader (length R) r w =
    Returned tt {| q := q w; readers := R ++ [chanAppend ch [r]];
                   dones := dones w; trace := trace w |}.
Proof.
  intros HR Hq Hcap. unfold sendReader. rewrite HR.
  rewrite list_lookup_middle by reflexivity.
  unfold chanSend. rewrite decide_False by lia. rewrite decide_True by lia.
  rewrite insert_last. reflexivity.
Qed.

(** [SendEOF] on a response whose reader channel is the last one made. *)
Lemma sendEOF_last resp (w : World) R ch :
  ReaderC resp = Some (length R) ->
  readers w = R ++ [ch] ->
  recvq ch = 0%nat -> (length (buf ch) < capacity ch)%nat ->
  sendEOF resp w =
    Returned tt {| q := q w; readers := R ++ [chanAppend ch [eofReader]];
                   dones := dones w; trace := trace w ++ [SendEOF resp] |}.
Proof.
  intros Hc HR Hq Hcap. unfold sendEOF. rewrite bind_cases, act_eq, Hc.
  apply (sendReader_last eofReader
           {| q := q w; readers := readers w; dones := dones w;
              trace := trace w ++ [SendEOF resp] |} R ch HR Hq Hcap).
Qed.

(** C3, as the queue has it.  A READ command whose arguments parse and
    whose range the log cannot open is answered with OK: the response carries
    a new reader channel, and after the caller is ready the handler ends the
    stream with EOF, which is all that channel then holds, and finishes the
    request. *)
Theorem read_seek_miss (cmd : Command) (w : World) startID limit end_ l1 e l2 :
  Name cmd = CmdRead ->
  parseRead ParseNumber cmd = inl (startID, limit) ->
  (if decide (limit = 0) then Head (log (q w)) = ((end_, None), l1)
   else end_ = u64 (startID + limit) /\ l1 = log (q w)) ->
  Range startID end_ l1 = (inr e, l2) ->
  exists w' resp,
    dispatch cmd w = Returned tt w'
    /\ trace w' = trace w ++ [Respond cmd resp; WaitForReady cmd; SendEOF resp; Finish cmd]
    /\ Status resp = RespOK
    /\ ReaderC resp = Some (length (readers w))
    /\ readers w' = readers w ++ [chanAppend (makeChan 1000) [eofReader]].
Proof.
  intros Hn Hp Hend Hr.
  unfold events.dispatch. rewrite Hn. unfold handleRead. rewrite Hp.
  unfold mbind at 1, M_bind at 1, modify at 1.
  erewrite doRead_to_Range; [| exact Hend | exact Hr].
  unfold streamRange. rewrite bind_cases.
  erewrite (sendEOF_last _ _ (readers w) (makeChan 1000));
    [| reflexivity | reflexivity | reflexivity | simpl; lia].
  rewrite act_eq.
  eexists. exists (withReaderC (length (readers w)) (NewResponse RespOK)).
  split; [reflexivity|].
  cbn [trace set_q readers]. split; [|repeat split].
  rewrite <- !app_assoc. reflexivity.
Qed.

Lemma sendReader_keeps_q q0 c r (w : World) :
  q w = q0 -> post (fun w' => q w' = q0) (sendReader c r w).
Proof.
  intros Hw. destruct (sendReader_cases c r w) as [(ch & ch' & _ & _ & ->) | [_ ->]];
    exact Hw.
Qed.

(** Streaming a range leaves the queue itself as it is. *)
Lemma streamRange_keeps_q (cmd : Command) resp rc limit r (w : World) :
  post (fun w' => q w' = q w) (streamRange cmd resp rc limit r w).
Proof.
  set (P := fun w' : World => q w' = q w).
  assert (Hact : forall a w', P w' -> post P (act a w')) by (intros a w' Hw'; exact Hw').
  assert (Hend : forall w', P w' -> post P ((sendEOF resp;; act (Finish cmd)) w')).
  { intros w' Hw'. apply post_bind; [|intros _ w2 H2; apply Hact, H2].
    unfold sendEOF. apply post_bind; [apply Hact, Hw'|]. intros _ w2 H2.
    destruct (ReaderC resp); [apply sendReader_keeps_q, H2 | exact H2]. }
  unfold streamRange. destruct r as [iterator|e]; [|apply Hend; reflexivity].
  apply post_bind.
  - apply post_forM_; [|reflexivity]. intros [lf e] w1 H1.
    apply post_bind.
    + destruct e; [apply Hend, H1 | exact H1].
    + intros _ w2 H2. unfold sendChunk. destruct (SizeLimit lf) as [size lim].
      apply post_bind; [apply sendReader_keeps_q, H2|].
      intros _ w3 H3. apply sendReader_keeps_q, H3.
  - intros _ w1 H1. destruct (decide (limit ≠ 0)); [apply Hend, H1 | exact H1].
Qed.

(** Whatever the limit, a read that gets past asking for the head of the
    log has recorded a subscription for the connection, on the reader
    channel of its response. *)
Lemma doRead_subscribes (cmd : Command) startID limit (w w' : World) :
  doRead cmd startID limit w = Returned tt w' ->
  subscriptions (q w') !! ConnID cmd
    = Some (newSubscription (length (readers w)) (Done cmd)).
Proof.
  intros Hrun.
  assert (Hcase : (exists e w1, doRead cmd startID limit w = Panicked e w1)
    \/ exists end_ l1, if decide (limit = 0) then Head (log (q w)) = ((end_, None), l1)
                       else end_ = u64 (startID + limit) /\ l1 = log (q w)).
  { destruct (decide (limit = 0)) as [E|E]; [|right; eauto].
    destruct (Head (log (q w))) as [[h [e|]] l1] eqn:EH; [left | right; eauto].
    cbv beta iota delta [doRead mbind M_bind makeReaderC act modify gets mret M_ret onLog
                         panic].
    cbn [q readers dones trace log]. rewrite decide_True by exact E.
    cbn [q readers dones trace log]. rewrite EH. cbn [snd]. eauto. }
  destruct Hcase as [(e & w1 & Hp) | (end_ & l1 & Hend)]; [congruence|].
  destruct (Range startID end_ l1) as [r l2] eqn:ER.
  rewrite (doRead_to_Range cmd startID limit w end_ l1 r l2 Hend ER) in Hrun.
  match type of Hrun with
  | streamRange ?c ?resp ?rc ?lim ?r ?w1 = _ =>
      pose proof (streamRange_keeps_q c resp rc lim r w1) as Hq
  end.
  rewrite Hrun in Hq. simpl in Hq. rewrite Hq.
  cbn [q subscriptions set_log set_subscriptions]. apply lookup_insert_eq.
Qed.

End EventQ.

(** *** The older queue *)

Section LegacyQ.

Import logd.

Context {L : Type} `{!Logger L}.
Variable msgBytes : protocol.Message -> list byte.

Local Abbreviation World := (World (L := L)).

(** The older [doRead] records a subscription exactly when the limit is 0;
    with any other limit it finishes the command and leaves the
    subscriptions alone. *)
Lemma legacy_doRead_subscribes (cmd : Command) startID limit (w w' : World) :
  doRead msgBytes cmd startID limit w = Returned tt w' ->
  (limit = 0 ->
     subscriptions (q w')
       = <[respC cmd := newSubscription (length (msgChans w)) (done cmd)]>
           (subscriptions (q w)))
  /\ (limit <> 0 ->
     subscriptions (q w') = subscriptions (q w)
     /\ exists t, trace w' = t ++ [finish cmd]).
Proof.
  unfold doRead.
  cbv beta iota delta [mbind M_bind makeMsgC act modify gets mret M_ret onLog panic subscribe].
  cbn [q msgChans trace log].
  destruct (SeekToID startID (log (q w))) as [[e|] l1]; [discriminate|].
  cbn [q msgChans trace log currID subscriptions].
  destruct (scanLoop _ _ _ _ _ _) as [b [e|]]; [discriminate|].
  destruct (decide (0 < len b)) as [Hb|Hb].
  - unfold sendMsg. cbn [q msgChans trace].
    destruct (_ !! _) as [ch|]; [|discriminate].
    destruct (chanSend b ch) as [ch'|]; [|discriminate].
    destruct (decide (limit = 0)) as [E|E]; intros H; injection H as <-;
      cbn [q msgChans trace log currID subscriptions];
      (split; [intros; try reflexivity; contradiction|]); intros ?; try contradiction.
    split; [reflexivity | eexists; reflexivity].
  - destruct (decide (limit = 0)) as [E|E]; intros H; injection H as <-;
      cbn [q msgChans trace log currID subscriptions];
      (split; [intros; try reflexivity; contradiction|]); intros ?; try contradiction.
    split; [reflexivity | eexists; reflexivity].
Qed.

(** In the older queue a read whose start the log cannot seek to has been
    answered OK by the time the handler panics. *)
Lemma legacy_doRead_seek_miss (cmd : Command) startID limit (w : World) e l1 :
  SeekToID startID (log (q w)) = (Some e, l1) ->
  exists w',
    doRead msgBytes cmd startID limit w = Panicked e w'
    /\ trace w'
       = trace w ++ [respond cmd {| Status := events.RespOK; ID := 0;
                                    msgC := Some (length (msgChans w)) |}].
Proof.
  intros Hs. unfold doRead.
  cbv beta iota delta [mbind M_bind makeMsgC act modify gets mret M_ret onLog panic].
  cbn [q msgChans trace log]. rewrite Hs. eexists. split; reflexivity.
Qed.

End LegacyQ.

(** *** The queue on an in-memory log *)

Lemma loop_rejects_arguments_witness :
  let cmd := model.CMD events.CmdPing "c1" ["now"] in
  let w := model.freshWorld 100 in
  events.Name cmd ∈ [events.CmdHead; events.CmdStats; events.CmdPing; events.CmdClose]
  /\ events.Args cmd <> []
  /\ exists w',
      model.loop [events.OnIn cmd] w = Returned tt w'
      /\ events.trace w'
         = events.trace w
           ++ [events.Respond cmd (events.NewClientErrResponse events.ErrRespInvalid)]
      /\ events.Status (events.NewClientErrResponse events.ErrRespInvalid)
         = events.RespErrClient
      /\ events.q w' = events.q w
      /\ events.log (events.q w') = events.log (events.q w)
      /\ events.subscriptions (events.q w') = events.subscriptions (events.q w)
      /\ events.readers w' = events.readers w
      /\ events.dones w' = events.dones w.
Proof.
  intros cmd w.
  assert (Hn : events.Name cmd
               ∈ [events.CmdHead; events.CmdStats; events.CmdPing; events.CmdClose]).
  { apply (bool_decide_unpack _). reflexivity. }
  assert (Ha : events.Args cmd <> []) by discriminate.
  split; [exact Hn|]. split; [exact Ha|].
  exact (loop_rejects_arguments model.WriteLogLine model.ParseNumber model.Sscan
           model.mapOrder cmd [] w Hn Ha).
Defined.

(** C8 fails on the queue: a command whose name the loop does not know is
    answered, but with ERR, not with CLIENT_ERR. *)
Lemma unknown_command_counterexample :
  let cmd := model.CMD (events.CmdOther 99) "c1" [] in
  exists w' resp,
    model.loop [events.OnIn cmd] (model.freshWorld 100) = Returned tt w'
    /\ events.trace w' = [events.Respond cmd resp]
    /\ events.Status resp = events.RespErr
    /\ events.Status resp <> events.RespErrClient.
Proof.
  intros cmd. eexists _, _. split; [reflexivity|].
  split; [reflexivity|]. split; [reflexivity | discriminate].
Qed.

Lemma loop_unknown_command_witness :
  let cmd := model.CMD (events.CmdOther 99) "c1" [] in
  let w := model.freshWorld 100 in
  (events.Name cmd
    ∉ [events.CmdMessage; events.CmdReplicate; events.CmdRawMessage; events.CmdRead;
       events.CmdHead; events.CmdStats; events.CmdPing; events.CmdClose; events.CmdSleep;
       events.CmdShutdown])
  /\ exists w',
      model.loop [events.OnIn cmd] w = Returned tt w'
      /\ events.trace w' = events.trace w ++ [events.Respond cmd (events.NewResponse events.RespErr)]
      /\ events.Status (events.NewResponse events.RespErr) = events.RespErr
      /\ events.q w' = events.q w /\ events.readers w' = events.readers w
      /\ events.dones w' = events.dones w.
Proof.
  intros cmd w.
  assert (Hn : events.Name cmd
    ∉ [events.CmdMessage; events.CmdReplicate; events.CmdRawMessage; events.CmdRead;
       events.CmdHead; events.CmdStats; events.CmdPing; events.CmdClose; events.CmdSleep;
       events.CmdShutdown]).
  { apply (bool_decide_unpack _). reflexivity. }
  split; [exact Hn|].
  exact (loop_unknown_command model.WriteLogLine model.ParseNumber model.Sscan
           model.mapOrder cmd [] w Hn).
Defined.

(** C3 fails on the queue: a READ from id 7 of an empty log, where the range
    cannot be opened, is answered with OK. *)
Lemma read_seek_miss_counterexample :
  let cmd := model.CMD events.CmdRead "c1" ["7"; "1"] in
  let w := model.freshWorld 100 in
  fst (events.Range 7 8 (events.log (events.q w))) = inr ErrNotFound
  /\ exists w' resp rest,
      model.dispatch cmd w = Returned tt w'
      /\ events.trace w' = events.Respond cmd resp :: rest
      /\ events.Status resp = events.RespOK
      /\ events.Status resp <> events.RespErrClient.
Proof.
  intros cmd w. split; [reflexivity|].
  exists (final (model.dispatch cmd w)). eexists _, _.
  split; [vm_compute; reflexivity|].
  split; [vm_compute; reflexivity|]. split; [reflexivity | discriminate].
Qed.

Lemma read_seek_miss_witness :
  let cmd := model.CMD events.CmdRead "c1" ["7"; "1"] in
  let w := model.freshWorld 100 in
  events.Name cmd = events.CmdRead
  /\ events.parseRead model.ParseNumber cmd = inl (7, 1)
  /\ events.Range 7 8 (events.log (events.q w)) = (inr ErrNotFound, events.log (events.q w))
  /\ exists w' resp,
      model.dispatch cmd w = Returned tt w'
      /\ events.trace w'
         = events.trace w ++ [events.Respond cmd resp; events.WaitForReady cmd;
                              events.SendEOF resp; events.Finish cmd]
      /\ events.Status resp = events.RespOK
      /\ events.ReaderC resp = Some (length (events.readers w))
      /\ events.readers w'
         = events.readers w ++ [chanAppend (makeChan 1000) [events.eofReader]].
Proof.
  intros cmd w. split; [reflexivity|]. split; [reflexivity|]. split; [reflexivity|].
  refine (read_seek_miss model.WriteLogLine model.ParseNumber model.Sscan model.mapOrder
            cmd w 7 1 8 (events.log (events.q w)) ErrNotFound (events.log (events.q w))
            _ _ _ _).
  - reflexivity.
  - reflexivity.
  - simpl. split; reflexivity.
  - reflexivity.
Defined.

(** C5 fails on the queue.  Connection c1 tails the log and does not drain
    its reader channel while 999 messages are written: the queue has handled
    all of that, c1 is subscribed and the 1000 slots of its channel are
    taken.  Publishing the next line then waits on the send: the handler is
    parked, c1 is still subscribed and nothing was sent on its done
    channel. *)
Lemma broadcast_full_channel_counterexample :
  let cmd := model.CMD events.CmdMessage "c2" ["hello"] in
  let line := model.WriteLogLine (protocol.NewMessage 1000 (bytes "hello")) in
  model.loop model.backlog (model.freshWorld 1000000) = Returned tt model.stalled
  /\ events.subscriptions (events.q model.stalled) !! "c1"
     = Some (events.newSubscription 0 0)
  /\ exists ch w' w'',
      events.readers model.stalled !! 0%nat = Some ch /\ chanFull ch
      /\ model.publishMessages cmd [line] model.stalled = Blocked w'
      /\ model.handleMsg cmd model.stalled = Blocked w''
      /\ events.subscriptions (events.q w') !! "c1" = Some (events.newSubscription 0 0)
      /\ events.dones w' = [makeChan 1].
Proof.
  intros cmd line.
  split; [vm_compute; reflexivity|]. split; [vm_compute; reflexivity|].
  exists (default (makeChan 0) (events.readers model.stalled !! 0%nat)).
  exists model.stalled.
  exists (final (model.handleMsg cmd model.stalled)).
  split; [vm_compute; reflexivity|].
  split; [split; vm_compute; reflexivity|].
  split; [vm_compute; reflexivity|].
  split; [vm_compute; reflexivity|].
  split; vm_compute; reflexivity.
Qed.

Lemma publishMessages_full_channel_witness :
  let cmd := model.CMD events.CmdMessage "c2" ["hello"] in
  let line := model.WriteLogLine (protocol.NewMessage 1000 (bytes "hello")) in
  let ch := default (makeChan 0) (events.readers model.stalled !! 0%nat) in
  (forall l, model.mapOrder l ≡ₚ l)
  /\ events.subscriptions (events.q model.stalled) !! "c1"
     = Some (events.newSubscription 0 0)
  /\ events.readers model.stalled !! 0%nat = Some ch
  /\ chanFull ch
  /\ exists w',
      model.publishMessages cmd [line] model.stalled = Blocked w'
      /\ events.subscriptions (events.q w') = events.subscriptions (events.q model.stalled)
      /\ events.dones w' = events.dones model.stalled
      /\ events.trace w' = events.trace model.stalled
      /\ events.readers w' !! 0%nat = Some ch.
Proof.
  intros cmd line ch.
  assert (Hperm : forall l, model.mapOrder l ≡ₚ l) by (intros l; reflexivity).
  assert (Hsub : events.subscriptions (events.q model.stalled) !! "c1"
                 = Some (events.newSubscription 0 0)) by (vm_compute; reflexivity).
  assert (Hch : events.readers model.stalled !! 0%nat = Some ch)
    by (vm_compute; reflexivity).
  assert (Hfull : chanFull ch) by (split; vm_compute; reflexivity).
  repeat (split; [assumption|]).
  refine (publishMessages_full_channel model.mapOrder cmd [line] model.stalled "c1"
            (events.newSubscription 0 0) ch Hperm Hsub Hch Hfull _).
  discriminate.
Defined.

(** C1 fails on the queue.  A message command whose second argument is
    empty is answered with CLIENT_ERR, and one whose second line does not
    fit in the log is answered with ERR; either way the line of the first
    argument stays written and the log's id has moved, while the queue's
    current id has not. *)
Theorem rejected_write_leaves_bytes :
  let hello := bytes "1 5 907060870 hello" ++ [CR; LF] in
  (let cmd := model.CMD events.CmdMessage "c1" ["hello"; ""] in
   let w := model.freshWorld 100 in
   exists w',
     model.handleMsg cmd w = Returned tt w'
     /\ events.trace w'
        = [events.Respond cmd (events.NewClientErrResponse events.ErrRespEmptyMessage)]
     /\ model.lines (events.log (events.q w)) = []
     /\ model.lines (events.log (events.q w')) = [hello]
     /\ model.lastID (events.log (events.q w)) = 0
     /\ model.lastID (events.log (events.q w')) = 1
     /\ events.currID (events.q w') = events.currID (events.q w))
  /\
  (let cmd := model.CMD events.CmdMessage "c1" ["hello"; "a line too long to fit"] in
   let w := model.freshWorld 30 in
   exists w',
     model.handleMsg cmd w = Returned tt w'
     /\ events.trace w' = [events.Respond cmd (events.NewResponse events.RespErr)]
     /\ model.lines (events.log (events.q w)) = []
     /\ model.lines (events.log (events.q w')) = [hello]
     /\ model.lastID (events.log (events.q w)) = 0
     /\ model.lastID (events.log (events.q w')) = 2
     /\ events.currID (events.q w') = events.currID (events.q w)).
Proof.
  intros hello. split; intros cmd w;
    exists (final (model.handleMsg cmd w));
    (split; [vm_compute; reflexivity|]); repeat split; vm_compute; reflexivity.
Qed.

(** C2 fails on the queue.  Two message commands in a row are answered OK
    with ids 2 and 3, while the first wrote 39 bytes to the log. *)
Lemma successive_offsets_counterexample :
  let cmd1 := model.CMD events.CmdMessage "c1" ["hello"; "x"] in
  let cmd2 := model.CMD events.CmdMessage "c1" ["y"] in
  let w0 := model.freshWorld 100 in
  exists w1 w2 o1 o2 wire1,
    model.handleMsg cmd1 w0 = Returned tt w1
    /\ events.trace w1
       = [events.Respond cmd1 (events.withID o1 (events.NewResponse events.RespOK))]
    /\ model.lines (events.log (events.q w1)) = wire1
    /\ model.handleMsg cmd2 w1 = Returned tt w2
    /\ events.trace w2
       = events.trace w1
         ++ [events.Respond cmd2 (events.withID o2 (events.NewResponse events.RespOK))]
    /\ o1 = 2 /\ o2 = 3 /\ len (concat wire1) = 39
    /\ o2 <> o1 + len (concat wire1).
Proof.
  intros cmd1 cmd2 w0.
  exists (final (model.handleMsg cmd1 w0)).
  exists (final (model.handleMsg cmd2 (final (model.handleMsg cmd1 w0)))).
  exists 2, 3, (model.lines (events.log (events.q (final (model.handleMsg cmd1 w0))))).
  repeat (split; [vm_compute; reflexivity|]). vm_compute. intros H. discriminate H.
Qed.

Lemma successive_ids_witness :
  let cmd1 := model.CMD events.CmdMessage "c2" ["hello"] in
  let cmd2 := model.CMD events.CmdMessage "c2" ["x"; "y"] in
  let w0 := model.filling in
  let w1 := final (events.handleMsg model.WriteLogLine model.mapOrder cmd1 w0) in
  let w2 := final (events.handleMsg model.WriteLogLine model.mapOrder cmd2 w1) in
  let r1 := events.withID 999 (events.NewResponse events.RespOK) in
  let r2 := events.withID 1001 (events.NewResponse events.RespOK) in
  events.handleMsg model.WriteLogLine model.mapOrder cmd1 w0 = Returned tt w1
  /\ events.trace w1 = events.trace w0 ++ [events.Respond cmd1 r1]
  /\ events.handleMsg model.WriteLogLine model.mapOrder cmd2 w1 = Blocked w2
  /\ events.trace w2 = events.trace w1 ++ [events.Respond cmd2 r2]
  /\ events.ID r2 = u64 (events.ID r1 + len (events.Args cmd2)).
Proof.
  intros cmd1 cmd2 w0 w1 w2 r1 r2.
  assert (H1 : events.handleMsg model.WriteLogLine model.mapOrder cmd1 w0 = Returned tt w1)
    by (vm_compute; reflexivity).
  assert (T1 : events.trace w1 = events.trace w0 ++ [events.Respond cmd1 r1])
    by (vm_compute; reflexivity).
  assert (H2 : events.handleMsg model.WriteLogLine model.mapOrder cmd2 w1 = Blocked w2)
    by (vm_compute; reflexivity).
  assert (T2 : events.trace w2 = events.trace w1 ++ [events.Respond cmd2 r2])
    by (vm_compute; reflexivity).
  repeat (split; [assumption|]).
  exact (successive_ids model.WriteLogLine model.mapOrder cmd1 cmd2 w0 w1 r1 r2
           T1 eq_refl eq_refl T2 eq_refl).
Defined.

(** C4 fails on the queue.  After one message has been written, a READ
    from id 1 with limit 1 is answered and streamed, the stream is ended with
    EOF and the request finished, and yet the connection is left subscribed
    on the reader channel of the finished read: the line of the next message
    written is sent on that channel, after the chunk of the read and the end
    of its stream. *)
Theorem read_with_limit_subscribes :
  let write := model.CMD events.CmdMessage "c1" ["hello"] in
  let cmd := model.CMD events.CmdRead "c2" ["1"; "1"] in
  let w := final (model.dispatch write (model.freshWorld 100)) in
  let resp := events.withReaderC 0 (events.NewResponse events.RespOK) in
  let again := model.WriteLogLine (protocol.NewMessage 2 (bytes "hello")) in
  events.parseRead model.ParseNumber cmd = inl (1, 1)
  /\ events.subscriptions (events.q w) = ∅
  /\ exists w' w'',
      model.dispatch cmd w = Returned tt w'
      /\ events.trace w'
         = events.trace w ++ [events.Respond cmd resp; events.WaitForReady cmd;
                              events.SendEOF resp; events.Finish cmd]
      /\ events.subscriptions (events.q w') !! "c2" = Some (events.newSubscription 0 0)
      /\ model.dispatch write w' = Returned tt w''
      /\ buf <$> events.readers w''
         = [[events.BytesReader (bytes "+21" ++ [CR; LF]); events.LimitReader "log.0" 21;
             events.eofReader; events.BytesReader again]].
Proof.
  intros write cmd w resp again.
  split; [vm_compute; reflexivity|]. split; [vm_compute; reflexivity|].
  exists (final (model.dispatch cmd w)).
  exists (final (model.dispatch write (final (model.dispatch cmd w)))).
  split; [vm_compute; reflexivity|]. split; [vm_compute; reflexivity|].
  split; [vm_compute; reflexivity|]. split; vm_compute; reflexivity.
Qed.

(** ** The multiplexer *)

Section Multiplexer.

Import mux.

Context {Q T TS R : Type} `{!QueueOps Q T TS R}.

Local Abbreviation Handlers := (Handlers Q TS).

Lemma pushTopic_h name qu req (hs : Handlers) :
  h (snd (pushTopic name qu req hs)) = <[name := snd (qPushRequest req qu)]> (h hs).
Proof. unfold pushTopic. destruct (qPushRequest req qu). reflexivity. Qed.

Lemma pushAsync_h req (hs : Handlers) : h (snd (pushAsync req hs)) = h hs.
Proof. unfold pushAsync. destruct (qPushRequest req (asyncQ hs)). reflexivity. Qed.


End Multiplexer.


(** ** The client *)

Section ReadOffset.

Import client.

Context {C : Type} `{!Conn C}.

Local Abbreviation Client := (Client C).

(** C9.  When the request went out and a batch response came back whose
    offset is not the one asked for, [ReadOffset] fails with [ErrInternal];
    and whenever it returns a scanner, it returns no error, the response it
    read carries the offset asked for, and the count returned is the batch
    count of that response. *)
Theorem ReadOffset_checks_offset (offset limit : Z) (c : Client) :
  (forall n c1 respOff nbatches c2,
      send {| Offset := offset; Messages := limit |}
        (set_readreq {| Offset := offset; Messages := limit |} c) = ((n, None), c1) ->
      readBatchResponse c1 = ((respOff, nbatches, None), c2) ->
      respOff <> offset ->
      ReadOffset offset limit c = ((0, None, Some ErrInternal), c2))
  /\ (forall nbatches scanner e c',
      ReadOffset offset limit c = ((nbatches, Some scanner, e), c') ->
      e = None
      /\ cr_Error (cr c') = None
      /\ cr_Offset (cr c') = offset
      /\ cr_Batches (cr c') = nbatches).
Proof.
  split.
  - intros n c1 respOff nbatches c2 Hs Hr Hne. unfold ReadOffset.
    rewrite Hs, Hr. rewrite decide_True by exact Hne. reflexivity.
  - intros nbatches scanner e c'. unfold ReadOffset.
    destruct (send _ _) as [[n [es|]] c1]; [intros H; discriminate H|].
    unfold readBatchResponse.
    destruct (ReadFrom _) as [[[m r] [er|]] x]; [intros H; discriminate H|].
    cbn [cr set_cr set_conn].
    destruct (cr_Error r) as [ee|] eqn:Ee; [intros H; discriminate H|].
    destruct (decide (cr_Offset r ≠ offset)) as [Hne|Heq]; [intros H; discriminate H|].
    intros H. injection H as <- <- <- <-. cbn [cr set_bs set_cr].
    repeat split; try assumption.
    destruct (decide (cr_Offset r = offset)); [assumption | contradiction].
Qed.

End ReadOffset.

Lemma ReadOffset_checks_offset_witness :
  let req := {| client.Offset := 5; client.Messages := 1 |} in
  let c1 := snd (client.send req (client.set_readreq req model.dialed)) in
  let c2 := snd (client.readBatchResponse c1) in
  client.send req (client.set_readreq req model.dialed) = ((16, None), c1)
  /\ client.readBatchResponse c1 = ((7, 1, None), c2)
  /\ 7 <> 5
  /\ client.ReadOffset 5 1 model.dialed = ((0, None, Some ErrInternal), c2).
Proof.
  intros req c1 c2.
  assert (Hs : client.send req (client.set_readreq req model.dialed) = ((16, None), c1))
    by reflexivity.
  assert (Hr : client.readBatchResponse c1 = ((7, 1, None), c2)) by reflexivity.
  assert (Hne : 7 <> 5) by lia.
  repeat (split; [assumption|]).
  exact (proj1 (ReadOffset_checks_offset 5 1 model.dialed) 16 c1 7 1 c2 Hs Hr Hne).
Defined.

(** * Further properties *)

(** ** The scanner: what it accepts, and its chunk positions *)

Section ScannerMore.

Import protocol.

Lemma cut_inv sep s a r : cut sep s = Some (a, r) -> s = a ++ sep :: r /\ (sep ∉ a).
Proof.
  revert a. induction s as [|b s IH]; intros a H; [discriminate H|].
  cbn [cut] in H. destruct (decide (b = sep)) as [->|Hb].
  - injection H as <- <-. split; [reflexivity | apply not_elem_of_nil].
  - destruct (cut sep s) as [[a' r']|]; [|discriminate H].
    injection H as <- <-. destruct (IH a' eq_refl) as [-> Ha].
    split; [reflexivity|]. rewrite not_elem_of_cons. auto.
Qed.

Lemma SplitN_4_inv line p0 p1 p2 p3 :
  SplitN line SP 4 = [p0; p1; p2; p3] ->
  line = logLine p0 p1 p2 p3 /\ (SP ∉ p0) /\ (SP ∉ p1) /\ (SP ∉ p2).
Proof.
  cbn [SplitN].
  destruct (cut SP line) as [[a0 r0]|] eqn:E0; [|discriminate].
  destruct (cut SP r0) as [[a1 r1]|] eqn:E1; [|discriminate].
  destruct (cut SP r1) as [[a2 r2]|] eqn:E2; [|discriminate].
  intros H. injection H as <- <- <- <-.
  apply cut_inv in E0 as [-> H0]. apply cut_inv in E1 as [-> H1].
  apply cut_inv in E2 as [-> H2]. unfold logLine. auto.
Qed.

(** What a line that parses looks like. *)
Lemma parseLine_accepted read line n m :
  parseLine read line = (n, m, None) ->
  exists p0 p1 p2 body id,
    line = logLine p0 p1 p2 body
    /\ (SP ∉ p0) /\ (SP ∉ p1) /\ (SP ∉ p2)
    /\ strconv.ParseUint p0 64 = inl id
    /\ strconv.ParseInt p1 64 = inl (len body)
    /\ strconv.ParseUint p2 32 = inl (crc32.Checksum body crcTable)
    /\ n = read
    /\ m = Some (NewMessage id (TrimRight body [CR; LF])).
Proof.
  unfold parseLine. destruct (decide (line = bytes "+EOF")); [discriminate|].
  destruct (SplitN line SP 4) as [|p0 [|p1 [|p2 [|p3 [|? ?]]]]] eqn:ES; try discriminate.
  apply SplitN_4_inv in ES as (-> & H0 & H1 & H2).
  destruct (strconv.ParseUint p0 64) as [id|] eqn:E0; [|discriminate].
  destruct (strconv.ParseInt p1 64) as [bodylen|] eqn:E1; [|discriminate].
  destruct (strconv.ParseUint p2 32) as [checksum|] eqn:E2; [|discriminate].
  destruct (bodylen =? len p3) eqn:El; [|discriminate].
  destruct (crc32.Checksum p3 crcTable =? checksum) eqn:Ec; [|discriminate].
  cbn [negb]. intros H. injection H as <- <-.
  apply Z.eqb_eq in El, Ec. subst.
  exists p0, p1, p2, p3, id. repeat split; auto. 
Qed.

Lemma TrimRight_cons b s c :
  TrimRight (b :: s) c =
    match TrimRight s c with
    | [] => if bool_decide (b ∈ c) then [] else [b]
    | t => b :: t
    end.
Proof. unfold TrimRight. cbn [fold_right]. destruct (fold_right _ _ _); reflexivity. Qed.

(** [TrimRight] takes the longest run of cutset bytes off the end. *)
Lemma TrimRight_spec s c :
  exists suf,
    s = TrimRight s c ++ suf
    /\ Forall (fun b => b ∈ c) suf
    /\ forall t b, TrimRight s c = t ++ [b] -> b ∉ c.
Proof.
  induction s as [|x s (suf & Hs & Hsuf & Hlast)].
  - exists []. repeat split; [constructor|]. intros [|? ?] b' H; discriminate H.
  - rewrite TrimRight_cons. destruct (TrimRight s c) as [|y t'] eqn:ET.
    + destruct (bool_decide (x ∈ c)) eqn:Ex.
      * apply bool_decide_eq_true in Ex. exists (x :: suf). simpl in Hs. subst s.
        repeat split; [constructor; assumption|]. intros [|? ?] b' H; discriminate H.
      * apply bool_decide_eq_false in Ex. exists suf. simpl in Hs. subst s.
        repeat split; [assumption|]. intros [|? [|? ?]] b' H; try discriminate H.
        injection H as <-. exact Ex.
    + exists suf. split; [simpl; f_equal; exact Hs|]. split; [exact Hsuf|].
      intros t b' H. destruct t as [|z t]; [discriminate H|].
      injection H as <- H. apply (Hlast t b'). exact H.
Qed.

Context {BR : Type} (ReadLine : BR -> (list byte * option error) * BR).

(** X1.  [ReadMessage] returns without an error only for a line of the
    form [<id> <length> <crc> <body>]: at least three spaces, no space inside
    the first three fields, the id an unsigned 64-bit decimal, the length the
    number of bytes of the body, the checksum the IEEE CRC-32 of the body in
    decimal.  It then reports the length of the line plus two bytes read, and
    the message it returns carries that id and the body without its trailing
    CR and LF bytes. *)
Theorem ReadMessage_accepted (ps : Scanner BR) :
  snd (fst (ReadMessage ReadLine ps)) = None ->
  exists p0 p1 p2 body id,
    fst (ReadLine (br ps)) = (logLine p0 p1 p2 body, None)
    /\ (SP ∉ p0) /\ (SP ∉ p1) /\ (SP ∉ p2)
    /\ strconv.ParseUint p0 64 = inl id
    /\ strconv.ParseInt p1 64 = inl (len body)
    /\ strconv.ParseUint p2 32 = inl (crc32.Checksum body crcTable)
    /\ fst (ReadMessage ReadLine ps)
       = (len (logLine p0 p1 p2 body) + 2,
          Some (NewMessage id (TrimRight body [CR; LF])), None).
Proof.
  unfold ReadMessage. destruct (ReadLine (br ps)) as [[line [e|]] br']; [discriminate|].
  cbn [fst snd]. destruct (parseLine _ line) as [[n m] e] eqn:EP. cbn [snd].
  intros ->. apply parseLine_accepted in EP
    as (p0 & p1 & p2 & body & id & -> & H0 & H1 & H2 & Hid & Hlen & Hcrc & -> & ->).
  exists p0, p1, p2, body, id. repeat split; assumption.
Qed.

(** X2.  The body of a message [ReadMessage] returns is the body field
    of the line with every trailing CR and LF byte removed: what was removed
    is CR and LF bytes only, and the body returned does not end in CR or LF.
    A body that ends in a line terminator is thus not returned byte for
    byte. *)
Theorem ReadMessage_body_trimmed (ps : Scanner BR) n m e :
  fst (ReadMessage ReadLine ps) = (n, Some m, e) ->
  exists p0 p1 p2 suf,
    fst (fst (ReadLine (br ps))) = logLine p0 p1 p2 (Body m ++ suf)
    /\ Forall (fun b => b = CR \/ b = LF) suf
    /\ forall t b, Body m = t ++ [b] -> b <> CR /\ b <> LF.
Proof.
  unfold ReadMessage. destruct (ReadLine (br ps)) as [[line [e'|]] br']; [discriminate|].
  cbn [fst snd]. intros EP.
  assert (e = None) as ->.
  { revert EP. unfold parseLine.
    repeat match goal with
           | |- context [match ?x with _ => _ end] => destruct x; try discriminate
           end.
    congruence. }
  apply parseLine_accepted in EP
    as (p0 & p1 & p2 & body & id & -> & H0 & H1 & H2 & Hid & Hlen & Hcrc & _ & Hm).
  injection Hm as ->. cbn [Body].
  destruct (TrimRight_spec body [CR; LF]) as (suf & Hs & Hsuf & Hlast).
  exists p0, p1, p2, suf. split; [now rewrite <- Hs|]. split.
  - eapply Forall_impl; [exact Hsuf|]. intros b Hb.
    apply elem_of_cons in Hb as [->|Hb]; [auto|].
    apply elem_of_cons in Hb as [->|Hb]; [auto|]. inversion Hb.
  - intros t b Ht. specialize (Hlast t b Ht). split; intros ->; apply Hlast.
    + left.
    + right. left.
Qed.


(** X3.  Take a line [ReadMessage] accepts and put a body of another
    length after the same three leading fields.  [ReadMessage] fails on that
    line with [errInvalidBodyLength], whatever the checksum of the new body
    is: the length is compared before the checksum. *)
Theorem ReadMessage_body_length (ps ps' : Scanner BR) p0 p1 p2 body body' rest rest' :
  (SP ∉ p0) -> (SP ∉ p1) -> (SP ∉ p2) ->
  ReadLine (br ps) = ((logLine p0 p1 p2 body, None), rest) ->
  snd (fst (ReadMessage ReadLine ps)) = None ->
  length body' <> length body ->
  ReadLine (br ps') = ((logLine p0 p1 p2 body', None), rest') ->
  fst (ReadMessage ReadLine ps')
    = (len (logLine p0 p1 p2 body') + 2, None, Some errInvalidBodyLength).
Proof.
  intros H0 H1 H2 HL Hok Hlen HL'.
  unfold ReadMessage in *. rewrite HL in Hok. rewrite HL'. cbn [fst snd] in *.
  rewrite parseLine_logLine in * by assumption.
  destruct (strconv.ParseUint p0 64) as [id|]; [|discriminate Hok].
  destruct (strconv.ParseInt p1 64) as [bodylen|]; [|discriminate Hok].
  destruct (strconv.ParseUint p2 32) as [checksum|]; [|discriminate Hok].
  destruct (bodylen =? len body) eqn:El; [|discriminate Hok].
  apply Z.eqb_eq in El.
  assert (El' : (bodylen =? len body') = false).
  { apply Z.eqb_neq. unfold len in *. lia. }
  rewrite El'. reflexivity.
Qed.

(** X4.  Take a line [ReadMessage] accepts and replace one byte of
    its body by any other byte, keeping the three leading fields.
    [ReadMessage] fails on that line with [errCrcChecksumMismatch]. *)
Theorem ReadMessage_body_byte_replaced (ps ps' : Scanner BR) p0 p1 p2 pre v v' post rest rest' :
  (SP ∉ p0) -> (SP ∉ p1) -> (SP ∉ p2) ->
  ReadLine (br ps) = ((logLine p0 p1 p2 (pre ++ v :: post), None), rest) ->
  snd (fst (ReadMessage ReadLine ps)) = None ->
  v' <> v ->
  ReadLine (br ps') = ((logLine p0 p1 p2 (pre ++ v' :: post), None), rest') ->
  fst (ReadMessage ReadLine ps')
    = (len (logLine p0 p1 p2 (pre ++ v' :: post)) + 2, None, Some errCrcChecksumMismatch).
Proof.
  intros H0 H1 H2 HL Hok Hv HL'.
  unfold ReadMessage in *. rewrite HL in Hok. rewrite HL'. cbn [fst snd] in *.
  rewrite parseLine_logLine in * by assumption.
  destruct (strconv.ParseUint p0 64) as [id|]; [|discriminate Hok].
  destruct (strconv.ParseInt p1 64) as [bodylen|]; [|discriminate Hok].
  destruct (strconv.ParseUint p2 32) as [checksum|]; [|discriminate Hok].
  destruct (bodylen =? len (pre ++ v :: post)) eqn:El; [|discriminate Hok].
  destruct (crc32.Checksum (pre ++ v :: post) crcTable =? checksum) eqn:Ec; [|discriminate Hok].
  apply Z.eqb_eq in Ec. subst checksum.
  assert (El' : (bodylen =? len (pre ++ v' :: post)) = true).
  { rewrite <- El. unfold len. now rewrite !length_app. }
  rewrite El'. cbn [negb].
  pose proof (Checksum_one_byte pre v' v post Hv) as Hne.
  apply Z.eqb_neq in Hne. rewrite Hne. reflexivity.
Qed.

Variable Peek : BR -> byte + error.
Variable ReadByte : BR -> BR.

Local Abbreviation Scan := (Scan ReadLine Peek ReadByte).
Local Abbreviation scanEnvelope := (scanEnvelope ReadLine Peek ReadByte).

Lemma parseLine_message read line :
  snd (parseLine read line) = None -> exists m, snd (fst (parseLine read line)) = Some m.
Proof.
  destruct (parseLine read line) as [[n m] e] eqn:EP. cbn [fst snd]. intros ->.
  apply parseLine_accepted in EP as (? & ? & ? & ? & ? & _ & _ & _ & _ & _ & _ & _ & _ & ->).
  eauto.
Qed.

Lemma scanMessage_result (ps : Scanner BR) :
  (fst (scanMessage ReadLine ps) = true <-> err (snd (scanMessage ReadLine ps)) = None)
  /\ (fst (scanMessage ReadLine ps) = true ->
      exists m, msg (snd (scanMessage ReadLine ps)) = Some m)
  /\ (0 < chunkEnd (snd (scanMessage ReadLine ps)) ->
      ChunkPos (snd (scanMessage ReadLine ps)) < chunkEnd (snd (scanMessage ReadLine ps))).
Proof.
  unfold scanMessage, ReadMessage.
  destruct (ReadLine (br ps)) as [[line [e|]] br'].
  - cbn [fst snd err msg chunkEnd ChunkPos set_err set_br].
    rewrite bool_decide_eq_true. split; [tauto|]. split; [discriminate|].
    destruct (0 <? chunkEnd ps) eqn:E1; cbn [andb]; [|lia].
    destruct (chunkEnd ps <=? _) eqn:E2; lia.
  - pose proof (parseLine_message (len line + 2) line) as Hm.
    destruct (parseLine (len line + 2) line) as [[n m] e].
    cbn [fst snd err msg chunkEnd ChunkPos set_err set_br] in *.
    rewrite bool_decide_eq_true. split; [tauto|]. split; [exact Hm|].
    destruct (0 <? chunkEnd ps) eqn:E1; cbn [andb]; [|lia].
    destruct (chunkEnd ps <=? _) eqn:E2; lia.
Qed.

Lemma scanEnvelope_error (ps ps1 : Scanner BR) e :
  scanEnvelope ps = (Some e, ps1) ->
  chunkEnd ps1 = chunkEnd ps /\ ChunkPos ps1 = ChunkPos ps
  /\ LastChunkPos ps1 = LastChunkPos ps /\ msg ps1 = msg ps /\ err ps1 = err ps.
Proof.
  unfold protocol.scanEnvelope. destruct (Peek (br ps)) as [b|e0].
  - destruct (decide (b ≠ "+"%byte)); [intros H; injection H as <- <-; auto|].
    cbn [br set_br]. destruct (ReadLine _) as [[line [e1|]] br'].
    + intros H; injection H as <- <-; auto.
    + destruct (decide (line = bytes "EOF")); [intros H; injection H as <- <-; auto|].
      destruct (strconv.ParseInt line 64); [discriminate|].
      intros H; injection H as <- <-; auto.
  - destruct (decide (e0 = io_EOF)); intros H; injection H as <- <-; auto.
Qed.

(** X5.  [Scan] returns true exactly when it leaves no error in the
    scanner, and then the scanner holds a message; when it returns false the
    scanner holds the error that stopped it. *)
Theorem Scan_result (ps : Scanner BR) :
  (fst (Scan ps) = true <-> err (snd (Scan ps)) = None)
  /\ (fst (Scan ps) = true -> exists m, msg (snd (Scan ps)) = Some m).
Proof.
  unfold protocol.Scan.
  destruct (chunkEnd ps <=? 0);
    [|split; [apply scanMessage_result | apply (scanMessage_result ps)]].
  destruct (scanEnvelope ps) as [[e|] ps1];
    [|split; [apply scanMessage_result | apply (scanMessage_result ps1)]].
  destruct (decide (e ≠ errInvalidFirstByte));
    [|split; [apply scanMessage_result | apply (scanMessage_result ps1)]].
  cbn [fst snd err set_err]. split; [split; discriminate | discriminate].
Qed.

(** X6.  After any [Scan], while a chunk is open (the chunk end is
    positive) the position in the chunk is before its end: a chunk whose end
    has been reached is closed, position and end set back to 0, before
    [Scan] returns. *)
Theorem Scan_chunk_bounds (ps : Scanner BR) :
  0 < chunkEnd (snd (Scan ps)) -> ChunkPos (snd (Scan ps)) < chunkEnd (snd (Scan ps)).
Proof.
  unfold protocol.Scan.
  destruct (chunkEnd ps <=? 0) eqn:E0; [|apply scanMessage_result].
  destruct (scanEnvelope ps) as [[e|] ps1] eqn:ES; [|apply scanMessage_result].
  destruct (decide (e ≠ errInvalidFirstByte)); [|apply scanMessage_result].
  apply scanEnvelope_error in ES as (Hc & _).
  cbn [snd chunkEnd set_err]. lia.
Qed.

(** X7.  With no chunk open, when the reader is at its end, or at
    the envelope line [+EOF], [Scan] returns false with [io.EOF] as the
    scanner's error; it does not try to read a message, so the last message
    and the chunk positions stay as they were. *)
Theorem Scan_end_of_stream (ps : Scanner BR) :
  chunkEnd ps <= 0 ->
  Peek (br ps) = inr io_EOF
  \/ (Peek (br ps) = inl "+"%byte
      /\ fst (ReadLine (ReadByte (br ps))) = (bytes "EOF", None)) ->
  fst (Scan ps) = false
  /\ err (snd (Scan ps)) = Some io_EOF
  /\ msg (snd (Scan ps)) = msg ps
  /\ ChunkPos (snd (Scan ps)) = ChunkPos ps
  /\ LastChunkPos (snd (Scan ps)) = LastChunkPos ps
  /\ chunkEnd (snd (Scan ps)) = chunkEnd ps.
Proof.
  intros Hc H. unfold protocol.Scan, protocol.scanEnvelope.
  apply Z.leb_le in Hc. rewrite Hc.
  destruct H as [-> | [-> HR]].
  - rewrite decide_True by reflexivity. rewrite decide_True by discriminate.
    repeat split.
  - rewrite decide_False by (intros H; apply H; reflexivity).
    cbn [br set_br]. destruct (ReadLine _) as [[line e] br']. cbn [fst] in HR.
    injection HR as -> ->. rewrite decide_True by reflexivity.
    rewrite decide_True by discriminate. repeat split.
Qed.

(** X8.  With no chunk open, a stream whose next byte is not [+] is
    scanned as a bare message line: the missing envelope is not an error, no
    byte is consumed before [ReadMessage] runs, the bytes read are added to
    the chunk position and no chunk is opened. *)
Theorem Scan_bare_line (ps : Scanner BR) b :
  chunkEnd ps <= 0 ->
  Peek (br ps) = inl b -> b <> "+"%byte ->
  Scan ps =
    let '((n, m, e), ps1) := ReadMessage ReadLine ps in
    (bool_decide (e = None),
     {| br := br ps1; LastChunkPos := n; ChunkPos := i64 (ChunkPos ps + n);
        chunkEnd := chunkEnd ps; msg := m; err := e |}).
Proof.
  intros Hc HP Hb. unfold protocol.Scan, protocol.scanEnvelope.
  pose proof Hc as Hc'. apply Z.leb_le in Hc'. rewrite Hc', HP.
  rewrite decide_True by exact Hb. rewrite decide_False by (intros H; now apply H).
  unfold scanMessage, ReadMessage.
  destruct (ReadLine (br ps)) as [[line [e|]] br'].
  - cbn [chunkEnd ChunkPos set_err set_br br].
    replace (0 <? chunkEnd ps) with false by (symmetry; apply Z.ltb_ge; lia).
    reflexivity.
  - destruct (parseLine _ line) as [[n m] e].
    cbn [chunkEnd ChunkPos set_err set_br br].
    replace (0 <? chunkEnd ps) with false by (symmetry; apply Z.ltb_ge; lia).
    reflexivity.
Qed.

End ScannerMore.

Lemma ReadMessage_accepted_witness :
  let ps := model.scanning (bytes "1 5 907060870 hello" ++ [CR; LF]) in
  snd (fst (protocol.ReadMessage model.ReadLine ps)) = None
  /\ exists p0 p1 p2 body id,
      fst (model.ReadLine (protocol.br ps)) = (protocol.logLine p0 p1 p2 body, None)
      /\ (SP ∉ p0) /\ (SP ∉ p1) /\ (SP ∉ p2)
      /\ strconv.ParseUint p0 64 = inl id
      /\ strconv.ParseInt p1 64 = inl (len body)
      /\ strconv.ParseUint p2 32 = inl (crc32.Checksum body protocol.crcTable)
      /\ fst (protocol.ReadMessage model.ReadLine ps)
         = (len (protocol.logLine p0 p1 p2 body) + 2,
            Some (protocol.NewMessage id (protocol.TrimRight body [CR; LF])), None).
Proof.
  intros ps. split; [reflexivity|].
  exact (ReadMessage_accepted model.ReadLine ps eq_refl).
Defined.

Lemma ReadMessage_body_trimmed_witness :
  let ps := model.scanning (bytes "1 6 909783072 hello" ++ [LF; CR; LF]) in
  let m := protocol.NewMessage 1 (bytes "hello") in
  fst (protocol.ReadMessage model.ReadLine ps) = (22, Some m, None)
  /\ exists p0 p1 p2 suf,
      fst (fst (model.ReadLine (protocol.br ps)))
        = protocol.logLine p0 p1 p2 (protocol.Body m ++ suf)
      /\ Forall (fun b => b = CR \/ b = LF) suf
      /\ forall t b, protocol.Body m = t ++ [b] -> b <> CR /\ b <> LF.
Proof.
  intros ps m. split; [reflexivity|].
  exact (ReadMessage_body_trimmed model.ReadLine ps 22 m None eq_refl).
Defined.

Lemma ReadMessage_body_length_witness :
  let ps := model.scanning (bytes "1 5 907060870 hello" ++ [CR; LF]) in
  let ps' := model.scanning (bytes "1 5 907060870 hell" ++ [CR; LF]) in
  fst (protocol.ReadMessage model.ReadLine ps)
    = (21, Some (protocol.NewMessage 1 (bytes "hello")), None)
  /\ fst (protocol.ReadMessage model.ReadLine ps') = (20, None, Some errInvalidBodyLength).
Proof.
  intros ps ps'. split; [reflexivity|].
  refine (ReadMessage_body_length model.ReadLine ps ps'
            (bytes "1") (bytes "5") (bytes "907060870") (bytes "hello") (bytes "hell") [] []
            _ _ _ _ _ _ _).
  - apply (bool_decide_unpack _). reflexivity.
  - apply (bool_decide_unpack _). reflexivity.
  - apply (bool_decide_unpack _). reflexivity.
  - reflexivity.
  - reflexivity.
  - simpl. lia.
  - reflexivity.
Defined.

Lemma ReadMessage_body_byte_replaced_witness :
  let ps := model.scanning (bytes "1 5 907060870 hello" ++ [CR; LF]) in
  let ps' := model.scanning (bytes "1 5 907060870 jello" ++ [CR; LF]) in
  fst (protocol.ReadMessage model.ReadLine ps)
    = (21, Some (protocol.NewMessage 1 (bytes "hello")), None)
  /\ fst (protocol.ReadMessage model.ReadLine ps') = (21, None, Some errCrcChecksumMismatch).
Proof.
  intros ps ps'. split; [reflexivity|].
  refine (ReadMessage_body_byte_replaced model.ReadLine ps ps'
            (bytes "1") (bytes "5") (bytes "907060870") [] "h"%byte "j"%byte (bytes "ello")
            [] [] _ _ _ _ _ _ _).
  - apply (bool_decide_unpack _). reflexivity.
  - apply (bool_decide_unpack _). reflexivity.
  - apply (bool_decide_unpack _). reflexivity.
  - reflexivity.
  - reflexivity.
  - discriminate.
  - reflexivity.
Defined.

Lemma Scan_chunk_bounds_witness :
  let ps := model.scanning (bytes "+100" ++ [CR; LF] ++ bytes "1 5 907060870 hello" ++ [CR; LF]) in
  let ps' := snd (protocol.Scan model.ReadLine model.Peek model.ReadByte ps) in
  protocol.chunkEnd ps' = 100 /\ protocol.ChunkPos ps' = 21
  /\ protocol.ChunkPos ps' < protocol.chunkEnd ps'.
Proof.
  intros ps ps'. split; [reflexivity|]. split; [reflexivity|].
  apply (Scan_chunk_bounds model.ReadLine model.Peek model.ReadByte ps).
  reflexivity.
Defined.

Lemma Scan_end_of_stream_witness :
  let ps := model.scanning (bytes "+EOF" ++ [CR; LF]) in
  let ps' := snd (protocol.Scan model.ReadLine model.Peek model.ReadByte ps) in
  model.Peek (protocol.br ps) = inl "+"%byte
  /\ fst (model.ReadLine (model.ReadByte (protocol.br ps))) = (bytes "EOF", None)
  /\ fst (protocol.Scan model.ReadLine model.Peek model.ReadByte ps) = false
  /\ protocol.err ps' = Some io_EOF
  /\ protocol.msg ps' = protocol.msg ps
  /\ protocol.ChunkPos ps' = protocol.ChunkPos ps
  /\ protocol.LastChunkPos ps' = protocol.LastChunkPos ps
  /\ protocol.chunkEnd ps' = protocol.chunkEnd ps.
Proof.
  intros ps ps'. split; [reflexivity|]. split; [reflexivity|].
  apply (Scan_end_of_stream model.ReadLine model.Peek model.ReadByte ps).
  - simpl. lia.
  - right. split; reflexivity.
Defined.

Lemma Scan_bare_line_witness :
  let ps := model.scanning (bytes "1 5 907060870 hello" ++ [CR; LF]) in
  protocol.Scan model.ReadLine model.Peek model.ReadByte ps
    = (true,
       {| protocol.br := []; protocol.LastChunkPos := 21; protocol.ChunkPos := 21;
          protocol.chunkEnd := 0;
          protocol.msg := Some (protocol.NewMessage 1 (bytes "hello"));
          protocol.err := None |}).
Proof.
  intros ps.
  exact (Scan_bare_line model.ReadLine model.Peek model.ReadByte ps "1"%byte
           ltac:(simpl; lia) eq_refl ltac:(discriminate)).
Defined.

(** ** The event queue: writes, reads, close and the loop *)

Section EventQMore.

Import events.

Context {L ST : Type} `{!Logger L} `{!StatsOps ST}.
Variable WriteLogLine : protocol.Message -> list byte.
Variable ParseNumber : list byte -> Z + error.
Variable Sscan : list byte -> Z + error.
Variable mapOrder : list (string * Subscription) -> list (string * Subscription).

Local Abbreviation World := (World (L := L) (ST := ST)).
Local Abbreviation dispatch := (dispatch WriteLogLine ParseNumber Sscan mapOrder).
Local Abbreviation loop := (loop WriteLogLine ParseNumber Sscan mapOrder).
Local Abbreviation handleMsg := (handleMsg WriteLogLine mapOrder).
Local Abbreviation publishMessages := (publishMessages mapOrder).
Local Abbreviation writeArgs := (writeArgs WriteLogLine).
Local Abbreviation logAfter := (logAfter WriteLogLine).
Local Abbreviation linesAfter := (linesAfter WriteLogLine).

Lemma bind_returned {W A B} (m : M W A) (f : A -> M W B) w b w' :
  (m ≫= f) w = Returned b w' ->
  exists a w1, m w = Returned a w1 /\ f a w1 = Returned b w'.
Proof. rewrite bind_cases. destruct (m w) as [a w1| |]; [eauto | discriminate..]. Qed.

(** When the loop over the arguments runs to its end, no argument was
    empty, the log has been handed every line in order, and the lines
    collected are those written. *)
Lemma writeArgs_written (cmd : Command) args id msgs (w w' : World) id' msgs' :
  writeArgs cmd args id msgs w = Returned (Some (id', msgs')) w' ->
  Forall (fun m => m <> []) args
  /\ log (q w') = logAfter id args (log (q w))
  /\ msgs' = msgs ++ linesAfter id args.
Proof.
  revert id msgs w. induction args as [|msg args IH]; intros id msgs w Hrun.
  - injection Hrun as _ <- <-. rewrite app_nil_r. repeat split. constructor.
  - cbn [events.writeArgs] in Hrun. destruct (decide (len msg = 0)) as [E|E]; [discriminate Hrun|].
    rewrite bind_cases in Hrun. unfold onLog at 1 in Hrun. rewrite bind_cases in Hrun.
    unfold onLog at 1 in Hrun. cbn [set_q q log set_log] in Hrun.
    cbn [events.logAfter events.linesAfter].
    destruct (Write _ _) as [[n [e|]] l'] eqn:EW; cbn [snd] in *; [discriminate Hrun|].
    apply IH in Hrun as (Hne & Hlog & Hmsgs).
    cbn [set_q q log set_log] in Hlog. split; [|split].
    + constructor; [|exact Hne]. intros ->. apply E. reflexivity.
    + exact Hlog.
    + rewrite Hmsgs, <- app_assoc. reflexivity.
Qed.

(** [handleMsg], case by case. *)
Lemma handleMsg_cases (cmd : Command) (w : World) :
  (exists w' resp,
      handleMsg cmd w = Returned tt w'
      /\ trace w' = trace w ++ [Respond cmd resp]
      /\ Status resp <> RespOK
      /\ currID (q w') = currID (q w)
      /\ subscriptions (q w') = subscriptions (q w)
      /\ Stats (q w') = Stats (q w)
      /\ readers w' = readers w
      /\ dones w' = dones w)
  \/ (exists w1,
      let id0 := u64 (currID (q w) - 1) in
      let id := u64 (currID (q w) - 1 + len (Args cmd)) in
      handleMsg cmd w = publishMessages cmd (linesAfter id0 (Args cmd)) w1
      /\ Args cmd <> []
      /\ Forall (fun m => m <> []) (Args cmd)
      /\ trace w1 = trace w ++ [Respond cmd (withID id (NewResponse RespOK))]
      /\ currID (q w1) = u64 (id + 1)
      /\ log (q w1) = logAfter id0 (Args cmd) (log (q w))
      /\ Stats (q w1) = Incr "total_writes" (Stats (q w))
      /\ subscriptions (q w1) = subscriptions (q w)
      /\ readers w1 = readers w
      /\ dones w1 = dones w).
Proof.
  set (run := handleMsg cmd w).
  assert (Hrun0 : run =
    if decide (len (Args cmd) = 0) then
      act (Respond cmd (NewClientErrResponse ErrRespNoArguments)) w
    else
      match writeArgs cmd (Args cmd) (u64 (currID (q w) - 1)) [] w with
      | Returned (Some (id, msgs)) w' =>
          publishMessages cmd msgs
            {| q := set_Stats (Incr "total_writes" (Stats (q w')))
                      (set_currID (u64 (id + 1)) (q w'));
               readers := readers w'; dones := dones w';
               trace := trace w' ++ [Respond cmd (withID id (NewResponse RespOK))] |}
      | Returned None w' => Returned tt w'
      | Blocked w' => Blocked w'
      | Panicked e w' => Panicked e w'
      end).
  { unfold run, events.handleMsg. rewrite bind_cases. unfold gets at 1. cbv beta iota.
    destruct (decide (len (Args cmd) = 0)); [reflexivity|].
    rewrite bind_cases. destruct (events.writeArgs _ _ _ _ _ _) as [[[id msgs]|] w'|w'|e w'];
      reflexivity. }
  clearbody run. subst run.
  destruct (decide (len (Args cmd) = 0)) as [E|E].
  - left. eexists _, _. split; [apply act_eq|]. simpl. repeat split. discriminate.
  - destruct (writeArgs_spec WriteLogLine cmd (Args cmd) (u64 (currID (q w) - 1)) [] w)
      as (r & w' & Hrun & Hc & Hs & Hst & Hr & Hd & Hres).
    rewrite Hrun. destruct r as [[id' msgs']|].
    + right. destruct Hres as (Ht & Hid & Hlen).
      destruct Hid as [[Hnil _] | [Hne ->]]; [rewrite Hnil in E; contradiction|].
      apply writeArgs_written in Hrun as (Hall & Hlog & ->).
      eexists. cbv zeta. split; [reflexivity|].
      cbn [set_q q currID subscriptions readers dones trace set_currID set_Stats log Stats].
      rewrite u64_add_l, Ht, Hst. repeat split; assumption.
    + left. destruct Hres as (resp & Ht & Hst').
      exists w', resp. repeat split; assumption.
Qed.

(** Turning the answer a returned [handleMsg] gave into the case it took. *)
Lemma handleMsg_answer (cmd : Command) (w w' : World) r :
  handleMsg cmd w = Returned tt w' ->
  trace w' = trace w ++ [Respond cmd r] ->
  (Status r <> RespOK
   /\ currID (q w') = currID (q w)
   /\ subscriptions (q w') = subscriptions (q w)
   /\ Stats (q w') = Stats (q w)
   /\ readers w' = readers w
   /\ dones w' = dones w)
  \/ (exists w1,
      let id0 := u64 (currID (q w) - 1) in
      let id := u64 (currID (q w) - 1 + len (Args cmd)) in
      publishMessages cmd (linesAfter id0 (Args cmd)) w1 = Returned tt w'
      /\ r = withID id (NewResponse RespOK)
      /\ q w' = q w1
      /\ Args cmd <> []
      /\ Forall (fun m => m <> []) (Args cmd)
      /\ currID (q w1) = u64 (id + 1)
      /\ log (q w1) = logAfter id0 (Args cmd) (log (q w))
      /\ Stats (q w1) = Incr "total_writes" (Stats (q w))
      /\ subscriptions (q w1) = subscriptions (q w)
      /\ readers w1 = readers w
      /\ dones w1 = dones w
      /\ dones w' = dones w).
Proof.
  intros Hrun Ht.
  destruct (handleMsg_cases cmd w) as
    [(w2 & resp & Hrun' & Ht' & Hst & Hrest) | (w1 & Hrun' & Hne & Hall & Ht' & Hrest)].
  - left. rewrite Hrun in Hrun'. injection Hrun' as <-. rewrite Ht in Ht'.
    apply app_inj_tail in Ht' as [_ Ht']. injection Ht' as <-. auto.
  - right. exists w1. cbv zeta. rewrite Hrun in Hrun'. symmetry in Hrun'.
    pose proof (publishMessages_same mapOrder cmd
                  (linesAfter (u64 (currID (q w) - 1)) (Args cmd)) w1) as Hp.
    rewrite Hrun' in Hp. destruct Hp as (Hq & Hd & Htr).
    rewrite Htr, Ht' in Ht. apply app_inj_tail in Ht as [_ Ht]. injection Ht as ->.
    destruct Hrest as (Hc & Hl & Hs & Hsub & Hr & Hd1).
    repeat split; try assumption. congruence.
Qed.

Lemma alive_final {W A} (P : W -> Prop) (o : Outcome W A) : alive P o -> P (final o).
Proof. destruct o; simpl; auto; contradiction. Qed.

(** A message command that has been answered OK, however its handler
    ended: the state in which the answer was given, from which the handler
    has since done nothing but send on reader channels. *)
Lemma handleMsg_answered_OK (cmd : Command) (w : World) r :
  trace (final (handleMsg cmd w)) = trace w ++ [Respond cmd r] ->
  Status r = RespOK ->
  exists w1,
    alive (sameButReaders w1) (handleMsg cmd w)
    /\ r = withID (u64 (currID (q w) - 1 + len (Args cmd))) (NewResponse RespOK)
    /\ Args cmd <> []
    /\ Forall (fun m => m <> []) (Args cmd)
    /\ currID (q w1) = u64 (u64 (currID (q w) - 1 + len (Args cmd)) + 1)
    /\ log (q w1) = logAfter (u64 (currID (q w) - 1)) (Args cmd) (log (q w))
    /\ Stats (q w1) = Incr "total_writes" (Stats (q w))
    /\ subscriptions (q w1) = subscriptions (q w)
    /\ dones w1 = dones w.
Proof.
  intros Ht Hok.
  destruct (handleMsg_cases cmd w) as
    [(w2 & resp & Hrun & Ht' & Hst & _)
    | (w1 & Hrun & Hne & Hall & Ht' & Hc & Hl & Hs & Hsub & _ & Hd)].
  { rewrite Hrun in Ht. cbn [final] in Ht. rewrite Ht in Ht'.
    apply app_inj_tail in Ht' as [_ Ht']. injection Ht' as Hresp. subst resp.
    contradiction. }
  cbv zeta in Hrun.
  pose proof (publishMessages_same mapOrder cmd
                (linesAfter (u64 (currID (q w) - 1)) (Args cmd)) w1) as Hp.
  rewrite <- Hrun in Hp. exists w1. split; [exact Hp|].
  apply alive_final in Hp. destruct Hp as (_ & _ & Htr).
  rewrite Htr, Ht' in Ht. apply app_inj_tail in Ht as [_ Ht]. injection Ht as Hr.
  repeat split; auto.
Qed.

(** X9.  When a message command is answered OK, then, whether its handler
    has returned or is parked on a subscriber's channel (it cannot have
    panicked): the command had at least one argument and none was empty; the
    log has been given, for each argument in order, [SetID] with the next id
    and then [Write] with the line of that id; the answer carries the id of
    the last message; the current id is the one after it; the counter
    total_writes has gone up once; and neither the subscriptions nor the done
    channels have changed. *)
Theorem handleMsg_accepted (cmd : Command) (w : World) r :
  trace (final (handleMsg cmd w)) = trace w ++ [Respond cmd r] ->
  Status r = RespOK ->
  Args cmd <> []
  /\ Forall (fun m => m <> []) (Args cmd)
  /\ log (q (final (handleMsg cmd w)))
     = logAfter (u64 (currID (q w) - 1)) (Args cmd) (log (q w))
  /\ ID r = u64 (currID (q w) - 1 + len (Args cmd))
  /\ currID (q (final (handleMsg cmd w))) = u64 (ID r + 1)
  /\ Stats (q (final (handleMsg cmd w))) = Incr "total_writes" (Stats (q w))
  /\ subscriptions (q (final (handleMsg cmd w))) = subscriptions (q w)
  /\ dones (final (handleMsg cmd w)) = dones w
  /\ forall e w', handleMsg cmd w <> Panicked e w'.
Proof.
  intros Ht Hok.
  destruct (handleMsg_answered_OK cmd w r Ht Hok)
    as (w1 & Halive & -> & Hne & Hall & Hc & Hl & Hs & Hsub & Hd).
  assert (Hnp : forall e w', handleMsg cmd w <> Panicked e w').
  { intros e w' E. rewrite E in Halive. exact Halive. }
  apply alive_final in Halive. destruct Halive as (Hq & Hd' & _).
  rewrite Hq, Hd'. cbn [ID withID NewResponse]. repeat split; assumption.
Qed.

(** X10.  When a message command is answered with anything but OK,
    the current id, the subscriptions, the counters and every channel are as
    they were: nothing is published and no id is used up. *)
Theorem handleMsg_rejected (cmd : Command) (w w' : World) r :
  handleMsg cmd w = Returned tt w' ->
  trace w' = trace w ++ [Respond cmd r] ->
  Status r <> RespOK ->
  currID (q w') = currID (q w)
  /\ subscriptions (q w') = subscriptions (q w)
  /\ Stats (q w') = Stats (q w)
  /\ readers w' = readers w
  /\ dones w' = dones w.
Proof.
  intros Hrun Ht Hok.
  destruct (handleMsg_answer cmd w w' r Hrun Ht) as [(_ & H) | (w1 & _ & -> & _)];
    [exact H|].
  exfalso. apply Hok. reflexivity.
Qed.

(** *** Delivery *)

Lemma send_buffers (sub : Subscription) msgs (w w' : World) ch :
  forM_ msgs (fun m => send sub m) w = Returned tt w' ->
  readers w !! readerC sub = Some ch ->
  recvq ch = 0%nat ->
  readers w' !! readerC sub = Some (chanAppend ch (map BytesReader msgs)).
Proof.
  revert w ch. induction msgs as [|m msgs IH]; intros w ch Hrun Hch Hq.
  - injection Hrun as <-. rewrite Hch. unfold chanAppend. simpl. rewrite app_nil_r.
    destruct ch; simpl in *. subst. reflexivity.
  - cbn [forM_] in Hrun. apply bind_returned in Hrun as ([] & w1 & Hs & Hrun).
    unfold send, sendReader in Hs. rewrite Hch in Hs.
    unfold chanSend in Hs. rewrite decide_False in Hs by lia.
    destruct (decide _) in Hs; [|discriminate Hs]. injection Hs as <-.
    rewrite (IH _ {| capacity := capacity ch; buf := buf ch ++ [BytesReader m];
                     recvq := recvq ch; recvd := recvd ch |} Hrun).
    + unfold chanAppend. cbn [capacity buf recvq recvd map].
      rewrite <- app_assoc. reflexivity.
    + cbn [readers]. apply list_lookup_insert_eq. eapply lookup_lt_Some, Hch.
    + exact Hq.
Qed.

Lemma send_others (sub : Subscription) msgs (w w' : World) c :
  forM_ msgs (fun m => send sub m) w = Returned tt w' ->
  c <> readerC sub ->
  readers w' !! c = readers w !! c.
Proof.
  revert w. induction msgs as [|m msgs IH]; intros w Hrun Hc.
  - injection Hrun as <-. reflexivity.
  - cbn [forM_] in Hrun. apply bind_returned in Hrun as ([] & w1 & Hs & Hrun).
    rewrite (IH _ Hrun Hc).
    destruct (sendReader_cases (readerC sub) (BytesReader m) w)
      as [(ch & ch' & _ & _ & E) | [_ E]]; unfold send in Hs; rewrite E in Hs;
      [|discriminate Hs].
    injection Hs as <-. cbn [readers]. apply list_lookup_insert_ne. congruence.
Qed.

Lemma publish_others msgs (l : list (string * Subscription)) (w w' : World) c :
  forM_ l (fun '(_, sub) => forM_ msgs (fun m => send sub m)) w = Returned tt w' ->
  c ∉ map (fun x => readerC (snd x)) l ->
  readers w' !! c = readers w !! c.
Proof.
  revert w. induction l as [|[k s] l IH]; intros w Hrun Hc.
  - injection Hrun as <-. reflexivity.
  - cbn [forM_] in Hrun. apply bind_returned in Hrun as ([] & w1 & Hs & Hrun).
    cbn [map snd] in Hc. rewrite not_elem_of_cons in Hc. destruct Hc as [Hc1 Hc2].
    rewrite (IH _ Hrun Hc2). eapply send_others; [exact Hs | exact Hc1].
Qed.

Lemma publish_buffers msgs (l : list (string * Subscription)) (w w' : World) k sub ch :
  NoDup (map (fun x => readerC (snd x)) l) ->
  forM_ l (fun '(_, sub) => forM_ msgs (fun m => send sub m)) w = Returned tt w' ->
  (k, sub) ∈ l ->
  readers w !! readerC sub = Some ch ->
  recvq ch = 0%nat ->
  readers w' !! readerC sub = Some (chanAppend ch (map BytesReader msgs)).
Proof.
  revert w. induction l as [|[k0 s0] l IH]; intros w Hnd Hrun Hin Hch Hq;
    [inversion Hin|].
  cbn [forM_] in Hrun. apply bind_returned in Hrun as ([] & w1 & Hs & Hrun).
  cbn [map snd] in Hnd. apply NoDup_cons in Hnd as [Hnot Hnd].
  apply elem_of_cons in Hin as [Hin|Hin].
  - injection Hin as <- <-.
    rewrite (publish_others msgs l w1 w' _ Hrun Hnot).
    eapply send_buffers; eassumption.
  - apply (IH w1 Hnd Hrun Hin); [|exact Hq].
    rewrite (send_others s0 msgs w w1 _ Hs); [exact Hch|].
    intros E. apply Hnot. rewrite <- E.
    apply (list_elem_of_fmap_2 (fun x => readerC (snd x)) l (k, sub)), Hin.
Qed.

(** X11.  When a message command is answered OK and returns, every
    subscriber whose reader channel had nobody waiting on it finds, at the end
    of that channel's buffer, one reader for each line written, in the order
    of the arguments; this for any order in which the subscriptions are
    visited, provided no two subscriptions share a reader channel. *)
Theorem handleMsg_delivers (cmd : Command) (w w' : World) r k sub ch :
  (forall l, mapOrder l ≡ₚ l) ->
  (forall k1 k2 s1 s2,
      subscriptions (q w) !! k1 = Some s1 -> subscriptions (q w) !! k2 = Some s2 ->
      readerC s1 = readerC s2 -> k1 = k2) ->
  handleMsg cmd w = Returned tt w' ->
  trace w' = trace w ++ [Respond cmd r] ->
  Status r = RespOK ->
  subscriptions (q w) !! k = Some sub ->
  readers w !! readerC sub = Some ch ->
  recvq ch = 0%nat ->
  readers w' !! readerC sub
    = Some (chanAppend ch
              (map BytesReader (linesAfter (u64 (currID (q w) - 1)) (Args cmd)))).
Proof.
  intros Hperm Hinj Hrun Ht Hok Hsub Hch Hq.
  destruct (handleMsg_answer cmd w w' r Hrun Ht) as
    [(Hst & _) | (w1 & Hpub & _ & _ & _ & _ & _ & _ & _ & Hs1 & Hr1 & _)];
    [contradiction|].
  cbv zeta in Hpub. unfold events.publishMessages in Hpub.
  rewrite bind_cases in Hpub. unfold gets in Hpub. rewrite Hs1 in Hpub.
  eapply publish_buffers; [| exact Hpub | | rewrite Hr1; exact Hch | exact Hq].
  - rewrite Hperm. apply NoDup_fmap_2_strong; [|apply NoDup_map_to_list].
    intros [k1 s1] [k2 s2] H1 H2 E. cbn [snd] in E.
    apply elem_of_map_to_list in H1, H2.
    assert (k1 = k2) as -> by (eapply Hinj; eassumption).
    congruence.
  - rewrite Hperm. apply elem_of_map_to_list, Hsub.
Qed.

(** X12.  With nobody subscribed, a message command always
    returns: it gives one answer, and leaves every channel and the (empty)
    subscriptions as they were. *)
Theorem handleMsg_without_subscribers (cmd : Command) (w : World) :
  (forall l, mapOrder l ≡ₚ l) ->
  subscriptions (q w) = ∅ ->
  exists w' r,
    handleMsg cmd w = Returned tt w'
    /\ trace w' = trace w ++ [Respond cmd r]
    /\ subscriptions (q w') = ∅
    /\ readers w' = readers w
    /\ dones w' = dones w.
Proof.
  intros Hperm Hs.
  destruct (handleMsg_cases cmd w) as
    [(w2 & resp & Hrun & Ht & _ & _ & Hsub & _ & Hr & Hd)
    | (w1 & Hrun & _ & _ & Ht & _ & _ & _ & Hsub & Hr & Hd)].
  - exists w2, resp. repeat split; congruence.
  - cbv zeta in Hrun. rewrite Hrun. unfold events.publishMessages.
    rewrite bind_cases. unfold gets. rewrite Hsub, Hs, map_to_list_empty.
    assert (mapOrder [] = []) as ->.
    { apply Permutation_nil_r, Hperm. }
    exists w1. eexists. split; [reflexivity|]. split; [exact Ht|].
    repeat split; congruence.
Qed.


(** *** Reads *)

Lemma sendChunk_buffers (lf : LogReadableFile) rc (w : World) R ch :
  readers w = R ++ [ch] -> rc = length R ->
  recvq ch = 0%nat -> (length (buf ch) + 2 <= capacity ch)%nat ->
  sendChunk lf rc w =
    Returned tt {| q := q w; readers := R ++ [chanAppend ch (chunk lf)];
                   dones := dones w; trace := trace w |}.
Proof.
  intros HR -> Hq Hcap. unfold sendChunk, chunk. destruct (SizeLimit lf) as [size limit].
  rewrite bind_cases. unfold sendReader at 1. rewrite HR.
  rewrite list_lookup_middle by reflexivity.
  unfold chanSend at 1. rewrite decide_False by lia. rewrite decide_True by lia.
  unfold sendReader. cbn [readers q dones trace].
  rewrite insert_last.
  rewrite list_lookup_middle by reflexivity.
  unfold chanSend. cbn [recvq buf capacity recvd].
  rewrite decide_False by lia. rewrite decide_True by (rewrite length_app; simpl; lia).
  rewrite insert_last.
  unfold chanAppend. rewrite <- app_assoc. reflexivity.
Qed.

Lemma chanAppend_nil {A} (ch : Chan A) : chanAppend ch [] = ch.
Proof. destruct ch. unfold chanAppend. simpl. now rewrite app_nil_r. Qed.

Lemma iterate_buffers (cmd : Command) resp rc iterator (w : World) R ch :
  readers w = R ++ [ch] -> rc = length R -> ReaderC resp = Some rc ->
  recvq ch = 0%nat ->
  (length (buf ch) + length (stepReaders iterator) <= capacity ch)%nat ->
  forM_ iterator (fun '(lf, e) =>
      match e with
      | Some _ => sendEOF resp;; act (Finish cmd)
      | None => mret tt
      end;;
      sendChunk lf rc) w =
    Returned tt {| q := q w;
                   readers := R ++ [chanAppend ch (stepReaders iterator)];
                   dones := dones w;
                   trace := trace w ++ stepCalls cmd resp iterator |}.
Proof.
  intros HR Hrc Hresp. revert w ch HR.
  induction iterator as [|[lf e] it IH]; intros w ch HR Hq Hcap.
  - cbn [forM_ flat_map stepCalls stepReaders]. rewrite chanAppend_nil, app_nil_r, <- HR.
    destruct w; reflexivity.
  - cbn [forM_]. rewrite bind_cases.
    assert (Hlen : (length (stepReaders ((lf, e) :: it))
                    = length (match e with Some _ => [eofReader] | None => [] end)
                      + 2 + length (stepReaders it))%nat).
    { unfold stepReaders. cbn [flat_map fst snd]. rewrite !length_app.
      unfold chunk. destruct (SizeLimit lf). simpl. lia. }
    rewrite Hlen in Hcap.
    set (ch1 := chanAppend ch (match e with Some _ => [eofReader] | None => [] end)).
    set (w1 := {| q := q w; readers := R ++ [ch1]; dones := dones w;
                  trace := trace w ++ match e with
                                      | Some _ => [SendEOF resp; Finish cmd]
                                      | None => []
                                      end |}).
    assert (E1 : (match e with
                  | Some _ => sendEOF resp;; act (Finish cmd)
                  | None => mret tt
                  end ≫= (fun _ => sendChunk lf rc)) w = sendChunk lf rc w1).
    { rewrite bind_cases. unfold w1, ch1. destruct e.
      - rewrite bind_cases.
        rewrite (sendEOF_last resp w R ch) by (first [congruence | simpl in Hcap; lia]).
        rewrite act_eq. cbn [q readers dones trace].
        rewrite <- app_assoc. reflexivity.
      - rewrite chanAppend_nil, app_nil_r, <- HR. destruct w; reflexivity. }
    rewrite E1.
    rewrite (sendChunk_buffers lf rc w1 R ch1 eq_refl Hrc);
      [| exact Hq | unfold ch1, chanAppend; cbn [buf capacity]; rewrite length_app; lia].
    rewrite (IH _ (chanAppend ch1 (chunk lf))); [| reflexivity | exact Hq | ].
    + subst w1 ch1. unfold stepCalls, stepReaders, chanAppend.
      cbn [q readers dones trace flat_map fst snd capacity buf recvq recvd].
      rewrite <- !app_assoc. reflexivity.
    + unfold ch1, chanAppend, chunk. destruct (SizeLimit lf). cbn [capacity buf].
      rewrite !length_app. simpl. simpl in Hcap. lia.
Qed.

(** X13.  A read whose range the log opens returns when what it has to
    send fits the new reader channel, which takes 1000 readers: two for each
    step of the iterator, one more for each step that reports an error, and
    one at the end unless the limit is 0.  The channel then holds, for every
    step in order, the envelope [+<n>] and the file's bytes, where [n] is the
    file's limit when that is positive and its size otherwise; for a step
    that reports an error the end of the stream is sent first, the command is
    finished, and the chunk is sent all the same.  The connection is
    subscribed on the new channel, and the stream is ended and the command
    finished at the end exactly when the limit is not 0. *)
Theorem doRead_streams (cmd : Command) startID limit (w : World) end_ l1 iterator l2 :
  (if decide (limit = 0) then Head (log (q w)) = ((end_, None), l1)
   else end_ = u64 (startID + limit) /\ l1 = log (q w)) ->
  Range startID end_ l1 = (inl iterator, l2) ->
  (length (stepReaders iterator) + (if decide (limit = 0%Z) then 0 else 1) <= 1000)%nat ->
  let rc := length (readers w) in
  let resp := withReaderC rc (NewResponse RespOK) in
  exists w',
    doRead cmd startID limit w = Returned tt w'
    /\ readers w'
       = readers w ++ [chanAppend (makeChan 1000)
                         (stepReaders iterator
                          ++ if decide (limit = 0) then [] else [eofReader])]
    /\ trace w'
       = trace w ++ [Respond cmd resp; WaitForReady cmd]
           ++ stepCalls cmd resp iterator
           ++ (if decide (limit = 0) then [] else [SendEOF resp; Finish cmd])
    /\ subscriptions (q w')
       = <[ConnID cmd := newSubscription rc (Done cmd)]> (subscriptions (q w))
    /\ currID (q w') = currID (q w)
    /\ log (q w') = l2
    /\ dones w' = dones w.
Proof.
  intros Hend Hr Hlen rc resp.
  rewrite (doRead_to_Range cmd startID limit w end_ l1 _ l2 Hend Hr).
  unfold streamRange. rewrite bind_cases.
  erewrite (iterate_buffers cmd resp rc iterator _ (readers w) (makeChan 1000));
    [| reflexivity | reflexivity | reflexivity | reflexivity
     | cbn [buf capacity makeChan length]; destruct (decide (limit = 0)); lia].
  cbn [q readers dones trace].
  destruct (decide (limit = 0)) as [E|E].
  - rewrite decide_False by (intros H; apply H, E).
    eexists. split; [reflexivity|]. cbn [q readers dones trace subscriptions currID log
      set_log set_subscriptions]. rewrite !app_nil_r, <- app_assoc. repeat split.
  - rewrite decide_True by exact E. rewrite bind_cases.
    erewrite (sendEOF_last resp _ (readers w));
      [| reflexivity | reflexivity | reflexivity
       | unfold chanAppend; cbn [buf capacity makeChan]; rewrite app_nil_l; lia].
    rewrite act_eq.
    eexists. split; [reflexivity|]. cbn [q readers dones trace subscriptions currID log
      set_log set_subscriptions]. unfold chanAppend. cbn [buf capacity recvq recvd].
    rewrite <- !app_assoc. repeat split.
Qed.

(** X14.  A read with limit 0 on a log that cannot tell its head
    panics with the log's error, after the OK response has been given and the
    caller has been waited for, and before any subscription is recorded. *)
Theorem doRead_head_failure (cmd : Command) startID (w : World) h e l1 :
  Head (log (q w)) = ((h, Some e), l1) ->
  exists w',
    doRead cmd startID 0 w = Panicked e w'
    /\ trace w' = trace w ++ [Respond cmd (withReaderC (length (readers w)) (NewResponse RespOK));
                              WaitForReady cmd]
    /\ subscriptions (q w') = subscriptions (q w)
    /\ currID (q w') = currID (q w).
Proof.
  intros HH.
  cbv beta iota delta [doRead mbind M_bind makeReaderC act modify gets mret M_ret onLog panic].
  cbn [q readers dones trace log]. rewrite decide_True by reflexivity.
  cbn [q readers dones trace log]. rewrite HH. cbn [snd].
  eexists. split; [reflexivity|].
  cbn [q readers dones trace log set_q set_log subscriptions currID].
  rewrite <- app_assoc. repeat split.
Qed.

(** X15.  A READ command that does not carry exactly two arguments, or
    one of whose arguments is not a number, is answered with the invalid
    request client error and changes nothing: no channel is made and the
    counter total_reads is not touched. *)
Theorem read_malformed (cmd : Command) (w : World) :
  Name cmd = CmdRead ->
  length (Args cmd) <> 2%nat \/ (exists a e, a ∈ Args cmd /\ ParseNumber a = inr e) ->
  dispatch cmd w =
    Returned tt {| q := q w; readers := readers w; dones := dones w;
                   trace := trace w ++ [Respond cmd (NewClientErrResponse ErrRespInvalid)] |}.
Proof.
  intros Hn H. unfold events.dispatch. rewrite Hn. unfold handleRead, parseRead.
  destruct (Args cmd) as [|a0 [|a1 [|a2 args]]]; try apply act_eq.
  destruct H as [H | (a & e & Ha & He)]; [simpl in H; lia|].
  apply elem_of_cons in Ha as [->|Ha].
  - rewrite He. apply act_eq.
  - apply elem_of_cons in Ha as [->|Ha]; [|inversion Ha].
    rewrite He. destruct (ParseNumber a0); apply act_eq.
Qed.

(** X16.  A REPLICATE command that does not carry exactly one
    argument, or whose argument is not a number, is answered with ERR (not
    with a client error) and changes nothing. *)
Theorem replicate_malformed (cmd : Command) (w : World) :
  Name cmd = CmdReplicate ->
  length (Args cmd) <> 1%nat \/ (exists a e, a ∈ Args cmd /\ ParseNumber a = inr e) ->
  dispatch cmd w =
    Returned tt {| q := q w; readers := readers w; dones := dones w;
                   trace := trace w ++ [Respond cmd (NewResponse RespErr)] |}.
Proof.
  intros Hn H. unfold events.dispatch. rewrite Hn. unfold handleReplicate, parseReplicate.
  destruct (Args cmd) as [|a0 [|a1 args]]; try apply act_eq.
  destruct H as [H | (a & e & Ha & He)]; [simpl in H; lia|].
  apply elem_of_cons in Ha as [->|Ha]; [|inversion Ha].
  rewrite He. apply act_eq.
Qed.


(** *** Close *)

(** X18.  A CLOSE command without arguments always returns, answers
    OK and removes the subscription of its connection, if there is one; the
    other subscriptions, the current id, the log, the counters and the reader
    channels are untouched, and so is every done channel but that of the
    removed subscription. *)
Theorem close_unsubscribes (cmd : Command) (w : World) :
  Name cmd = CmdClose ->
  Args cmd = [] ->
  exists w',
    dispatch cmd w = Returned tt w'
    /\ trace w' = trace w ++ [Respond cmd (NewResponse RespOK)]
    /\ subscriptions (q w') = delete (ConnID cmd) (subscriptions (q w))
    /\ currID (q w') = currID (q w)
    /\ log (q w') = log (q w)
    /\ Stats (q w') = Stats (q w)
    /\ readers w' = readers w
    /\ length (dones w') = length (dones w)
    /\ (forall c, (forall sub, subscriptions (q w) !! ConnID cmd = Some sub -> done sub <> c) ->
          dones w' !! c = dones w !! c).
Proof.
  intros Hn Ha. unfold events.dispatch. rewrite Hn. unfold handleClose. rewrite Ha.
  rewrite decide_False by (intros H; apply H; reflexivity).
  unfold removeSubscription.
  cbv beta iota delta [mbind M_bind act modify gets mret M_ret finish].
  destruct (subscriptions (q w) !! ConnID cmd) as [sub|] eqn:Es.
  - unfold trySendDone. destruct (dones w !! done sub) as [ch|] eqn:Ed.
    + destruct (chanSend tt ch) as [ch'|].
      * eexists. split; [reflexivity|].
        cbn [q readers dones trace set_q set_subscriptions subscriptions currID log Stats].
        repeat split; [apply length_insert|].
        intros c Hc. apply list_lookup_insert_ne. apply (Hc sub eq_refl).
      * eexists. split; [reflexivity|].
        cbn [q readers dones trace set_q set_subscriptions subscriptions currID log Stats].
        repeat split.
    + eexists. split; [reflexivity|].
      cbn [q readers dones trace set_q set_subscriptions subscriptions currID log Stats].
      repeat split.
  - eexists. split; [reflexivity|].
    cbn [q readers dones trace set_q set_subscriptions subscriptions currID log Stats].
    repeat split.
Qed.

(** X19.  When the connection of a CLOSE command is subscribed, the
    subscription's done channel is signalled if it can take the signal at
    once; if it cannot, the channel is left as it is and the command returns
    all the same. *)
Theorem close_signals_done (cmd : Command) (w : World) sub ch :
  Name cmd = CmdClose ->
  Args cmd = [] ->
  subscriptions (q w) !! ConnID cmd = Some sub ->
  dones w !! done sub = Some ch ->
  exists w',
    dispatch cmd w = Returned tt w'
    /\ dones w' !! done sub
       = Some (match chanSend tt ch with Some ch' => ch' | None => ch end).
Proof.
  intros Hn Ha Hs Hd. unfold events.dispatch. rewrite Hn. unfold handleClose. rewrite Ha.
  rewrite decide_False by (intros H; apply H; reflexivity).
  unfold removeSubscription.
  cbv beta iota delta [mbind M_bind act modify gets mret M_ret finish].
  rewrite Hs. unfold trySendDone. rewrite Hd.
  destruct (chanSend tt ch) as [ch'|].
  - eexists. split; [reflexivity|]. cbn [dones set_q].
    apply list_lookup_insert_eq. eapply lookup_lt_Some, Hd.
  - eexists. split; [reflexivity|]. exact Hd.
Qed.


(** *** One answer per command *)

Lemma responded_respond t c r : responded (t ++ [Respond c r]) = responded t ++ [(c, r)].
Proof. unfold responded. rewrite omap_app. reflexivity. Qed.

Lemma responded_other t a :
  match a with Respond _ _ => False | _ => True end ->
  responded (t ++ [a]) = responded t.
Proof.
  intros Ha. unfold responded. rewrite omap_app. destruct a; try contradiction;
    apply app_nil_r.
Qed.

Lemma post_final {W A} (P : W -> Prop) (o : Outcome W A) : post P o -> P (final o).
Proof. destruct o; auto. Qed.

Lemma act_keeps_responded R a (w : World) :
  match a with Respond _ _ => False | _ => True end ->
  responded (trace w) = R -> post (fun w' => responded (trace w') = R) (act a w).
Proof. intros Ha Hw. rewrite act_eq. simpl. rewrite responded_other; assumption. Qed.

Lemma sendReader_keeps_responded R c r (w : World) :
  responded (trace w) = R -> post (fun w' => responded (trace w') = R) (sendReader c r w).
Proof.
  intros Hw. destruct (sendReader_cases c r w) as [(ch & ch' & _ & _ & ->) | [_ ->]];
    exact Hw.
Qed.

(** Streaming a range answers nothing. *)
Lemma streamRange_keeps_responded (cmd : Command) resp rc limit r (w : World) :
  post (fun w' => responded (trace w') = responded (trace w))
    (streamRange cmd resp rc limit r w).
Proof.
  set (P := fun w' : World => responded (trace w') = responded (trace w)).
  assert (Hend : forall w', P w' -> post P ((sendEOF resp;; act (Finish cmd)) w')).
  { intros w' Hw'. apply post_bind;
      [|intros _ w2 H2; apply act_keeps_responded; [exact I | exact H2]].
    unfold sendEOF. apply post_bind; [apply act_keeps_responded; [exact I | exact Hw']|].
    intros _ w2 H2. destruct (ReaderC resp); [apply sendReader_keeps_responded, H2 | exact H2]. }
  unfold streamRange. destruct r as [iterator|e]; [|apply Hend; reflexivity].
  apply post_bind.
  - apply post_forM_; [|reflexivity]. intros [lf e] w1 H1.
    apply post_bind.
    + destruct e; [apply Hend, H1 | exact H1].
    + intros _ w2 H2. unfold sendChunk. destruct (SizeLimit lf) as [size lim].
      apply post_bind; [apply sendReader_keeps_responded, H2|].
      intros _ w3 H3. apply sendReader_keeps_responded, H3.
  - intros _ w1 H1. destruct (decide (limit ≠ 0)); [apply Hend, H1 | exact H1].
Qed.

Lemma post_mono {W A} (P Q : W -> Prop) (o : Outcome W A) :
  (forall w, P w -> Q w) -> post P o -> post Q o.
Proof. intros H. destruct o; simpl; auto. Qed.

(** A read gives one answer and uses up no id, however it ends. *)
Lemma doRead_answers (cmd : Command) startID limit (w : World) :
  exists r,
    responded (trace (final (doRead cmd startID limit w))) = responded (trace w) ++ [(cmd, r)]
    /\ currID (q (final (doRead cmd startID limit w))) = currID (q w).
Proof.
  exists (withReaderC (length (readers w)) (NewResponse RespOK)).
  assert (Hcase :
    (exists e w1, doRead cmd startID limit w = Panicked e w1
       /\ trace w1 = (trace w ++ [Respond cmd (withReaderC (length (readers w))
                                                  (NewResponse RespOK))])
                     ++ [WaitForReady cmd]
       /\ currID (q w1) = currID (q w))
    \/ exists end_ l1, if decide (limit = 0) then Head (log (q w)) = ((end_, None), l1)
                       else end_ = u64 (startID + limit) /\ l1 = log (q w)).
  { destruct (decide (limit = 0)) as [E|E]; [|right; eauto].
    destruct (Head (log (q w))) as [[h [e|]] l1] eqn:EH; [left | right; eauto].
    cbv beta iota delta [doRead mbind M_bind makeReaderC act modify gets mret M_ret onLog
                         panic].
    cbn [q readers dones trace log]. rewrite decide_True by exact E.
    cbn [q readers dones trace log]. rewrite EH. cbn [snd].
    eexists _, _. repeat split. }
  destruct Hcase as [(e & w1 & -> & Ht & Hc) | (end_ & l1 & Hend)].
  - cbn [final]. rewrite Ht, responded_other by exact I. split; [apply responded_respond|].
    exact Hc.
  - destruct (Range startID end_ l1) as [r l2] eqn:ER.
    rewrite (doRead_to_Range cmd startID limit w end_ l1 r l2 Hend ER).
    match goal with
    | |- context [streamRange ?c ?resp ?rc ?lim ?r ?w1] =>
        pose proof (post_final _ _ (streamRange_keeps_responded c resp rc lim r w1)) as Hq;
        pose proof (post_final _ _ (streamRange_keeps_q c resp rc lim r w1)) as Hq'
    end.
    cbv beta in Hq, Hq'. rewrite Hq, Hq'. cbn [trace q currID set_log set_subscriptions].
    split; [|reflexivity].
    change (trace w ++ [?a; ?b]) with (trace w ++ [a] ++ [b]).
    rewrite app_assoc, responded_other by exact I. apply responded_respond.
Qed.

(** Every command is given one answer, however its handler ends, and only
    a message command answered OK uses up ids. *)
Lemma dispatch_answers (cmd : Command) (w : World) :
  exists r,
    responded (trace (final (dispatch cmd w))) = responded (trace w) ++ [(cmd, r)]
    /\ (currID (q (final (dispatch cmd w))) = currID (q w)
        \/ (Name cmd = CmdMessage /\ Status r = RespOK)).
Proof.
  assert (Hact : forall r (w0 : World),
            trace w0 = trace w -> currID (q w0) = currID (q w) ->
            exists r', responded (trace (final (act (Respond cmd r) w0)))
                       = responded (trace w) ++ [(cmd, r')]
                       /\ (currID (q (final (act (Respond cmd r) w0))) = currID (q w)
                           \/ (Name cmd = CmdMessage /\ Status r' = RespOK))).
  { intros r w0 H0 Hc. exists r. rewrite act_eq. cbn [final trace q]. rewrite H0.
    split; [apply responded_respond | left; exact Hc]. }
  unfold events.dispatch. destruct (Name cmd) eqn:Hn; try (apply Hact; reflexivity).
  - destruct (handleMsg_cases cmd w) as
      [(w2 & resp & -> & Ht & _ & Hc & _) | (w1 & -> & _ & _ & Ht & _)].
    + exists resp. cbn [final]. rewrite Ht. split; [apply responded_respond | left; exact Hc].
    + eexists. cbv zeta.
      match goal with
      | |- context [events.publishMessages _ ?c ?m ?w1] =>
          pose proof (publishMessages_same mapOrder c m w1) as Hp
      end.
      destruct (events.publishMessages _ _ _ _) as [[] w2|w2|e w2]; simpl in Hp;
        try contradiction; destruct Hp as (_ & _ & Hp); cbn [final];
        rewrite Hp, Ht; (split; [apply responded_respond | right; split; reflexivity]).
  - unfold handleReplicate. destruct (parseReplicate _ _); [|apply Hact; reflexivity].
    destruct (doRead_answers cmd z 0 w) as (r & Hr & Hc). exists r. auto.
  - unfold handleRead. destruct (parseRead _ _) as [[s l]|]; [|apply Hact; reflexivity].
    rewrite bind_cases. unfold modify at 1.
    destruct (doRead_answers cmd s l
                (set_q (fun e => set_Stats (Incr "total_reads" (Stats e)) e) w))
      as (r & Hr & Hc).
    exists r. split; [exact Hr | left; exact Hc].
  - unfold handleHead. destruct (decide _); [apply Hact; reflexivity|].
    rewrite bind_cases. unfold onLog. destruct (Head _) as [[h [e|]] l']; cbn [snd];
      apply Hact; reflexivity.
  - unfold handleStats. destruct (decide _); apply Hact; reflexivity.
  - unfold handlePing. destruct (decide _); apply Hact; reflexivity.
  - unfold handleClose. destruct (decide _); [apply Hact; reflexivity|].
    unfold removeSubscription.
    cbv beta iota delta [mbind M_bind modify gets mret M_ret finish].
    destruct (subscriptions (q w) !! ConnID cmd) as [sub|].
    + unfold trySendDone. destruct (dones w !! done sub) as [ch|];
        [destruct (chanSend tt ch)|]; apply Hact; reflexivity.
    + apply Hact; reflexivity.
  - unfold handleSleep. destruct (Args cmd) as [|a [|? ?]]; try (apply Hact; reflexivity).
    destruct (Sscan a); [|apply Hact; reflexivity].
    eexists. rewrite bind_cases, !act_eq. cbn [final trace q].
    rewrite responded_respond, responded_other by exact I. split; [reflexivity | left; reflexivity].
  - rewrite bind_cases. unfold HandleShutdown. destruct asLogManager as [m|].
    + unfold onLog. destruct (Shutdown m _) as [[e|] l']; apply Hact; reflexivity.
    + apply Hact; reflexivity.
Qed.

(** X20.  Whatever the command and however its handler ends
    (returned, parked on a channel or panicked), the handler has given exactly
    one answer to that command by then, and none to any other. *)
Theorem dispatch_responds_once (cmd : Command) (w : World) :
  exists r,
    responded (trace (final (dispatch cmd w))) = responded (trace w) ++ [(cmd, r)].
Proof.
  destruct (dispatch_answers cmd w) as (r & Hr & _).
  exists r. exact Hr.
Qed.

(** The answers given while the loop handles a run of commands, and the
    current id after it: as before, unless a message command of the run was
    answered OK. *)
Lemma loop_answers evs (w w' : World) :
  loop evs w = Returned tt w' ->
  exists rs,
    responded (trace w') = responded (trace w) ++ rs
    /\ (currID (q w') = currID (q w)
        \/ exists c r, (c, r) ∈ rs /\ Name c = CmdMessage /\ Status r = RespOK).
Proof.
  revert w. induction evs as [|[cmd|] evs IH]; intros w Hrun.
  - injection Hrun as <-. exists []. rewrite app_nil_r. auto.
  - cbn [events.loop] in Hrun. apply bind_returned in Hrun as ([] & w1 & Hd & Hrun).
    destruct (dispatch_answers cmd w) as (r & Hr & Hc). rewrite Hd in Hr, Hc.
    cbn [final] in Hr, Hc.
    destruct (IH w1 Hrun) as (rs & Hrs & Hcs).
    exists ((cmd, r) :: rs). split.
    + rewrite Hrs, Hr, <- app_assoc. reflexivity.
    + destruct Hc as [Hc | [Hn Hok]].
      * destruct Hcs as [Hcs | (c & r' & Hin & Hn & Hok)].
        -- left. congruence.
        -- right. exists c, r'. split; [right; exact Hin | auto].
      * right. exists cmd, r. split; [left | auto].
  - injection Hrun as <-. exists []. rewrite app_nil_r. auto.
Qed.

(** *** Start *)

(** X21.  After [Start] has returned without error, it has answered
    nothing.  Let the loop then handle any run of commands of which no
    message command is answered OK (reads, pings, rejected writes and so on).
    The message command handled next, if it is answered OK, gets the id of the
    log's head (as told after set-up) plus its number of messages, however its
    handler ends: ids go on from the head of the log. *)
Theorem Start_then_first_id evs (cmd : Command) (w w1 w2 : World) rs r :
  Start w = Returned None w1 ->
  loop evs w1 = Returned tt w2 ->
  responded (trace w2) = responded (trace w1) ++ rs ->
  (forall c r', (c, r') ∈ rs -> Name c = CmdMessage -> Status r' <> RespOK) ->
  trace (final (handleMsg cmd w2)) = trace w2 ++ [Respond cmd r] ->
  Status r = RespOK ->
  exists head l1,
    Head (match asLogManager with
          | Some manager => snd (Setup manager (log (q w)))
          | None => log (q w)
          end) = ((head, None), l1)
    /\ trace w1 = trace w
    /\ ID r = u64 (head + len (Args cmd)).
Proof.
  intros HS Hloop Hrs Hnone Ht Hok.
  assert (H1 : exists head l1,
    Head (match asLogManager with
          | Some manager => snd (Setup manager (log (q w)))
          | None => log (q w)
          end) = ((head, None), l1)
    /\ trace w1 = trace w /\ currID (q w1) = u64 (head + 1)).
  { revert HS. unfold Start.
    cbv beta iota delta [mbind M_bind modify gets mret M_ret onLog panic].
    destruct asLogManager as [m|].
    - destruct (Setup m (log (q w))) as [[e|] l0]; [discriminate|].
      cbn [q log set_q set_log snd fst].
      destruct (Head l0) as [[h [e|]] l1]; cbn [snd fst]; [discriminate|].
      intros H. injection H as <-. eauto.
    - destruct (Head (log (q w))) as [[h [e|]] l1]; cbn [snd fst]; [discriminate|].
      intros H. injection H as <-. eauto. }
  destruct H1 as (head & l1 & HH & Ht1 & Hc). exists head, l1.
  split; [exact HH|]. split; [exact Ht1|].
  assert (Hc2 : currID (q w2) = currID (q w1)).
  { destruct (loop_answers evs w1 w2 Hloop) as (rs' & Hrs' & [Hcs | (c & r' & Hin & Hn & Hok')]);
      [exact Hcs|].
    rewrite Hrs in Hrs'. apply app_inv_head in Hrs'. subst rs'.
    exfalso. exact (Hnone c r' Hin Hn Hok'). }
  destruct (handleMsg_answered WriteLogLine mapOrder cmd w2 r Ht Hok) as [-> _].
  rewrite Hc2, Hc.
  rewrite <- (u64_add_l (u64 _ - 1)), u64_sub_l, u64_add_l. f_equal. lia.
Qed.

(** *** The loop *)

(** X22.  The loop returns when it receives on the close channel:
    nothing that comes after is handled. *)
Theorem loop_stops_at_close evs evs' (w : World) :
  loop (evs ++ OnClose :: evs') w = loop evs w.
Proof.
  revert w. induction evs as [|[cmd|] evs IH]; intros w; [reflexivity| |reflexivity].
  cbn [app events.loop]. rewrite !bind_cases. destruct (dispatch cmd w); auto.
Qed.

(** X23.  Commands are handled one after the other: when the loop has
    returned from a run of commands, handling more commands after them is the
    loop run on those from the state the first run left. *)
Theorem loop_app evs1 evs2 (w w1 : World) :
  OnClose ∉ evs1 ->
  loop evs1 w = Returned tt w1 ->
  loop (evs1 ++ evs2) w = loop evs2 w1.
Proof.
  revert w. induction evs1 as [|[cmd|] evs1 IH]; intros w Hc Hrun.
  - injection Hrun as ->. reflexivity.
  - cbn [app events.loop] in *. rewrite bind_cases in *.
    destruct (dispatch cmd w) as [[] w2| |]; try discriminate Hrun.
    apply IH; [|exact Hrun]. rewrite not_elem_of_cons in Hc. tauto.
  - exfalso. apply Hc. left.
Qed.

(** X24.  While a handler is parked on a channel, the loop takes no
    further command: whatever is queued behind it, the queue stays in the
    state it was parked in. *)
Theorem loop_parked evs1 evs2 (w w1 : World) :
  loop evs1 w = Blocked w1 ->
  loop (evs1 ++ evs2) w = Blocked w1.
Proof.
  revert w. induction evs1 as [|[cmd|] evs1 IH]; intros w Hrun; try discriminate Hrun.
  cbn [app events.loop] in *. rewrite bind_cases in *.
  destruct (dispatch cmd w) as [[] w2| |]; try discriminate Hrun; [|exact Hrun].
  apply IH, Hrun.
Qed.

End EventQMore.

Lemma handleMsg_accepted_witness :
  let cmd := model.CMD events.CmdMessage "c2" ["x"; "y"] in
  let w := model.stalled in
  let w' := final (events.handleMsg model.WriteLogLine model.mapOrder cmd w) in
  let r := events.withID 1001 (events.NewResponse events.RespOK) in
  events.handleMsg model.WriteLogLine model.mapOrder cmd w = Blocked w'
  /\ events.trace w' = events.trace w ++ [events.Respond cmd r]
  /\ events.Args cmd <> []
  /\ Forall (fun m => m <> []) (events.Args cmd)
  /\ events.log (events.q w')
     = events.logAfter model.WriteLogLine (u64 (events.currID (events.q w) - 1))
         (events.Args cmd) (events.log (events.q w))
  /\ events.ID r = u64 (events.currID (events.q w) - 1 + len (events.Args cmd))
  /\ events.currID (events.q w') = u64 (events.ID r + 1)
  /\ events.Stats (events.q w') = events.Incr "total_writes" (events.Stats (events.q w))
  /\ events.subscriptions (events.q w') = events.subscriptions (events.q w)
  /\ events.dones w' = events.dones w
  /\ forall e w'', events.handleMsg model.WriteLogLine model.mapOrder cmd w <> Panicked e w''.
Proof.
  intros cmd w w' r.
  assert (H1 : events.handleMsg model.WriteLogLine model.mapOrder cmd w = Blocked w')
    by (vm_compute; reflexivity).
  assert (T1 : events.trace w' = events.trace w ++ [events.Respond cmd r])
    by (vm_compute; reflexivity).
  repeat (split; [assumption|]).
  exact (handleMsg_accepted model.WriteLogLine model.mapOrder cmd w r T1 eq_refl).
Defined.

Lemma handleMsg_rejected_witness :
  let cmd := model.CMD events.CmdMessage "c1" ["hello"; ""] in
  let w := model.freshWorld 100 in
  let w' := final (model.handleMsg cmd w) in
  let r := events.NewClientErrResponse events.ErrRespEmptyMessage in
  events.handleMsg model.WriteLogLine model.mapOrder cmd w = Returned tt w'
  /\ events.trace w' = events.trace w ++ [events.Respond cmd r]
  /\ events.currID (events.q w') = events.currID (events.q w)
  /\ events.subscriptions (events.q w') = events.subscriptions (events.q w)
  /\ events.Stats (events.q w') = events.Stats (events.q w)
  /\ events.readers w' = events.readers w
  /\ events.dones w' = events.dones w.
Proof.
  intros cmd w w' r.
  assert (H1 : events.handleMsg model.WriteLogLine model.mapOrder cmd w = Returned tt w') by (vm_compute; reflexivity).
  assert (T1 : events.trace w' = events.trace w ++ [events.Respond cmd r])
    by (vm_compute; reflexivity).
  repeat (split; [assumption|]).
  refine (handleMsg_rejected model.WriteLogLine model.mapOrder cmd w w' r H1 T1 _).
  discriminate.
Defined.

Lemma handleMsg_delivers_witness :
  let cmd := model.CMD events.CmdMessage "c2" ["again"] in
  let w := model.tailing in
  let w' := final (model.handleMsg cmd w) in
  let r := events.withID 2 (events.NewResponse events.RespOK) in
  let sub := events.newSubscription 0 0 in
  let ch := default (makeChan 0) (events.readers w !! 0%nat) in
  events.handleMsg model.WriteLogLine model.mapOrder cmd w = Returned tt w'
  /\ events.trace w' = events.trace w ++ [events.Respond cmd r]
  /\ events.subscriptions (events.q w) !! "c1" = Some sub
  /\ events.readers w !! 0%nat = Some ch
  /\ recvq ch = 0%nat
  /\ events.readers w' !! 0%nat
     = Some (chanAppend ch
               [events.BytesReader (model.WriteLogLine (protocol.NewMessage 2 (bytes "again")))]).
Proof.
  intros cmd w w' r sub ch.
  assert (Hperm : forall l, model.mapOrder l ≡ₚ l) by (intros l; reflexivity).
  assert (Hmap : events.subscriptions (events.q w) = {["c1" := sub]})
    by (vm_compute; reflexivity).
  assert (Hinj : forall k1 k2 s1 s2,
             events.subscriptions (events.q w) !! k1 = Some s1 ->
             events.subscriptions (events.q w) !! k2 = Some s2 ->
             events.readerC s1 = events.readerC s2 -> k1 = k2).
  { intros k1 k2 s1 s2. rewrite Hmap. intros E1 E2 _.
    apply lookup_singleton_Some in E1 as [<- _].
    apply lookup_singleton_Some in E2 as [<- _]. reflexivity. }
  assert (H1 : events.handleMsg model.WriteLogLine model.mapOrder cmd w = Returned tt w') by (vm_compute; reflexivity).
  assert (T1 : events.trace w' = events.trace w ++ [events.Respond cmd r])
    by (vm_compute; reflexivity).
  assert (Hsub : events.subscriptions (events.q w) !! "c1" = Some sub)
    by (vm_compute; reflexivity).
  assert (Hch : events.readers w !! 0%nat = Some ch) by (vm_compute; reflexivity).
  assert (Hq : recvq ch = 0%nat) by (vm_compute; reflexivity).
  repeat (split; [assumption|]).
  exact (handleMsg_delivers model.WriteLogLine model.mapOrder cmd w w' r "c1" sub ch
           Hperm Hinj H1 T1 eq_refl Hsub Hch Hq).
Defined.

Lemma handleMsg_without_subscribers_witness :
  let cmd := model.CMD events.CmdMessage "c1" ["hello"] in
  let w := model.freshWorld 100 in
  events.subscriptions (events.q w) = ∅
  /\ exists w' r,
      events.handleMsg model.WriteLogLine model.mapOrder cmd w = Returned tt w'
      /\ events.trace w' = events.trace w ++ [events.Respond cmd r]
      /\ events.subscriptions (events.q w') = ∅
      /\ events.readers w' = events.readers w
      /\ events.dones w' = events.dones w.
Proof.
  intros cmd w. split; [reflexivity|].
  refine (handleMsg_without_subscribers model.WriteLogLine model.mapOrder cmd w _ eq_refl).
  intros l. reflexivity.
Defined.

Lemma doRead_streams_witness :
  let cmd := model.CMD events.CmdRead "c1" ["1"; "1"] in
  let w := final (model.handleMsg (model.CMD events.CmdMessage "c2" ["hello"])
                    (model.freshWorld 100)) in
  let file := {| events.lfName := "log.0"; events.lfSize := 21; events.lfLimit := 0 |} in
  let resp := events.withReaderC 0 (events.NewResponse events.RespOK) in
  events.Range 1 2 (events.log (events.q w)) = (inl [(file, None)], events.log (events.q w))
  /\ exists w',
      events.doRead cmd 1 1 w = Returned tt w'
      /\ events.readers w'
         = events.readers w
           ++ [chanAppend (makeChan 1000) (events.chunk file ++ [events.eofReader])]
      /\ events.trace w'
         = events.trace w ++ [events.Respond cmd resp; events.WaitForReady cmd;
                              events.SendEOF resp; events.Finish cmd]
      /\ events.subscriptions (events.q w')
         = <["c1" := events.newSubscription 0 0]> (events.subscriptions (events.q w))
      /\ events.currID (events.q w') = events.currID (events.q w)
      /\ events.log (events.q w') = events.log (events.q w)
      /\ events.dones w' = events.dones w.
Proof.
  intros cmd w file resp.
  assert (HR : events.Range 1 2 (events.log (events.q w))
               = (inl [(file, None)], events.log (events.q w))) by (vm_compute; reflexivity).
  split; [exact HR|].
  refine (doRead_streams cmd 1 1 w 2 (events.log (events.q w)) [(file, None)]
            (events.log (events.q w)) _ HR _).
  - destruct (decide (1 = 0)) as [E|_]; [discriminate E | split; reflexivity].
  - vm_compute. lia.
Defined.

Lemma doRead_head_failure_witness :
  let cmd := model.CMD events.CmdRead "c1" ["1"; "0"] in
  let w := model.closedWorld in
  exists w',
    events.doRead cmd 1 0 w = Panicked (errorString "log is closed") w'
    /\ events.trace w'
       = events.trace w ++ [events.Respond cmd
                              (events.withReaderC 0 (events.NewResponse events.RespOK));
                            events.WaitForReady cmd]
    /\ events.subscriptions (events.q w') = events.subscriptions (events.q w)
    /\ events.currID (events.q w') = events.currID (events.q w).
Proof.
  intros cmd w.
  exact (doRead_head_failure cmd 1 w 0 (errorString "log is closed") model.closedLog eq_refl).
Defined.

Lemma read_malformed_witness :
  let cmd := model.CMD events.CmdRead "c1" ["1"; "many"] in
  let w := model.freshWorld 100 in
  model.ParseNumber (bytes "many") = inr (NumError "ParseUint" ErrSyntax)
  /\ events.dispatch model.WriteLogLine model.ParseNumber model.Sscan model.mapOrder cmd w =
       Returned tt {| events.q := events.q w; events.readers := events.readers w;
                      events.dones := events.dones w;
                      events.trace := events.trace w
                        ++ [events.Respond cmd
                              (events.NewClientErrResponse events.ErrRespInvalid)] |}.
Proof.
  intros cmd w. split; [reflexivity|].
  refine (read_malformed model.WriteLogLine model.ParseNumber model.Sscan model.mapOrder
            cmd w eq_refl _).
  right. exists (bytes "many"), (NumError "ParseUint" ErrSyntax).
  split; [|reflexivity]. apply (bool_decide_unpack _). reflexivity.
Defined.

Lemma replicate_malformed_witness :
  let cmd := model.CMD events.CmdReplicate "c1" ["1"; "2"] in
  let w := model.freshWorld 100 in
  events.dispatch model.WriteLogLine model.ParseNumber model.Sscan model.mapOrder cmd w =
    Returned tt {| events.q := events.q w; events.readers := events.readers w;
                   events.dones := events.dones w;
                   events.trace := events.trace w
                     ++ [events.Respond cmd (events.NewResponse events.RespErr)] |}.
Proof.
  intros cmd w.
  refine (replicate_malformed model.WriteLogLine model.ParseNumber model.Sscan model.mapOrder
            cmd w eq_refl _).
  left. simpl. lia.
Defined.


Lemma close_unsubscribes_witness :
  let cmd := model.CMD events.CmdClose "c1" [] in
  let w := model.tailing in
  events.subscriptions (events.q w) !! "c1" = Some (events.newSubscription 0 0)
  /\ exists w',
      events.dispatch model.WriteLogLine model.ParseNumber model.Sscan model.mapOrder cmd w = Returned tt w'
      /\ events.trace w' = events.trace w ++ [events.Respond cmd (events.NewResponse events.RespOK)]
      /\ events.subscriptions (events.q w') = delete "c1" (events.subscriptions (events.q w))
      /\ events.currID (events.q w') = events.currID (events.q w)
      /\ events.log (events.q w') = events.log (events.q w)
      /\ events.Stats (events.q w') = events.Stats (events.q w)
      /\ events.readers w' = events.readers w
      /\ length (events.dones w') = length (events.dones w)
      /\ (forall c,
            (forall sub, events.subscriptions (events.q w) !! "c1" = Some sub ->
                         events.done sub <> c) ->
            events.dones w' !! c = events.dones w !! c).
Proof.
  intros cmd w. split; [vm_compute; reflexivity|].
  exact (close_unsubscribes model.WriteLogLine model.ParseNumber model.Sscan model.mapOrder
           cmd w eq_refl eq_refl).
Defined.

Lemma close_signals_done_witness :
  let cmd := model.CMD events.CmdClose "c1" [] in
  let w := model.tailing in
  let sub := events.newSubscription 0 0 in
  events.subscriptions (events.q w) !! "c1" = Some sub
  /\ events.dones w !! 0%nat = Some (makeChan 1)
  /\ exists w',
      events.dispatch model.WriteLogLine model.ParseNumber model.Sscan model.mapOrder cmd w = Returned tt w'
      /\ events.dones w' !! 0%nat
         = Some {| capacity := 1; buf := [tt]; recvq := 0; recvd := [] |}.
Proof.
  intros cmd w sub.
  assert (Hs : events.subscriptions (events.q w) !! "c1" = Some sub)
    by (vm_compute; reflexivity).
  assert (Hd : events.dones w !! 0%nat = Some (makeChan 1)) by (vm_compute; reflexivity).
  repeat (split; [assumption|]).
  exact (close_signals_done model.WriteLogLine model.ParseNumber model.Sscan model.mapOrder
           cmd w sub (makeChan 1) eq_refl eq_refl Hs Hd).
Defined.

Lemma Start_then_first_id_witness :
  let w := final (events.handleMsg model.WriteLogLine model.mapOrder
                    (model.CMD events.CmdMessage "c1" ["a"; "b"]) (model.freshWorld 100)) in
  let ping := model.CMD events.CmdPing "c3" [] in
  let bad := model.CMD events.CmdMessage "c1" [""] in
  let head := model.CMD events.CmdHead "c3" [] in
  let evs := [events.OnIn ping; events.OnIn bad; events.OnIn head] in
  let rs := [(ping, events.NewResponse events.RespOK);
             (bad, events.NewClientErrResponse events.ErrRespEmptyMessage);
             (head, events.withID 2 (events.NewResponse events.RespOK))] in
  let cmd := model.CMD events.CmdMessage "c2" ["c"] in
  let w1 := final (events.Start w) in
  let w2 := final (events.loop model.WriteLogLine model.ParseNumber model.Sscan
                     model.mapOrder evs w1) in
  let r := events.withID 3 (events.NewResponse events.RespOK) in
  events.Start w = Returned None w1
  /\ events.loop model.WriteLogLine model.ParseNumber model.Sscan model.mapOrder evs w1
     = Returned tt w2
  /\ events.responded (events.trace w2) = events.responded (events.trace w1) ++ rs
  /\ events.trace (final (events.handleMsg model.WriteLogLine model.mapOrder cmd w2))
     = events.trace w2 ++ [events.Respond cmd r]
  /\ exists head l1,
      events.Head (match events.asLogManager with
                   | Some manager => snd (events.Setup manager (events.log (events.q w)))
                   | None => events.log (events.q w)
                   end) = ((head, None), l1)
      /\ events.trace w1 = events.trace w
      /\ events.ID r = u64 (head + len (events.Args cmd)).
Proof.
  intros w ping bad head evs rs cmd w1 w2 r.
  assert (HS : events.Start w = Returned None w1) by (vm_compute; reflexivity).
  assert (HL : events.loop model.WriteLogLine model.ParseNumber model.Sscan model.mapOrder
                 evs w1 = Returned tt w2) by (vm_compute; reflexivity).
  assert (HR : events.responded (events.trace w2) = events.responded (events.trace w1) ++ rs)
    by (vm_compute; reflexivity).
  assert (T1 : events.trace (final (events.handleMsg model.WriteLogLine model.mapOrder cmd w2))
               = events.trace w2 ++ [events.Respond cmd r]) by (vm_compute; reflexivity).
  repeat (split; [assumption|]).
  refine (Start_then_first_id model.WriteLogLine model.ParseNumber model.Sscan model.mapOrder
            evs cmd w w1 w2 rs r HS HL HR _ T1 eq_refl).
  intros c r' Hin Hn.
  apply elem_of_cons in Hin as [Hin|Hin]; [injection Hin as -> ->; discriminate Hn|].
  apply elem_of_cons in Hin as [Hin|Hin]; [injection Hin as -> ->; discriminate|].
  apply elem_of_cons in Hin as [Hin|Hin]; [injection Hin as -> ->; discriminate Hn|].
  inversion Hin.
Defined.

Lemma loop_app_witness :
  let evs1 := [events.OnIn (model.CMD events.CmdMessage "c1" ["hello"])] in
  let evs2 := [events.OnIn (model.CMD events.CmdHead "c1" [])] in
  let w := model.freshWorld 100 in
  let w1 := final (model.loop evs1 w) in
  events.loop model.WriteLogLine model.ParseNumber model.Sscan model.mapOrder evs1 w = Returned tt w1
  /\ events.loop model.WriteLogLine model.ParseNumber model.Sscan model.mapOrder (evs1 ++ evs2) w
     = events.loop model.WriteLogLine model.ParseNumber model.Sscan model.mapOrder evs2 w1.
Proof.
  intros evs1 evs2 w w1.
  assert (H1 : events.loop model.WriteLogLine model.ParseNumber model.Sscan model.mapOrder evs1 w = Returned tt w1) by (vm_compute; reflexivity).
  split; [exact H1|].
  refine (loop_app model.WriteLogLine model.ParseNumber model.Sscan model.mapOrder
            evs1 evs2 w w1 _ H1).
  intros H. apply elem_of_cons in H as [H|H]; [discriminate H | inversion H].
Defined.

Lemma loop_parked_witness :
  let evs1 := model.backlog ++ [events.OnIn (model.CMD events.CmdMessage "c2" ["hello"])] in
  let evs2 := [events.OnIn (model.CMD events.CmdPing "c3" [])] in
  let w := model.freshWorld 1000000 in
  let w1 := final (model.loop evs1 w) in
  events.loop model.WriteLogLine model.ParseNumber model.Sscan model.mapOrder evs1 w
    = Blocked w1
  /\ events.loop model.WriteLogLine model.ParseNumber model.Sscan model.mapOrder
       (evs1 ++ evs2) w = Blocked w1.
Proof.
  intros evs1 evs2 w w1.
  assert (H1 : events.loop model.WriteLogLine model.ParseNumber model.Sscan model.mapOrder
                 evs1 w = Blocked w1) by (vm_compute; reflexivity).
  split; [exact H1|].
  exact (loop_parked model.WriteLogLine model.ParseNumber model.Sscan model.mapOrder
           evs1 evs2 w w1 H1).
Defined.

(** ** The multiplexer: what a request leaves alone *)

Section MultiplexerMore.

Import mux.

Context {Q T TS R : Type} `{!QueueOps Q T TS R}.

Local Abbreviation Handlers := (Handlers Q TS).


(** The map after [PushRequest]: the map before, with at most the entry for
    the request's topic set. *)
Lemma PushRequest_h (req : Request) (hs : Handlers) :
  h (snd (PushRequest req hs)) = h hs
  \/ exists qu, h (snd (PushRequest req hs)) = <[Topic req := qu]> (h hs).
Proof.
  unfold PushRequest, pushBlockingRequest.
  destruct (blockingReqs (Name req)); [|left; apply pushAsync_h].
  destruct (decide (Topic req = "")); [left; apply pushAsync_h|].
  destruct (h hs !! Topic req) as [qu|]; [right; eexists; apply pushTopic_h|].
  destruct (decide (Name req = events.CmdBatch)); [|left; apply pushAsync_h].
  destruct (topics_add _ _) as [[t|e0] ts]; [|left; reflexivity].
  destruct (GoStart _) as [[e1|] qu]; [left; reflexivity|].
  right. eexists. rewrite pushTopic_h. cbn [h set_h set_topics].
  apply insert_insert_eq.
Qed.

(** X25.  [PushRequest] leaves the entry of every topic but the
    request's own as it was. *)
Theorem PushRequest_other_topics (req : Request) (hs : Handlers) (k : string) :
  k <> Topic req ->
  h (snd (PushRequest req hs)) !! k = h hs !! k.
Proof.
  intros Hk. destruct (PushRequest_h req hs) as [-> | [qu ->]]; [reflexivity|].
  apply lookup_insert_ne. congruence.
Qed.

(** X26.  [PushRequest] never removes a queue: every topic that
    had a queue still has one afterwards. *)
Theorem PushRequest_keeps_queues (req : Request) (hs : Handlers) :
  dom (h hs) ⊆ dom (h (snd (PushRequest req hs))).
Proof.
  destruct (PushRequest_h req hs) as [-> | [qu ->]]; [reflexivity|].
  rewrite dom_insert_L. set_solver.
Qed.


End MultiplexerMore.

Lemma PushRequest_other_topics_witness :
  let batch := {| mux.Name := events.CmdBatch; mux.Topic := "events" |} in
  "orders" <> mux.Topic batch
  /\ mux.h (snd (mux.PushRequest batch model.oneTopic)) !! "orders"
     = mux.h model.oneTopic !! "orders".
Proof.
  intros batch.
  assert (Hk : "orders" <> mux.Topic batch) by discriminate.
  split; [exact Hk|].
  exact (PushRequest_other_topics batch model.oneTopic "orders" Hk).
Defined.


(** ** The client: a read that fails *)

Section ClientMore.

Import client.

Context {C : Type} `{!Conn C}.

Local Abbreviation Client := (Client C).

Lemma flush_keeps (c : Client) :
  cr (snd (flush c)) = cr c /\ readreq (snd (flush c)) = readreq c
  /\ bs (snd (flush c)) = bs c.
Proof.
  unfold flush. destruct (0 <? Buffered (conn c)); [|auto].
  destruct (Flush (conn c)). auto.
Qed.

Lemma send_keeps wt (c : Client) :
  cr (snd (send wt c)) = cr c /\ readreq (snd (send wt c)) = readreq c
  /\ bs (snd (send wt c)) = bs c.
Proof.
  unfold send. destruct (WriteTo wt (conn c)) as [[n [e|]] x]; [auto|].
  pose proof (flush_keeps (set_conn x c)) as H.
  destruct (flush (set_conn x c)) as [e c']. exact H.
Qed.

(** X28.  Whenever [ReadOffset] returns an error, the count it
    returns is 0 and it returns no scanner; the client's batch scanner has not
    been reset, and the read request it holds is the one just made. *)
Theorem ReadOffset_failure (offset limit : Z) (c c' : Client) n sc e :
  ReadOffset offset limit c = ((n, sc, Some e), c') ->
  n = 0 /\ sc = None /\ bs c' = bs c
  /\ readreq c' = {| Offset := offset; Messages := limit |}.
Proof.
  unfold ReadOffset.
  pose proof (send_keeps {| Offset := offset; Messages := limit |}
                (set_readreq {| Offset := offset; Messages := limit |} c)) as Hs.
  destruct (send _ _) as [[m [es|]] c1]; cbn [snd cr readreq bs set_readreq] in Hs;
    destruct Hs as (_ & Hrq & Hbs).
  - intros H. injection H as <- <- _ <-. auto.
  - unfold readBatchResponse.
    destruct (ReadFrom _) as [[[k r] [er|]] x]; cbn [cr set_cr set_conn].
    + intros H. injection H as <- <- _ <-. auto.
    + destruct (cr_Error r) as [ee|].
      * intros H. injection H as <- <- _ <-. auto.
      * destruct (decide (cr_Offset r ≠ offset)); [|discriminate].
        intros H. injection H as <- <- _ <-. auto.
Qed.

End ClientMore.

Lemma ReadOffset_failure_witness :
  let c' := snd (client.ReadOffset 5 1 model.dialed) in
  client.ReadOffset 5 1 model.dialed = ((0, None, Some ErrInternal), c')
  /\ client.bs c' = client.bs model.dialed
  /\ client.readreq c' = {| client.Offset := 5; client.Messages := 1 |}.
Proof.
  intros c'.
  assert (H : client.ReadOffset 5 1 model.dialed = ((0, None, Some ErrInternal), c'))
    by reflexivity.
  split; [exact H|].
  exact (proj2 (proj2 (ReadOffset_failure 5 1 model.dialed c' 0 None ErrInternal H))).
Defined.

(** ** The older queue: the scan loop of its read *)

Section LegacyMore.

Import logd.

Context {L : Type} `{!Logger L}.
Variable msgBytes : protocol.Message -> list byte.

Local Abbreviation scanLoop := (scanLoop msgBytes).

Lemma scanLoop_all scans final limit numMsg b :
  limit <= 0 ->
  scanLoop scans final limit numMsg b
    = (b ++ concat (map (fun s => msgBytes (fst s)) scans), final).
Proof.
  intros Hl. revert numMsg b. induction scans as [|[m e] scans IH]; intros numMsg b.
  - simpl. now rewrite app_nil_r.
  - cbn [logd.scanLoop]. replace (0 <? limit) with false by (symmetry; apply Z.ltb_ge; lia).
    cbn [andb]. rewrite IH. simpl. now rewrite app_assoc.
Qed.

Lemma scanLoop_some scans final limit numMsg b :
  0 <= numMsg < limit ->
  scanLoop scans final limit numMsg b =
    (b ++ concat (map (fun s => msgBytes (fst s)) (take (Z.to_nat (limit - numMsg)) scans)),
     match scans !! (Z.to_nat (limit - numMsg) - 1)%nat with
     | Some s => snd s
     | None => final
     end).
Proof.
  revert numMsg b. induction scans as [|[m e] scans IH]; intros numMsg b Hn.
  - cbn [logd.scanLoop]. rewrite take_nil, lookup_nil. simpl. now rewrite app_nil_r.
  - cbn [logd.scanLoop]. replace (0 <? limit) with true by (symmetry; apply Z.ltb_lt; lia).
    cbn [andb]. destruct (limit <=? numMsg + 1) eqn:E.
    + apply Z.leb_le in E. replace (limit - numMsg) with 1 by lia.
      change (Z.to_nat 1) with 1%nat. cbn [take map concat fst snd]. rewrite app_nil_r.
      reflexivity.
    + apply Z.leb_gt in E. rewrite IH by lia.
      replace (Z.to_nat (limit - numMsg)) with (S (Z.to_nat (limit - (numMsg + 1)))) by lia.
      cbn [take map concat fst]. rewrite app_assoc. f_equal.
      replace (S (Z.to_nat (limit - (numMsg + 1))) - 1)%nat
        with (S (Z.to_nat (limit - (numMsg + 1)) - 1))%nat by lia.
      reflexivity.
Qed.

(** X29.  The scan loop of the older [doRead] collects the bytes of the
    messages in scan order: all of them when the limit is 0, and the first
    [limit] of them otherwise.  The error it hands on is the scanner's error
    at the point where it left the loop: the one after the scan that reached
    the limit if it stopped there, and the one after the scan that returned
    false otherwise. *)
Theorem legacy_scanLoop_limit scans final limit :
  0 <= limit ->
  scanLoop scans final limit 0 [] =
    if decide (limit = 0) then (concat (map (fun s => msgBytes (fst s)) scans), final)
    else (concat (map (fun s => msgBytes (fst s)) (take (Z.to_nat limit) scans)),
          match scans !! (Z.to_nat limit - 1)%nat with
          | Some s => snd s
          | None => final
          end).
Proof.
  intros Hl. destruct (decide (limit = 0)) as [->|Hne].
  - apply scanLoop_all. lia.
  - rewrite scanLoop_some by lia. rewrite Z.sub_0_r. reflexivity.
Qed.

End LegacyMore.

Lemma legacy_scanLoop_limit_witness :
  let scans := [(protocol.NewMessage 1 (bytes "a"), None);
                (protocol.NewMessage 2 (bytes "b"), Some ErrInternal);
                (protocol.NewMessage 3 (bytes "c"), None)] in
  0 <= 2
  /\ logd.scanLoop model.WriteLogLine scans (Some io_EOF) 2 0 []
     = (model.WriteLogLine (protocol.NewMessage 1 (bytes "a"))
        ++ model.WriteLogLine (protocol.NewMessage 2 (bytes "b")), Some ErrInternal).
Proof.
  intros scans.
  assert (H : 0 <= 2) by lia.
  split; [exact H|].
  exact (legacy_scanLoop_limit model.WriteLogLine scans (Some io_EOF) 2 H).
Defined.
